(** * Flag-football stat tracker: the aggregation engine of [src/App.jsx]

    A shallow embedding of the data model ([Player], [Game], [StatEvent],
    [PlayerStats]), of the rule configuration table [RULESET_CONFIG], of
    the aggregation function [computeStats], of the store transitions and
    of the document normalisation done by [loadStore] and [importJSON],
    followed by the properties of the specification.

    Modelling conventions.
    - A JavaScript number that only ever counts events is a [nat]; a
      timestamp or a yardage is a [Z].
    - The object [byId] is a plain object literal: it has own properties,
      and it inherits from [Object.prototype] (or from the bucket that an
      assignment to the key ["__proto__"] installs as its prototype).  The
      model keeps the own properties in a finite map, the installed
      prototype beside it, and follows the prototype chain in every read
      [byId[pid]].  The module is in strict mode, so an assignment to a
      property of a primitive number throws a [TypeError]; a run of
      [computeStats] that throws has no result ([None]).
    - An optional field is an [option]; the truthiness test of JavaScript
      on an optional string is [truthy]. *)

From stdpp Require Import base option list strings gmap fin_maps.
From Stdlib Require Import ZArith Lia Permutation.

Local Open Scope string_scope.

(** ** Data model *)

Abbreviation Id := string (only parsing).

Record Player := mkPlayer {
  pl_id : Id;
  pl_name : string;
  jersey : option string;
  position : option string
}.

Inductive RuleSet := NEXT_LEVEL | NFL_FLAG | FARM_LEAGUE.

Record RuleConfig := mkRuleConfig {
  allowPatReturn : bool;
  patReturnPoints : nat
}.

Definition RULESET_CONFIG (rs : RuleSet) : RuleConfig :=
  match rs with
  | NEXT_LEVEL => {| allowPatReturn := false; patReturnPoints := 0 |}
  | NFL_FLAG => {| allowPatReturn := false; patReturnPoints := 0 |}
  | FARM_LEAGUE => {| allowPatReturn := true; patReturnPoints := 2 |}
  end.

(** The tags of the union type [EventType]. *)
Inductive EventType :=
  | PASS_ATT | PASS_COMP | PASS_TD | INT_THROWN
  | RUSH_ATT | RUSH_TD | REC | REC_TD
  | DEF_INT | SACK | FLAG_PULL | DEF_TD
  | XP_1 | XP_2 | PAT_RET_2.

Definition all_event_types : list EventType :=
  [PASS_ATT; PASS_COMP; PASS_TD; INT_THROWN; RUSH_ATT; RUSH_TD; REC; REC_TD;
   DEF_INT; SACK; FLAG_PULL; DEF_TD; XP_1; XP_2; PAT_RET_2].

Definition tagOf (ty : EventType) : string :=
  match ty with
  | PASS_ATT => "PASS_ATT" | PASS_COMP => "PASS_COMP" | PASS_TD => "PASS_TD"
  | INT_THROWN => "INT_THROWN" | RUSH_ATT => "RUSH_ATT" | RUSH_TD => "RUSH_TD"
  | REC => "REC" | REC_TD => "REC_TD" | DEF_INT => "DEF_INT" | SACK => "SACK"
  | FLAG_PULL => "FLAG_PULL" | DEF_TD => "DEF_TD" | XP_1 => "XP_1"
  | XP_2 => "XP_2" | PAT_RET_2 => "PAT_RET_2"
  end.

(** At run time the [type] field of an event is a string (a stored or
    imported document may carry any tag); [switch (e.type)] selects the case
    whose label is that string, and [default] when there is none. *)
Definition switchCase (tag : string) : option EventType :=
  list_find (λ ty, tagOf ty = tag) all_event_types ≫= λ '(_, ty), Some ty.

Record StatEvent := mkEvent {
  ev_id : Id;
  ts : Z;
  ev_type : string;
  playerId : Id;
  receiverId : option Id;
  yards : option Z;
  note : option string
}.

Record PlayerStats := mkStats {
  passAtt : nat; passComp : nat; passTD : nat; intThrown : nat;
  rushAtt : nat; rushTD : nat;
  rec : nat; recTD : nat;
  defInt : nat; sacks : nat; flagPulls : nat; defTD : nat;
  xp1 : nat; xp2 : nat; patRet2 : nat; points : nat
}.

Record Game := mkGame {
  g_id : Id;
  opponent : string;
  dateISO : string;
  ruleSet : RuleSet;
  notes : option string;
  events : list StatEvent
}.

Definition emptyStats : PlayerStats :=
  mkStats 0 0 0 0 0 0 0 0 0 0 0 0 0 0 0 0.

(** ** Field updates: [s.f += n] *)

Definition add_passAtt (n : nat) (s : PlayerStats) : PlayerStats :=
  let 'mkStats a b c d e f g h i j k l m o p q := s in
  mkStats (a + n) b c d e f g h i j k l m o p q.
Definition add_passComp (n : nat) (s : PlayerStats) : PlayerStats :=
  let 'mkStats a b c d e f g h i j k l m o p q := s in
  mkStats a (b + n) c d e f g h i j k l m o p q.
Definition add_passTD (n : nat) (s : PlayerStats) : PlayerStats :=
  let 'mkStats a b c d e f g h i j k l m o p q := s in
  mkStats a b (c + n) d e f g h i j k l m o p q.
Definition add_intThrown (n : nat) (s : PlayerStats) : PlayerStats :=
  let 'mkStats a b c d e f g h i j k l m o p q := s in
  mkStats a b c (d + n) e f g h i j k l m o p q.
Definition add_rushAtt (n : nat) (s : PlayerStats) : PlayerStats :=
  let 'mkStats a b c d e f g h i j k l m o p q := s in
  mkStats a b c d (e + n) f g h i j k l m o p q.
Definition add_rushTD (n : nat) (s : PlayerStats) : PlayerStats :=
  let 'mkStats a b c d e f g h i j k l m o p q := s in
  mkStats a b c d e (f + n) g h i j k l m o p q.
Definition add_rec (n : nat) (s : PlayerStats) : PlayerStats :=
  let 'mkStats a b c d e f g h i j k l m o p q := s in
  mkStats a b c d e f (g + n) h i j k l m o p q.
Definition add_recTD (n : nat) (s : PlayerStats) : PlayerStats :=
  let 'mkStats a b c d e f g h i j k l m o p q := s in
  mkStats a b c d e f g (h + n) i j k l m o p q.
Definition add_defInt (n : nat) (s : PlayerStats) : PlayerStats :=
  let 'mkStats a b c d e f g h i j k l m o p q := s in
  mkStats a b c d e f g h (i + n) j k l m o p q.
Definition add_sacks (n : nat) (s : PlayerStats) : PlayerStats :=
  let 'mkStats a b c d e f g h i j k l m o p q := s in
  mkStats a b c d e f g h i (j + n) k l m o p q.
Definition add_flagPulls (n : nat) (s : PlayerStats) : PlayerStats :=
  let 'mkStats a b c d e f g h i j k l m o p q := s in
  mkStats a b c d e f g h i j (k + n) l m o p q.
Definition add_defTD (n : nat) (s : PlayerStats) : PlayerStats :=
  let 'mkStats a b c d e f g h i j k l m o p q := s in
  mkStats a b c d e f g h i j k (l + n) m o p q.
Definition add_xp1 (n : nat) (s : PlayerStats) : PlayerStats :=
  let 'mkStats a b c d e f g h i j k l m o p q := s in
  mkStats a b c d e f g h i j k l (m + n) o p q.
Definition add_xp2 (n : nat) (s : PlayerStats) : PlayerStats :=
  let 'mkStats a b c d e f g h i j k l m o p q := s in
  mkStats a b c d e f g h i j k l m (o + n) p q.
Definition add_patRet2 (n : nat) (s : PlayerStats) : PlayerStats :=
  let 'mkStats a b c d e f g h i j k l m o p q := s in
  mkStats a b c d e f g h i j k l m o (p + n) q.
Definition add_points (n : nat) (s : PlayerStats) : PlayerStats :=
  let 'mkStats a b c d e f g h i j k l m o p q := s in
  mkStats a b c d e f g h i j k l m o p (q + n).

(** ** Finite maps of buckets and optional strings *)

Abbreviation StatsById := (gmap string PlayerStats) (only parsing).

(** [if (x)] on an optional string: [undefined] and the empty string are
    falsy, every other string is truthy. *)
Definition truthy (x : option string) : option string :=
  match x with
  | Some s => if decide (s = "") then None else Some s
  | None => None
  end.


(** ** The fields of a bucket, by name *)

Inductive Field :=
  | F_passAtt | F_passComp | F_passTD | F_intThrown
  | F_rushAtt | F_rushTD | F_rec | F_recTD
  | F_defInt | F_sacks | F_flagPulls | F_defTD
  | F_xp1 | F_xp2 | F_patRet2 | F_points.

Definition all_fields : list Field :=
  [F_passAtt; F_passComp; F_passTD; F_intThrown; F_rushAtt; F_rushTD; F_rec;
   F_recTD; F_defInt; F_sacks; F_flagPulls; F_defTD; F_xp1; F_xp2; F_patRet2;
   F_points].

Definition fieldName (f : Field) : string :=
  match f with
  | F_passAtt => "passAtt" | F_passComp => "passComp" | F_passTD => "passTD"
  | F_intThrown => "intThrown" | F_rushAtt => "rushAtt" | F_rushTD => "rushTD"
  | F_rec => "rec" | F_recTD => "recTD" | F_defInt => "defInt"
  | F_sacks => "sacks" | F_flagPulls => "flagPulls" | F_defTD => "defTD"
  | F_xp1 => "xp1" | F_xp2 => "xp2" | F_patRet2 => "patRet2"
  | F_points => "points"
  end.

(** The field that a property name denotes, if any. *)
Definition fieldOfName (k : string) : option Field :=
  list_find (λ f, fieldName f = k) all_fields ≫= λ '(_, f), Some f.

(** [b.f] *)
Definition getField (f : Field) (b : PlayerStats) : nat :=
  match f with
  | F_passAtt => passAtt b | F_passComp => passComp b | F_passTD => passTD b
  | F_intThrown => intThrown b | F_rushAtt => rushAtt b | F_rushTD => rushTD b
  | F_rec => rec b | F_recTD => recTD b | F_defInt => defInt b
  | F_sacks => sacks b | F_flagPulls => flagPulls b | F_defTD => defTD b
  | F_xp1 => xp1 b | F_xp2 => xp2 b | F_patRet2 => patRet2 b
  | F_points => points b
  end.

(** [b.f += n] on a bucket. *)
Definition addField (f : Field) (n : nat) (b : PlayerStats) : PlayerStats :=
  match f with
  | F_passAtt => add_passAtt n b | F_passComp => add_passComp n b
  | F_passTD => add_passTD n b | F_intThrown => add_intThrown n b
  | F_rushAtt => add_rushAtt n b | F_rushTD => add_rushTD n b
  | F_rec => add_rec n b | F_recTD => add_recTD n b
  | F_defInt => add_defInt n b | F_sacks => add_sacks n b
  | F_flagPulls => add_flagPulls n b | F_defTD => add_defTD n b
  | F_xp1 => add_xp1 n b | F_xp2 => add_xp2 n b
  | F_patRet2 => add_patRet2 n b | F_points => add_points n b
  end.

(** ** The object [byId]

    [const byId: Record<string, PlayerStats> = {}] is a plain object.  Every
    own property is a bucket made by a fresh [emptyStats()].  Its prototype
    is [Object.prototype] until an assignment [byId["__proto__"] = b] (the
    inherited accessor) installs the bucket [b] instead; the prototype of an
    installed bucket is [Object.prototype].

    A write through a reference to [Object.prototype] or to one of its
    functions lands on that shared object and not in [byId]; such a property
    starts [undefined], so what is written is [NaN].  The model records
    these writes in [stray], as pairs of the key that led to the object and
    the field written.  A stray property reads as [NaN], which is falsy
    like [undefined]: no read of [computeStats] tells them apart, so a run
    does not depend on the stray writes of the runs before it. *)

(** The names of the function-valued properties of [Object.prototype]. *)
Definition objectPrototypeFunctions : list string :=
  ["constructor"; "__defineGetter__"; "__defineSetter__"; "hasOwnProperty";
   "__lookupGetter__"; "__lookupSetter__"; "isPrototypeOf";
   "propertyIsEnumerable"; "toString"; "valueOf"; "toLocaleString"].

(** All the property names of [Object.prototype]: its functions and the
    accessor ["__proto__"]. *)
Definition objectPrototypeNames : list string :=
  "__proto__" :: objectPrototypeFunctions.

Record ByIdState := mkById {
  own : gmap string PlayerStats;
  proto : option PlayerStats;
  stray : gset (string * string)
}.

(** [{}] *)
Definition emptyObject : ByIdState := mkById ∅ None ∅.

(** What an expression [byId[pid]] evaluates to. *)
Inductive Value :=
  | VUndefinedOrNaN
  | VNumber (n : nat)
  | VBucket (k : string)
  | VInstalledPrototype
  | VObjectPrototype
  | VFunction (k : string).

(** [byId[pid]]: an own property, else the accessor ["__proto__"], else a
    field of the installed prototype, else a property of
    [Object.prototype]. *)
Definition get (pid : string) (st : ByIdState) : Value :=
  match own st !! pid with
  | Some _ => VBucket pid
  | None =>
      if decide (pid = "__proto__") then
        match proto st with
        | Some _ => VInstalledPrototype
        | None => VObjectPrototype
        end
      else
        match proto st, fieldOfName pid with
        | Some b, Some f => VNumber (getField f b)
        | _, _ =>
            if decide (pid ∈ objectPrototypeFunctions) then VFunction pid
            else VUndefinedOrNaN
        end
  end.

(** Truthiness: [undefined], [NaN] and 0 are falsy; objects, functions and
    the other numbers are truthy. *)
Definition isTruthy (v : Value) : bool :=
  match v with
  | VUndefinedOrNaN => false
  | VNumber n => negb (Nat.eqb n 0)
  | _ => true
  end.

(** [byId[pid] = emptyStats()]: the key ["__proto__"] goes to the accessor,
    which installs the new bucket as prototype; any other key becomes an
    own property (the inherited data properties are writable). *)
Definition setFresh (pid : string) (st : ByIdState) : ByIdState :=
  if decide (pid = "__proto__")
  then mkById (own st) (Some emptyStats) (stray st)
  else mkById (<[pid := emptyStats]> (own st)) (proto st) (stray st).

(** ** computeStats *)

(** [for (const p of players) byId[p.id] = emptyStats();] *)
Definition seed (players : list Player) : ByIdState :=
  foldl (λ byId p, setFresh (pl_id p) byId) emptyObject players.

(** [ensure]: [if (!byId[pid]) byId[pid] = emptyStats(); return byId[pid];] *)
Definition ensure (pid : Id) (byId : ByIdState) : ByIdState * Value :=
  if isTruthy (get pid byId) then (byId, get pid byId)
  else let byId := setFresh pid byId in (byId, get pid byId).

(** [ref.f += n] where [ref] holds the value [v].  On a bucket the field
    grows; on [Object.prototype] or one of its functions the write is
    stray; on a primitive, or on [undefined], a [TypeError] is thrown. *)
Definition bump (f : Field) (n : nat) (v : Value) (byId : ByIdState)
    : option ByIdState :=
  match v with
  | VBucket k =>
      Some (mkById (alter (addField f n) k (own byId)) (proto byId)
                   (stray byId))
  | VInstalledPrototype =>
      Some (mkById (own byId) (addField f n <$> proto byId) (stray byId))
  | VObjectPrototype =>
      Some (mkById (own byId) (proto byId)
                   ({[("__proto__", fieldName f)]} ∪ stray byId))
  | VFunction k =>
      Some (mkById (own byId) (proto byId)
                   ({[(k, fieldName f)]} ∪ stray byId))
  | VNumber _ | VUndefinedOrNaN => None
  end.

(** The body of [for (const e of events)]; [None] when it throws. *)
Definition applyEvent (byId : ByIdState) (e : StatEvent) : option ByIdState :=
  let '(byId, s) := ensure (playerId e) byId in
  match switchCase (ev_type e) with
  | Some PASS_ATT => bump F_passAtt 1 s byId
  | Some PASS_COMP =>
      byId ← bump F_passAtt 1 s byId;
      byId ← bump F_passComp 1 s byId;
      match truthy (receiverId e) with
      | Some rid =>
          let '(byId, r) := ensure rid byId in
          bump F_rec 1 r byId
      | None => Some byId
      end
  | Some PASS_TD =>
      byId ← bump F_passAtt 1 s byId;
      byId ← bump F_passComp 1 s byId;
      byId ← bump F_passTD 1 s byId;
      byId ← bump F_points 6 s byId;
      match truthy (receiverId e) with
      | Some rid =>
          let '(byId, r) := ensure rid byId in
          byId ← bump F_rec 1 r byId;
          byId ← bump F_recTD 1 r byId;
          bump F_points 6 r byId
      | None => Some byId
      end
  | Some INT_THROWN =>
      byId ← bump F_passAtt 1 s byId;
      bump F_intThrown 1 s byId
  | Some RUSH_ATT => bump F_rushAtt 1 s byId
  | Some RUSH_TD =>
      byId ← bump F_rushAtt 1 s byId;
      byId ← bump F_rushTD 1 s byId;
      bump F_points 6 s byId
  | Some REC => bump F_rec 1 s byId
  | Some REC_TD =>
      byId ← bump F_rec 1 s byId;
      byId ← bump F_recTD 1 s byId;
      bump F_points 6 s byId
  | Some DEF_INT => bump F_defInt 1 s byId
  | Some SACK => bump F_sacks 1 s byId
  | Some FLAG_PULL => bump F_flagPulls 1 s byId
  | Some DEF_TD =>
      byId ← bump F_defTD 1 s byId;
      bump F_points 6 s byId
  | Some XP_1 =>
      byId ← bump F_xp1 1 s byId;
      bump F_points 1 s byId
  | Some XP_2 =>
      byId ← bump F_xp2 1 s byId;
      bump F_points 2 s byId
  | Some PAT_RET_2 =>
      byId ← bump F_patRet2 1 s byId;
      bump F_points 2 s byId
  | None => Some byId
  end.

(** [for (const e of events) { ... }]: the loop stops at the first throw. *)
Fixpoint forEvents (byId : ByIdState) (events : list StatEvent)
    : option ByIdState :=
  match events with
  | [] => Some byId
  | e :: rest => byId ← applyEvent byId e; forEvents byId rest
  end.

(** [computeStats]: the returned [byId], or [None] when a [TypeError]
    leaves the function. *)
Definition computeStats (players : list Player) (events : list StatEvent)
    : option ByIdState :=
  forEvents (seed players) events.

(** An event with the given tag, primary actor and receiver; the other
    fields play no part in the aggregation. *)
Definition ev (ty : string) (pid : Id) (rid : option Id) : StatEvent :=
  mkEvent "e" 0 ty pid rid None None.

(** ** The delta table of the specification (section 4.1)

    [stats_add] is the point-wise sum of two statistics records;
    [primaryDelta] and [receiverDelta] transcribe the two columns of the
    table.  They are written from the table, not from the code, and are
    compared with [computeStats] in the second part. *)

Definition stats_add (d s : PlayerStats) : PlayerStats :=
  mkStats (passAtt s + passAtt d) (passComp s + passComp d)
          (passTD s + passTD d) (intThrown s + intThrown d)
          (rushAtt s + rushAtt d) (rushTD s + rushTD d)
          (rec s + rec d) (recTD s + recTD d)
          (defInt s + defInt d) (sacks s + sacks d)
          (flagPulls s + flagPulls d) (defTD s + defTD d)
          (xp1 s + xp1 d) (xp2 s + xp2 d)
          (patRet2 s + patRet2 d) (points s + points d).

Definition primaryDelta (ty : EventType) : PlayerStats :=
  match ty with
  | PASS_ATT   => mkStats 1 0 0 0 0 0 0 0 0 0 0 0 0 0 0 0
  | PASS_COMP  => mkStats 1 1 0 0 0 0 0 0 0 0 0 0 0 0 0 0
  | PASS_TD    => mkStats 1 1 1 0 0 0 0 0 0 0 0 0 0 0 0 6
  | INT_THROWN => mkStats 1 0 0 1 0 0 0 0 0 0 0 0 0 0 0 0
  | RUSH_ATT   => mkStats 0 0 0 0 1 0 0 0 0 0 0 0 0 0 0 0
  | RUSH_TD    => mkStats 0 0 0 0 1 1 0 0 0 0 0 0 0 0 0 6
  | REC        => mkStats 0 0 0 0 0 0 1 0 0 0 0 0 0 0 0 0
  | REC_TD     => mkStats 0 0 0 0 0 0 1 1 0 0 0 0 0 0 0 6
  | DEF_INT    => mkStats 0 0 0 0 0 0 0 0 1 0 0 0 0 0 0 0
  | SACK       => mkStats 0 0 0 0 0 0 0 0 0 1 0 0 0 0 0 0
  | FLAG_PULL  => mkStats 0 0 0 0 0 0 0 0 0 0 1 0 0 0 0 0
  | DEF_TD     => mkStats 0 0 0 0 0 0 0 0 0 0 0 1 0 0 0 6
  | XP_1       => mkStats 0 0 0 0 0 0 0 0 0 0 0 0 1 0 0 1
  | XP_2       => mkStats 0 0 0 0 0 0 0 0 0 0 0 0 0 1 0 2
  | PAT_RET_2  => mkStats 0 0 0 0 0 0 0 0 0 0 0 0 0 0 1 2
  end.

(** The secondary column: [None] where the table has a dash. *)
Definition receiverDelta (ty : EventType) : option PlayerStats :=
  match ty with
  | PASS_COMP => Some (mkStats 0 0 0 0 0 0 1 0 0 0 0 0 0 0 0 0)
  | PASS_TD   => Some (mkStats 0 0 0 0 0 0 1 1 0 0 0 0 0 0 0 6)
  | _ => None
  end.

(** The secondary actor of an event, when it has one: the receiver of a
    pass-completion-family event whose [receiverId] is present.  Presence
    is the test the source makes, [if (e.receiverId)]: a missing field and
    the empty string both count as absent. *)
Definition creditedReceiver (e : StatEvent) : option (Id * PlayerStats) :=
  ty ← switchCase (ev_type e);
  d ← receiverDelta ty;
  rid ← truthy (receiverId e);
  Some (rid, d).

(** *** The table read over a finite map

    The reading of the table that the engine is compared with: the result
    is a finite map from ids to buckets, every id is an ordinary key, and
    nothing fails. *)

(** The map with a zero bucket for [pid] when it has none. *)
Definition withBucket (pid : Id) (byId : StatsById) : StatsById :=
  match byId !! pid with
  | Some _ => byId
  | None => <[pid := emptyStats]> byId
  end.

(** Crediting a delta to a player: the bucket is created on demand. *)
Definition credit (pid : Id) (d : PlayerStats) (byId : StatsById) : StatsById :=
  alter (stats_add d) pid (withBucket pid byId).

(** The delta an event gives to its primary actor ([emptyStats] for a tag
    outside the table). *)
Definition primaryOf (e : StatEvent) : PlayerStats :=
  from_option primaryDelta emptyStats (switchCase (ev_type e)).

(** What the table prescribes for one event. *)
Definition applyTable (byId : StatsById) (e : StatEvent) : StatsById :=
  let byId := credit (playerId e) (primaryOf e) byId in
  match creditedReceiver e with
  | Some (rid, d) => credit rid d byId
  | None => byId
  end.

(** A zero bucket for every player of the roster. *)
Definition zeroBuckets (players : list Player) : StatsById :=
  foldl (λ byId p, <[pl_id p := emptyStats]> byId) ∅ players.

(** What the table prescribes for a roster and a log. *)
Definition aggregate (players : list Player) (events : list StatEvent)
    : StatsById :=
  foldl applyTable (zeroBuckets players) events.

(** The bucket of a key, the zero record when there is none (the fallback
    [?? emptyStats()] of the statistics table). *)
Definition statsOf (byId : StatsById) (pid : Id) : PlayerStats :=
  default emptyStats (byId !! pid).


(** ** The loop body as a sequence of credits

    One pass of the loop is one or two credits: [ensure] on a key followed
    by the writes of the [case] through the reference obtained.  The lists
    below are read off the [case] bodies of the source. *)

Definition Writes := list (Field * nat).

(** The writes [ws] through one reference, in order. *)
Fixpoint bumpAll (ws : Writes) (v : Value) (byId : ByIdState)
    : option ByIdState :=
  match ws with
  | [] => Some byId
  | (f, n) :: ws => byId ← bump f n v byId; bumpAll ws v byId
  end.

(** [const x = ensure(pid);] and the writes through [x]. *)
Definition creditKey (pid : Id) (ws : Writes) (byId : ByIdState)
    : option ByIdState :=
  let '(byId, v) := ensure pid byId in bumpAll ws v byId.

Definition primaryWrites (ty : EventType) : Writes :=
  match ty with
  | PASS_ATT   => [(F_passAtt, 1)]
  | PASS_COMP  => [(F_passAtt, 1); (F_passComp, 1)]
  | PASS_TD    => [(F_passAtt, 1); (F_passComp, 1); (F_passTD, 1); (F_points, 6)]
  | INT_THROWN => [(F_passAtt, 1); (F_intThrown, 1)]
  | RUSH_ATT   => [(F_rushAtt, 1)]
  | RUSH_TD    => [(F_rushAtt, 1); (F_rushTD, 1); (F_points, 6)]
  | REC        => [(F_rec, 1)]
  | REC_TD     => [(F_rec, 1); (F_recTD, 1); (F_points, 6)]
  | DEF_INT    => [(F_defInt, 1)]
  | SACK       => [(F_sacks, 1)]
  | FLAG_PULL  => [(F_flagPulls, 1)]
  | DEF_TD     => [(F_defTD, 1); (F_points, 6)]
  | XP_1       => [(F_xp1, 1); (F_points, 1)]
  | XP_2       => [(F_xp2, 1); (F_points, 2)]
  | PAT_RET_2  => [(F_patRet2, 1); (F_points, 2)]
  end.

Definition receiverWrites (ty : EventType) : option Writes :=
  match ty with
  | PASS_COMP => Some [(F_rec, 1)]
  | PASS_TD   => Some [(F_rec, 1); (F_recTD, 1); (F_points, 6)]
  | _ => None
  end.

(** The credits of one event: its [playerId] always, its [receiverId] in
    the two pass-completion cases when the [if] is taken. *)
Definition creditsOf (e : StatEvent) : list (Id * Writes) :=
  (playerId e, from_option primaryWrites [] (switchCase (ev_type e))) ::
  match switchCase (ev_type e) ≫= receiverWrites, truthy (receiverId e) with
  | Some ws, Some rid => [(rid, ws)]
  | _, _ => []
  end.

Fixpoint creditAll (cs : list (Id * Writes)) (byId : ByIdState)
    : option ByIdState :=
  match cs with
  | [] => Some byId
  | (k, ws) :: cs => byId ← creditKey k ws byId; creditAll cs byId
  end.

(** The record that a list of writes adds to a bucket. *)
Definition deltaOf (ws : Writes) : PlayerStats :=
  foldr (λ '(f, n), addField f n) emptyStats ws.

(** The stray properties that a list of writes leaves on the object that
    the key [k] led to. *)
Definition strayOf (k : string) (ws : Writes) : gset (string * string) :=
  list_to_set ((λ '(f, _), (k, fieldName f)) <$> ws).

(** ** Ids and the prototype chain *)

(** A key is reserved in a map when it is a property name of
    [Object.prototype] and the map has no own bucket for it: a read
    [byId[k]] then finds the inherited member instead of [undefined]. *)
Definition reserved (k : Id) (m : StatsById) : Prop :=
  k ∈ objectPrototypeNames ∧ m !! k = None.

(** No player of the roster has the id ["__proto__"]. *)
Definition noProtoId (roster : list Player) : Prop :=
  "__proto__" ∉ pl_id <$> roster.

(** An id is ordinary for a roster when it is the id of a player of the
    roster or is no property name of [Object.prototype]. *)
Definition ordinaryFor (roster : list Player) (k : Id) : Prop :=
  k ∈ pl_id <$> roster ∨ k ∉ objectPrototypeNames.

(** An id that is neither a property name of [Object.prototype] nor the
    name of a field of a bucket: reading it finds an own property or
    nothing. *)
Definition inertId (k : Id) : Prop :=
  (k ∉ objectPrototypeNames) ∧ (fieldOfName k = None).

(** [uid]: [`${prefix}_${r}_${t}`], where [r] is the text of
    [Math.random().toString(16).slice(2)] and [t] the text of
    [Date.now().toString(16)]. *)
Definition uid (prefix r t : string) : string :=
  prefix +:+ ("_" +:+ (r +:+ ("_" +:+ t))).

(** The state of a run on a roster without the id ["__proto__"]: the
    prototype is still [Object.prototype], and every player of the roster
    has an own bucket. *)
Definition plain (roster : list Player) (byId : ByIdState) : Prop :=
  proto byId = None
  ∧ own byId !! "__proto__" = None
  ∧ ∀ k, k ∈ pl_id <$> roster → is_Some (own byId !! k).

(** A credit on a state whose prototype is [Object.prototype]: it is
    diverted to [Object.prototype] when the key is reserved, and lands in
    the own bucket of the key otherwise. *)
Definition creditPlain (k : Id) (ws : Writes)
    (ms : StatsById * gset (string * string))
    : StatsById * gset (string * string) :=
  if decide (reserved k ms.1) then (ms.1, strayOf k ws ∪ ms.2)
  else (credit k (deltaOf ws) ms.1, ms.2).

(** The state with a zero bucket for [k] when it has no own bucket. *)
Definition withOwnBucket (k : Id) (byId : ByIdState) : ByIdState :=
  mkById (withBucket k (own byId)) (proto byId) (stray byId).

Definition creditsPlain (cs : list (Id * Writes))
    (ms : StatsById * gset (string * string))
    : StatsById * gset (string * string) :=
  foldl (λ ms '(k, ws), creditPlain k ws ms) ms cs.

(** The credits read by the table: every one lands in a bucket. *)
Definition creditsTable (cs : list (Id * Writes)) (m : StatsById) : StatsById :=
  foldl (λ m '(k, ws), credit k (deltaOf ws) m) m cs.

(** ** Declarative reading of an event log

    What one event contributes to one player, and the buckets a log gives
    rise to.  These follow the wording of the specification and are related
    to [computeStats] in the second part. *)

(** The delta of event [e] for player [q]: the primary column when [q] is
    the primary actor, plus the secondary column when [q] is the credited
    receiver. *)
Definition deltaFor (q : Id) (e : StatEvent) : PlayerStats :=
  stats_add
    (if decide (playerId e = q) then primaryOf e else emptyStats)
    (match creditedReceiver e with
     | Some (rid, d) => if decide (rid = q) then d else emptyStats
     | None => emptyStats
     end).

Definition sumStats (ds : list PlayerStats) : PlayerStats :=
  foldr stats_add emptyStats ds.

(** The player ids an event credits. *)
Definition referenced (e : StatEvent) : gset string :=
  {[playerId e]} ∪
  match creditedReceiver e with
  | Some (rid, _) => {[rid]}
  | None => ∅
  end.

(** The keys of the result: the roster and every credited id. *)
Definition bucketIds (players : list Player) (events : list StatEvent)
    : gset string :=
  list_to_set (pl_id <$> players) ∪ ⋃ (referenced <$> events).

(** Point values as the specification lists them: 6 for each touchdown
    tag, 1 and 2 for the conversions, 2 for the PAT return; 6 more for the
    receiver of a touchdown pass. *)
Definition primaryPoints (ty : EventType) : nat :=
  match ty with
  | PASS_TD | RUSH_TD | REC_TD | DEF_TD => 6
  | XP_1 => 1
  | XP_2 | PAT_RET_2 => 2
  | _ => 0
  end.

Definition receiverPoints (ty : EventType) : nat :=
  match ty with
  | PASS_TD => 6
  | _ => 0
  end.

(** Points that event [e] credits to player [q]: the primary value when [q]
    is its [playerId], the secondary value when [q] is its [receiverId]. *)
Definition pointsCredited (q : Id) (e : StatEvent) : nat :=
  match switchCase (ev_type e) with
  | Some ty =>
      (if decide (playerId e = q) then primaryPoints ty else 0) +
      (if decide (receiverId e = Some q) then receiverPoints ty else 0)
  | None => 0
  end.

(** The declared point contribution of an event: the primary value, plus
    the secondary value when the event has a [receiverId]. *)
Definition declaredPoints (e : StatEvent) : nat :=
  match switchCase (ev_type e) with
  | Some ty =>
      primaryPoints ty +
      (if receiverId e is Some _ then receiverPoints ty else 0)
  | None => 0
  end.

(** Every id that an event of the log credits is ordinary for the
    roster. *)
Definition safeLog (roster : list Player) (events : list StatEvent) : Prop :=
  ∀ e k, e ∈ events → k ∈ referenced e → ordinaryFor roster k.

(** Total of the [points] field over all buckets of a result. *)
Definition totalPoints (byId : StatsById) : nat :=
  map_fold (λ _ st acc, points st + acc) 0 byId.

(** The same, as a check that can be run on a concrete log. *)
Definition safeLogCheck (roster : list Player) (events : list StatEvent)
    : Prop :=
  Forall (λ e, Forall (ordinaryFor roster) (creditsOf e).*1) events.

(** ** The store and its transitions *)

Record UI := mkUI { selectedGameId : option Id }.

Record Store := mkStore {
  players : list Player;
  games : list Game;
  ui : UI
}.

(** [{ ...g, events: evs }] *)
Definition withEvents (g : Game) (evs : list StatEvent) : Game :=
  mkGame (g_id g) (opponent g) (dateISO g) (ruleSet g) (notes g) evs.

(** [{ ...g, ruleSet: rs }]: the same game bound to another rule set. *)
Definition withRuleSet (g : Game) (rs : RuleSet) : Game :=
  mkGame (g_id g) (opponent g) (dateISO g) rs (notes g) (events g).

(** [deletePlayer]: the roster loses the player, and every game loses the
    events that name the player as [playerId] or as [receiverId].  The
    comparisons are [!==]: a missing [receiverId] differs from every id. *)
Definition deletePlayer (id : Id) (s : Store) : Store :=
  {| players := filter (λ p, pl_id p ≠ id) (players s);
     games := (λ g, withEvents g
                 (filter (λ e, playerId e ≠ id ∧ receiverId e ≠ Some id)
                         (events g))) <$> games s;
     ui := ui s |}.

(** [selectedGame]: [store.games.find((g) => g.id === store.ui.selectedGameId)] *)
Definition selectedGame (s : Store) : option Game :=
  sel ← selectedGameId (ui s);
  snd <$> list_find (λ g, g_id g = sel) (games s).

(** [statsByPlayer]: the box score of the selected game, [{}] when no game
    is selected; the rule set of the game is not an input of the
    aggregation. *)
Definition statsByPlayer (s : Store) : option ByIdState :=
  match selectedGame s with
  | None => Some emptyObject
  | Some g => computeStats (players s) (events g)
  end.

(** A small store used to exercise the transitions: two players and one
    game whose log names both. *)
Definition sampleStore : Store :=
  mkStore
    [mkPlayer "X" "Xavier" None None; mkPlayer "Y" "Yan" None None]
    [mkGame "g1" "Owls" "2024-05-01" NFL_FLAG None
       [ev "PASS_TD" "Y" (Some "X"); ev "RUSH_TD" "X" None; ev "XP_1" "Y" None]]
    (mkUI (Some "g1")).

(** A store whose selected game is played under FARM_LEAGUE and has a PAT
    return in its log. *)
Definition farmStore : Store :=
  mkStore
    [mkPlayer "X" "Xavier" None None; mkPlayer "Y" "Yan" None None]
    [mkGame "g2" "Hawks" "2024-06-01" FARM_LEAGUE None
       [ev "PAT_RET_2" "X" None; ev "RUSH_TD" "Y" None];
     mkGame "g1" "Owls" "2024-05-01" NFL_FLAG None [ev "XP_1" "Y" None]]
    (mkUI (Some "g2")).

(** ** Documents: [loadStore] and [importJSON]

    A stored or imported document is untyped: it is whatever [JSON.parse]
    returns.  Numbers are modelled by integers (only their being zero or
    not is looked at). *)

Inductive json :=
  | JNull
  | JBool (b : bool)
  | JNum (n : Z)
  | JStr (s : string)
  | JArr (items : list json)
  | JObj (fields : list (string * json)).

(** A JavaScript value read from a document: [None] is [undefined]. *)
Abbreviation jsval := (option json) (only parsing).

(** [v.k] for [v] other than [null].  An object has the property when one
    of its fields has that key (the last one, as [JSON.parse] keeps the last
    of duplicate keys).  The keys read by the source are "players",
    "games", "ui", "ruleSet" and "events"; numbers, booleans, strings and
    arrays have no property of these names. *)
Definition prop (k : string) (v : json) : jsval :=
  match v with
  | JObj fields =>
      (λ hit, hit.2.2) <$> list_find (λ kv, kv.1 = k) (reverse fields)
  | _ => None
  end.

(** [v.k] where [v] may be [null]: reading a property of [null] throws a
    [TypeError], which is the outer [None]. *)
Definition getProp (k : string) (v : json) : option jsval :=
  match v with
  | JNull => None
  | _ => Some (prop k v)
  end.

(** [g?.k]: [undefined] when [g] is [null]. *)
Definition optProp (k : string) (g : json) : jsval :=
  match g with
  | JNull => None
  | _ => prop k g
  end.

(** Truthiness of a value. *)
Definition js_truthy (v : jsval) : bool :=
  match v with
  | None | Some JNull => false
  | Some (JBool b) => b
  | Some (JNum n) => negb (n =? 0)%Z
  | Some (JStr s) => negb (String.eqb s "")
  | Some (JArr _) | Some (JObj _) => true
  end.

(** [v || d] *)
Definition js_or (v : jsval) (d : json) : json :=
  match v with
  | Some x => if js_truthy v then x else d
  | None => d
  end.

(** [v ?? d] *)
Definition js_nullish (v : jsval) (d : json) : json :=
  match v with
  | None | Some JNull => d
  | Some x => x
  end.

(** [Array.isArray(v)] *)
Definition isArray (v : jsval) : bool :=
  match v with
  | Some (JArr _) => true
  | _ => false
  end.

(** [Array.isArray(v) ? v : []] *)
Definition arrayOrEmpty (v : jsval) : list json :=
  match v with
  | Some (JArr items) => items
  | _ => []
  end.

(** The object [{ ...g, ruleSet: r, events: evs }] built for each game:
    [spread] is the value [g] whose own properties are copied, the two
    other fields are the properties that override them. *)
Record LoadedGame := mkLoadedGame {
  spread : json;
  lg_ruleSet : json;
  lg_events : list json
}.

Record LoadedStore := mkLoadedStore {
  ls_players : list json;
  ls_games : list LoadedGame;
  ls_ui : json
}.

(** [{ players: [], games: [], ui: {} }] *)
Definition emptyStore : LoadedStore := mkLoadedStore [] [] (JObj []).

(** The callback of [parsed.games.map]. *)
Definition normalizeGame (g : json) : LoadedGame :=
  {| spread := g;
     lg_ruleSet := js_or (optProp "ruleSet" g) (JStr "NFL_FLAG");
     lg_events := arrayOrEmpty (optProp "events" g) |}.

(** The object literal that [loadStore] returns and [importJSON] passes to
    [setStore]; [None] when building it throws. *)
Definition normalize (parsed : json) : option LoadedStore :=
  ps ← getProp "players" parsed;
  gs ← getProp "games" parsed;
  u ← getProp "ui" parsed;
  Some {| ls_players := arrayOrEmpty ps;
          ls_games := match gs with
                      | Some (JArr items) => normalizeGame <$> items
                      | _ => []
                      end;
          ls_ui := js_nullish u (JObj []) |}.

(** What [localStorage.getItem] does: it throws, returns [null], or
    returns the stored text. *)
Inductive StorageRead := ReadThrows | NoItem | Item (text : string).

(** The valid tags of the field [ruleSet]. *)
Definition ruleSetOfTag (v : jsval) : option RuleSet :=
  match v with
  | Some (JStr "NEXT_LEVEL") => Some NEXT_LEVEL
  | Some (JStr "NFL_FLAG") => Some NFL_FLAG
  | Some (JStr "FARM_LEAGUE") => Some FARM_LEAGUE
  | _ => None
  end.

Section Documents.

(** [JSON.parse]: [None] when it throws a [SyntaxError]. *)
Variable JSON_parse : string → option json.

(** [loadStore]: everything happens inside [try], and [catch] returns the
    empty store. *)
Definition loadStore (raw : StorageRead) : LoadedStore :=
  match raw with
  | ReadThrows => emptyStore
  | NoItem => emptyStore
  | Item text =>
      if decide (text = "") then emptyStore
      else match JSON_parse text with
           | None => emptyStore
           | Some parsed => default emptyStore (normalize parsed)
           end
  end.

(** [importJSON]: no [try]; the result is the store passed to [setStore],
    or [None] when an exception leaves the function (the returned promise
    is rejected and the store stays as it was). *)
Definition importJSON (text : string) : option LoadedStore :=
  parsed ← JSON_parse text;
  normalize parsed.

End Documents.

(** ** The other store transitions of [App]

    The identifier returned by [uid()] and the clock value [Date.now()] are
    inputs of the transitions that use them; [String.prototype.trim] is a
    parameter.  The closure variables [selectedGame], [primaryPlayerId],
    [receiverId] and [note] are read from the store the transition applies
    to and from explicit arguments. *)

(** The optional argument [opts?: Partial<StatEvent>] of [pushEvent], for
    the three fields that [pushEvent] reads. *)
Record Opts := mkOpts {
  o_receiverId : option Id;
  o_yards : option Z;
  o_note : option string
}.

(** A call without [opts]. *)
Definition noOpts : Opts := mkOpts None None None.

(** [openGame] *)
Definition openGame (id : Id) (s : Store) : Store :=
  {| players := players s; games := games s;
     ui := {| selectedGameId := Some id |} |}.

(** [deleteGame]: the games with that id go, and the selection is cleared
    when it pointed to them. *)
Definition deleteGame (id : Id) (s : Store) : Store :=
  {| players := players s;
     games := filter (λ g, g_id g ≠ id) (games s);
     ui := {| selectedGameId :=
                if decide (selectedGameId (ui s) = Some id) then None
                else selectedGameId (ui s) |} |}.

(** [removeEvent] *)
Definition removeEvent (eventId : Id) (s : Store) : Store :=
  match selectedGame s with
  | None => s
  | Some sel =>
      {| players := players s;
         games := (λ g, if decide (g_id g = g_id sel)
                        then withEvents g
                               (filter (λ e, ev_id e ≠ eventId) (events g))
                        else g) <$> games s;
         ui := ui s |}
  end.

(** [clearGameEvents] *)
Definition clearGameEvents (s : Store) : Store :=
  match selectedGame s with
  | None => s
  | Some sel =>
      {| players := players s;
         games := (λ g, if decide (g_id g = g_id sel)
                        then withEvents g [] else g) <$> games s;
         ui := ui s |}
  end.

Section Transitions.

(** [String.prototype.trim] *)
Variable trim : string → string.

(** [addPlayer], where [newId] is the value of [uid("p")]. *)
Definition addPlayer (newId : Id) (newPlayerName newPlayerJersey : string)
    (s : Store) : Store :=
  let name := trim newPlayerName in
  if decide (name = "") then s
  else {| players := players s
                     ++ [mkPlayer newId name
                           (truthy (Some (trim newPlayerJersey))) None];
          games := games s;
          ui := ui s |}.

(** [addGame], where [newId] is the value of [uid("g")]. *)
Definition addGame (newId : Id) (opponent dateISO : string) (rs : RuleSet)
    (s : Store) : Store :=
  let opp := trim opponent in
  if decide (opp = "") then s
  else {| players := players s;
          games := mkGame newId opp dateISO rs None [] :: games s;
          ui := {| selectedGameId := Some newId |} |}.

(** The event that [pushEvent] builds; [newId] is the value of [uid("e")]
    and [now] that of [Date.now()]. *)
Definition newEvent (newId : Id) (now : Z) (primaryPlayerId : Id)
    (note : string) (ty : EventType) (opts : Opts) : StatEvent :=
  {| ev_id := newId;
     ts := now;
     ev_type := tagOf ty;
     playerId := primaryPlayerId;
     receiverId := o_receiverId opts;
     yards := o_yards opts;
     note := truthy (Some (trim (default note (o_note opts)))) |}.

(** [pushEvent]: nothing happens without a selected game or without a
    primary player; otherwise the new event goes in front of the log. *)
Definition pushEvent (newId : Id) (now : Z) (primaryPlayerId : Id)
    (note : string) (ty : EventType) (opts : Opts) (s : Store) : Store :=
  match selectedGame s with
  | None => s
  | Some sel =>
      if decide (primaryPlayerId = "") then s
      else
        let event := newEvent newId now primaryPlayerId note ty opts in
        {| players := players s;
           games := (λ g, if decide (g_id g = g_id sel)
                          then withEvents g (event :: events g)
                          else g) <$> games s;
           ui := ui s |}
  end.

(** The buttons of the quick logger.  The panel is rendered for a selected
    game when the roster is not empty; the two completion buttons pass the
    chosen receiver, and the PAT-return button exists only under a rule set
    whose configuration allows it.  [quickLog ty] is a click on the button
    of [ty], and does nothing when that button is not on the page. *)
Definition quickLog (newId : Id) (now : Z) (primaryPlayerId receiver : Id)
    (note : string) (ty : EventType) (s : Store) : Store :=
  match selectedGame s with
  | None => s
  | Some sel =>
      match players s with
      | [] => s
      | _ :: _ =>
          match ty with
          | PASS_COMP | PASS_TD =>
              pushEvent newId now primaryPlayerId note ty
                        (mkOpts (Some receiver) None None) s
          | PAT_RET_2 =>
              if allowPatReturn (RULESET_CONFIG (ruleSet sel))
              then pushEvent newId now primaryPlayerId note ty noOpts s
              else s
          | _ => pushEvent newId now primaryPlayerId note ty noOpts s
          end
      end
  end.

End Transitions.

(** ** Class names: [cls] *)

(** [Array.prototype.join] on strings. *)
Fixpoint join (sep : string) (xs : list string) : string :=
  match xs with
  | [] => ""
  | [x] => x
  | x :: rest => x +:+ sep +:+ join sep rest
  end.

(** [cls(...xs)]: [xs.filter(Boolean).join(" ")].  An argument is a string
    or one of [false], [undefined], [null], which are all [None] here. *)
Definition cls (xs : list (option string)) : string :=
  join " " (omap (λ x, truthy x) xs).

(** ** Auxiliary definitions for the proofs *)

(** The shape shared by [pushEvent], [removeEvent] and [clearGameEvents]:
    the games that have the id of the selected game get their log updated
    by [upd]. *)
Definition onSelected (upd : list StatEvent → list StatEvent) (sel : Game)
    (s : Store) : Store :=
  {| players := players s;
     games := (λ g, if decide (g_id g = g_id sel)
                    then withEvents g (upd (events g)) else g) <$> games s;
     ui := ui s |}.

(** [s'] differs from [s] at most in the logs of the games that have the
    selected id: same roster, same selection, the same games in the same
    order with the same id, opponent, date, rule set and notes, and the
    same log for every game with another id. *)
Definition onlySelectedLogChanges (s s' : Store) : Prop :=
  players s' = players s
  ∧ ui s' = ui s
  ∧ (λ g, withEvents g []) <$> games s' = (λ g, withEvents g []) <$> games s
  ∧ ∀ i g, games s !! i = Some g →
           selectedGameId (ui s) ≠ Some (g_id g) →
           games s' !! i = Some g.

(** The id and the rule set of every game, in order. *)
Definition gameBindings (s : Store) : list (Id * RuleSet) :=
  (λ g, (g_id g, ruleSet g)) <$> games s.

(** Every PAT-return event of the store sits in a game whose rule set
    allows the PAT return. *)
Definition patLegal (s : Store) : Prop :=
  ∀ g e, g ∈ games s → e ∈ events g → ev_type e = "PAT_RET_2" →
         allowPatReturn (RULESET_CONFIG (ruleSet g)) = true.

(** Every event of the store carries one of the tags of [EventType] and a
    non-empty [playerId]. *)
Definition wellTagged (s : Store) : Prop :=
  ∀ g e, g ∈ games s → e ∈ events g →
         (∃ ty, ev_type e = tagOf ty) ∧ playerId e ≠ "".

(** ** Writing a store: [exportJSON] and [saveStore]

    The JSON value that [JSON.stringify] writes for a store.  The property
    names are those of the types [Player], [Game], [StatEvent] and [Store];
    a property whose value is [undefined] is not written. *)

Definition optField (k : string) (v : option json) : list (string * json) :=
  match v with
  | Some x => [(k, x)]
  | None => []
  end.

Definition ruleSetTag (rs : RuleSet) : string :=
  match rs with
  | NEXT_LEVEL => "NEXT_LEVEL"
  | NFL_FLAG => "NFL_FLAG"
  | FARM_LEAGUE => "FARM_LEAGUE"
  end.

Definition playerJson (p : Player) : json :=
  JObj ([("id", JStr (pl_id p)); ("name", JStr (pl_name p))]
        ++ optField "jersey" (JStr <$> jersey p)
        ++ optField "position" (JStr <$> position p)).

Definition eventJson (e : StatEvent) : json :=
  JObj ([("id", JStr (ev_id e)); ("ts", JNum (ts e));
         ("type", JStr (ev_type e)); ("playerId", JStr (playerId e))]
        ++ optField "receiverId" (JStr <$> receiverId e)
        ++ optField "yards" (JNum <$> yards e)
        ++ optField "note" (JStr <$> note e)).

Definition gameJson (g : Game) : json :=
  JObj ([("id", JStr (g_id g)); ("opponent", JStr (opponent g));
         ("dateISO", JStr (dateISO g));
         ("ruleSet", JStr (ruleSetTag (ruleSet g)))]
        ++ optField "notes" (JStr <$> notes g)
        ++ [("events", JArr (eventJson <$> events g))]).

Definition uiJson (u : UI) : json :=
  JObj (optField "selectedGameId" (JStr <$> selectedGameId u)).

Definition storeJson (s : Store) : json :=
  JObj [("players", JArr (playerJson <$> players s));
        ("games", JArr (gameJson <$> games s));
        ("ui", uiJson (ui s))].

(** The store that reading back the document of [s] is expected to give:
    the same players, games and selection, every game carrying its own
    rule set and its own events. *)
Definition loadedOf (s : Store) : LoadedStore :=
  {| ls_players := playerJson <$> players s;
     ls_games := (λ g, {| spread := gameJson g;
                          lg_ruleSet := JStr (ruleSetTag (ruleSet g));
                          lg_events := eventJson <$> events g |})
                 <$> games s;
     ls_ui := uiJson (ui s) |}.

Section Writing.

(** [JSON.stringify(v, null, 2)] and [JSON.stringify(v)]. *)
Variable JSON_stringify_pretty : json → string.
Variable JSON_stringify : json → string.

(** The text that [exportJSON] puts in the downloaded file. *)
Definition exportJSON (s : Store) : string :=
  JSON_stringify_pretty (storeJson s).

(** The text that [saveStore] puts in [localStorage]. *)
Definition saveStore (s : Store) : string :=
  JSON_stringify (storeJson s).

End Writing.

(** A statistics record is consistent when completions and thrown
    interceptions are passing attempts, touchdowns are completions, rushes
    or receptions, and [points] is what the scoring counters add up to. *)
Definition consistent (st : PlayerStats) : Prop :=
  (passComp st + intThrown st ≤ passAtt st)%nat
  ∧ (passTD st ≤ passComp st)%nat
  ∧ (rushTD st ≤ rushAtt st)%nat
  ∧ (recTD st ≤ rec st)%nat
  ∧ points st
    = (6 * (passTD st + rushTD st + recTD st + defTD st)
       + xp1 st + 2 * xp2 st + 2 * patRet2 st)%nat.
(** * Properties *)

(** ** Basic facts *)

Lemma stats_add_empty_l s : stats_add emptyStats s = s.
Proof. destruct s; unfold stats_add; simpl; f_equal; lia. Qed.

Lemma stats_add_empty_r d : stats_add d emptyStats = d.
Proof. destruct d; reflexivity. Qed.

Lemma stats_add_comm a b : stats_add a b = stats_add b a.
Proof. destruct a, b; unfold stats_add; simpl; f_equal; lia. Qed.

Lemma stats_add_assoc a b c :
  stats_add a (stats_add b c) = stats_add (stats_add a b) c.
Proof. destruct a, b, c; unfold stats_add; simpl; f_equal; lia. Qed.

Lemma stats_add_swap a b c :
  stats_add a (stats_add b c) = stats_add b (stats_add a c).
Proof. destruct a, b, c; unfold stats_add; simpl; f_equal; lia. Qed.

(** The union type has fifteen tags, with distinct labels. *)
Lemma event_tags_count :
  length all_event_types = 15 ∧ NoDup (tagOf <$> all_event_types).
Proof. split; [done|]. by apply (bool_decide_unpack _). Qed.

Lemma all_event_types_complete ty : ty ∈ all_event_types.
Proof. destruct ty; unfold all_event_types; set_solver. Qed.

Lemma switchCase_tagOf ty : switchCase (tagOf ty) = Some ty.
Proof. destruct ty; reflexivity. Qed.

Lemma switchCase_Some tag ty : switchCase tag = Some ty → tag = tagOf ty.
Proof.
  unfold switchCase.
  destruct (list_find _ _) as [[i ty']|] eqn:Hf; [|done].
  intros [= <-]. by apply list_find_Some in Hf as (_ & Hty & _).
Qed.

Lemma switchCase_None tag :
  switchCase tag = None ↔ ∀ ty, tag ≠ tagOf ty.
Proof.
  split.
  - intros H ty ->. by rewrite switchCase_tagOf in H.
  - intros H. destruct (switchCase tag) as [ty|] eqn:E; [|done].
    apply switchCase_Some in E. by destruct (H ty).
Qed.

Lemma truthy_Some x s : truthy x = Some s ↔ x = Some s ∧ s ≠ "".
Proof.
  unfold truthy. destruct x as [t|]; [|naive_solver].
  case_decide; naive_solver.
Qed.

Lemma truthy_None x : truthy x = None ↔ x = None ∨ x = Some "".
Proof.
  unfold truthy. destruct x as [t|]; [|naive_solver].
  case_decide; naive_solver.
Qed.

(** *** withBucket and credit *)

Lemma lookup_withBucket pid byId q :
  withBucket pid byId !! q
  = if decide (q = pid) then Some (statsOf byId pid) else byId !! q.
Proof.
  unfold withBucket, statsOf. destruct (byId !! pid) as [s|] eqn:E.
  - case_decide; by simplify_eq/=.
  - case_decide; simplify_eq/=; [by rewrite lookup_insert_eq|].
    by rewrite lookup_insert_ne.
Qed.

Lemma withBucket_is_Some pid byId : is_Some (withBucket pid byId !! pid).
Proof. rewrite lookup_withBucket, decide_True by done. eauto. Qed.

Lemma withBucket_id pid byId : is_Some (byId !! pid) → withBucket pid byId = byId.
Proof. intros [s Hs]. unfold withBucket. by rewrite Hs. Qed.

Lemma dom_withBucket pid byId : dom (withBucket pid byId) = {[pid]} ∪ dom byId.
Proof.
  unfold withBucket. destruct (byId !! pid) as [s|] eqn:E.
  - apply (elem_of_dom_2 (D := gset string)) in E. set_solver.
  - by rewrite dom_insert_L.
Qed.

Lemma lookup_credit pid d byId q :
  credit pid d byId !! q
  = if decide (q = pid) then Some (stats_add d (statsOf byId pid))
    else byId !! q.
Proof.
  unfold credit. case_decide as Hq.
  - subst q. rewrite lookup_alter_eq, lookup_withBucket, decide_True by done.
    done.
  - rewrite lookup_alter_ne, lookup_withBucket, decide_False by done. done.
Qed.

Lemma statsOf_credit pid d byId q :
  statsOf (credit pid d byId) q
  = if decide (q = pid) then stats_add d (statsOf byId q) else statsOf byId q.
Proof.
  unfold statsOf at 1. rewrite lookup_credit.
  case_decide; by simplify_eq/=.
Qed.

Lemma dom_credit pid d byId : dom (credit pid d byId) = {[pid]} ∪ dom byId.
Proof. unfold credit. by rewrite dom_alter_L, dom_withBucket. Qed.

Lemma credit_comm p1 d1 p2 d2 byId :
  credit p1 d1 (credit p2 d2 byId) = credit p2 d2 (credit p1 d1 byId).
Proof.
  apply map_eq. intros q. rewrite !lookup_credit, !statsOf_credit.
  repeat case_decide; simplify_eq/=; try done.
  by rewrite stats_add_swap.
Qed.

Lemma alter_stats_add (f : PlayerStats → PlayerStats) d ref (byId : StatsById) :
  (∀ s, f s = stats_add d s) → alter f ref byId = alter (stats_add d) ref byId.
Proof. intros Hf. apply alter_ext. auto. Qed.

Lemma credit_empty pid byId : credit pid emptyStats byId = withBucket pid byId.
Proof.
  unfold credit. apply alter_id. intros s _. apply stats_add_empty_l.
Qed.

Ltac solve_delta :=
  intros []; unfold stats_add, compose; simpl; f_equal; lia.

(** *** Events commute *)

Lemma applyTable_comm byId e1 e2 :
  applyTable (applyTable byId e1) e2 = applyTable (applyTable byId e2) e1.
Proof.
  unfold applyTable.
  destruct (creditedReceiver e1) as [[r1 d1]|],
           (creditedReceiver e2) as [[r2 d2]|];
    repeat first
      [ reflexivity
      | rewrite (credit_comm (playerId e2) _ (playerId e1))
      | rewrite (credit_comm (playerId e2) _ r1)
      | rewrite (credit_comm r2 _ (playerId e1))
      | rewrite (credit_comm r2 _ r1) ].
Qed.

Lemma foldl_applyTable_perm l1 l2 :
  l1 ≡ₚ l2 → ∀ byId, foldl applyTable byId l1 = foldl applyTable byId l2.
Proof.
  induction 1 as [|e l1 l2 _ IH|e1 e2 l|l1 l2 l3 _ IH1 _ IH2]; intros byId; simpl.
  - done.
  - apply IH.
  - by rewrite applyTable_comm.
  - by rewrite IH1.
Qed.

Lemma foldl_applyTable_snoc byId l e :
  foldl applyTable byId (l ++ [e]) = applyTable (foldl applyTable byId l) e.
Proof. by rewrite foldl_app. Qed.

(** *** Buckets of the result *)

Lemma lookup_zeroBuckets_from (m0 : StatsById) players q :
  foldl (λ byId p, <[pl_id p := emptyStats]> byId) m0 players !! q
  = if decide (q ∈ pl_id <$> players) then Some emptyStats else m0 !! q.
Proof.
  revert m0. induction players as [|p ps IH]; intros m0.
  - case_decide as Hq; [|done]. by apply elem_of_nil in Hq.
  - cbn [foldl]. rewrite IH, fmap_cons.
    destruct (decide (q ∈ pl_id <$> ps)) as [Hin|Hnin].
    + rewrite decide_True; [done|]. by apply list_elem_of_further.
    + destruct (decide (q = pl_id p)) as [->|Hne].
      * rewrite lookup_insert_eq, decide_True; [done|]. apply list_elem_of_here.
      * rewrite lookup_insert_ne by done. rewrite decide_False; [done|].
        intros [?|?]%elem_of_cons; done.
Qed.

Lemma lookup_zeroBuckets players q :
  zeroBuckets players !! q
  = if decide (q ∈ pl_id <$> players) then Some emptyStats else None.
Proof. unfold zeroBuckets. by rewrite lookup_zeroBuckets_from, lookup_empty. Qed.

Lemma statsOf_zeroBuckets players q : statsOf (zeroBuckets players) q = emptyStats.
Proof. unfold statsOf. rewrite lookup_zeroBuckets. by case_decide. Qed.

Lemma dom_zeroBuckets players : dom (zeroBuckets players) = list_to_set (pl_id <$> players).
Proof.
  apply set_eq. intros q. rewrite elem_of_dom, lookup_zeroBuckets, elem_of_list_to_set.
  case_decide; split; intros; try done; by destruct 1.
Qed.

Lemma dom_applyTable byId e :
  dom (applyTable byId e) = dom byId ∪ referenced e.
Proof.
  unfold applyTable, referenced.
  destruct (creditedReceiver e) as [[rid d]|]; rewrite ?dom_credit; set_solver.
Qed.

Lemma statsOf_applyTable byId e q :
  statsOf (applyTable byId e) q = stats_add (deltaFor q e) (statsOf byId q).
Proof.
  unfold applyTable, deltaFor.
  destruct (creditedReceiver e) as [[rid d]|]; rewrite !statsOf_credit;
    repeat case_decide; simplify_eq/=;
    rewrite ?stats_add_empty_l, ?stats_add_empty_r; try done.
  by rewrite stats_add_assoc, (stats_add_comm (primaryOf e)).
Qed.

Lemma dom_foldl_applyTable events byId :
  dom (foldl applyTable byId events) = dom byId ∪ ⋃ (referenced <$> events).
Proof.
  revert byId. induction events as [|e es IH]; intros byId; simpl.
  - set_solver.
  - rewrite IH, dom_applyTable. set_solver.
Qed.

Lemma statsOf_foldl_applyTable events byId q :
  statsOf (foldl applyTable byId events) q
  = stats_add (sumStats (deltaFor q <$> events)) (statsOf byId q).
Proof.
  revert byId. induction events as [|e es IH]; intros byId; simpl.
  - by rewrite stats_add_empty_l.
  - rewrite IH, statsOf_applyTable.
    by rewrite stats_add_assoc, (stats_add_comm (sumStats _)).
Qed.

Lemma dom_aggregate players events :
  dom (aggregate players events) = bucketIds players events.
Proof.
  unfold aggregate, bucketIds. by rewrite dom_foldl_applyTable, dom_zeroBuckets.
Qed.

Lemma statsOf_aggregate players events q :
  statsOf (aggregate players events) q = sumStats (deltaFor q <$> events).
Proof.
  unfold aggregate.
  by rewrite statsOf_foldl_applyTable, statsOf_zeroBuckets, stats_add_empty_r.
Qed.

(** The result, bucket by bucket. *)
Lemma lookup_aggregate players events q :
  aggregate players events !! q
  = if decide (q ∈ bucketIds players events)
    then Some (sumStats (deltaFor q <$> events)) else None.
Proof.
  rewrite <-dom_aggregate, <-(statsOf_aggregate players). unfold statsOf.
  case_decide as Hq.
  - apply elem_of_dom in Hq as [st Hst]. by rewrite Hst.
  - by apply not_elem_of_dom in Hq.
Qed.

(** *** Points *)

Lemma points_stats_add d s : points (stats_add d s) = points s + points d.
Proof. done. Qed.

Lemma points_sumStats ds : points (sumStats ds) = sum_list (points <$> ds).
Proof.
  induction ds as [|d ds IH]; [done|].
  rewrite fmap_cons. cbn [sumStats foldr sum_list_with].
  rewrite points_stats_add. fold (sumStats ds). rewrite IH. simpl. lia.
Qed.

(** The literal reading of the receiver and the test [if (e.receiverId)]
    agree on an event, except for a PASS_TD whose [receiverId] is the empty
    string. *)
Lemma truthy_literal e ty :
  switchCase (ev_type e) = Some ty →
  (ev_type e = "PASS_TD" → receiverId e ≠ Some "") →
  receiverPoints ty = 0 ∨ truthy (receiverId e) = receiverId e.
Proof.
  intros Hty Hne. destruct ty; try (by left).
  right. apply switchCase_Some in Hty. specialize (Hne Hty).
  unfold truthy. destruct (receiverId e) as [r|]; [|done].
  case_decide; [by subst|done].
Qed.

Lemma points_deltaFor q e :
  (ev_type e = "PASS_TD" → receiverId e ≠ Some "") →
  points (deltaFor q e) = pointsCredited q e.
Proof.
  intros Hne.
  unfold deltaFor, pointsCredited, primaryOf, creditedReceiver.
  rewrite points_stats_add.
  destruct (switchCase (ev_type e)) as [ty|] eqn:Hty; simpl.
  - destruct (truthy_literal e ty Hty Hne) as [H0|Heq].
    + destruct ty; simpl in *; try done;
        destruct (truthy (receiverId e)) as [rid|]; simpl;
        repeat case_decide; simplify_eq/=; lia.
    + rewrite Heq.
      destruct ty; simpl;
        destruct (receiverId e) as [rid|]; simpl;
        repeat case_decide; simplify_eq/=; lia.
  - by case_decide.
Qed.

Lemma points_primaryOf e :
  points (primaryOf e)
  = from_option primaryPoints 0 (switchCase (ev_type e)).
Proof.
  unfold primaryOf. destruct (switchCase (ev_type e)) as [[]|]; done.
Qed.

Lemma declaredPoints_table e :
  (ev_type e = "PASS_TD" → receiverId e ≠ Some "") →
  declaredPoints e
  = points (primaryOf e)
    + from_option (λ rd, points rd.2) 0 (creditedReceiver e).
Proof.
  intros Hne. unfold declaredPoints, primaryOf, creditedReceiver.
  destruct (switchCase (ev_type e)) as [ty|] eqn:Hty; simpl; [|done].
  destruct (truthy_literal e ty Hty Hne) as [H0|Heq].
  - destruct ty; simpl in *; try done;
      destruct (truthy (receiverId e)), (receiverId e); simpl; lia.
  - rewrite Heq. destruct ty, (receiverId e); simpl; lia.
Qed.

Lemma totalPoints_empty : totalPoints ∅ = 0.
Proof. unfold totalPoints. by rewrite map_fold_empty. Qed.

Lemma totalPoints_insert k st (byId : StatsById) :
  byId !! k = None →
  totalPoints (<[k := st]> byId) = points st + totalPoints byId.
Proof.
  intros Hk. unfold totalPoints.
  rewrite map_fold_insert_L; [done| |done]. intros; lia.
Qed.

Lemma totalPoints_delete k st (byId : StatsById) :
  byId !! k = Some st →
  totalPoints byId = points st + totalPoints (delete k byId).
Proof.
  intros Hk. unfold totalPoints.
  rewrite (map_fold_delete_L _ _ k st byId); [done| |done]. intros; lia.
Qed.

Lemma totalPoints_zero (byId : StatsById) :
  (∀ k st, byId !! k = Some st → points st = 0) → totalPoints byId = 0.
Proof.
  induction byId as [|k st m Hk IH] using map_ind; intros Hz.
  - apply totalPoints_empty.
  - rewrite totalPoints_insert by done.
    rewrite (Hz k st) by apply lookup_insert_eq.
    rewrite IH; [done|]. intros k' st' Hk'. apply (Hz k').
    rewrite lookup_insert_ne; [done|]. intros ->. congruence.
Qed.

Lemma totalPoints_zeroBuckets players : totalPoints (zeroBuckets players) = 0.
Proof.
  apply totalPoints_zero. intros k st. rewrite lookup_zeroBuckets.
  case_decide; by intros [= <-].
Qed.

Lemma totalPoints_credit pid d byId :
  totalPoints (credit pid d byId) = totalPoints byId + points d.
Proof.
  unfold credit, withBucket. destruct (byId !! pid) as [st|] eqn:Hst.
  - rewrite (alter_alt_Some _ _ _ st) by done.
    rewrite <-insert_delete_eq, totalPoints_insert by apply lookup_delete_eq.
    rewrite (totalPoints_delete pid st byId) by done.
    rewrite points_stats_add. lia.
  - rewrite alter_insert_eq, totalPoints_insert by done.
    rewrite stats_add_empty_r. lia.
Qed.

Lemma totalPoints_applyTable byId e :
  (ev_type e = "PASS_TD" → receiverId e ≠ Some "") →
  totalPoints (applyTable byId e) = totalPoints byId + declaredPoints e.
Proof.
  intros Hne. rewrite declaredPoints_table by done. unfold applyTable.
  destruct (creditedReceiver e) as [[rid d]|]; simpl;
    rewrite !totalPoints_credit; lia.
Qed.

Lemma totalPoints_foldl events byId :
  (∀ e, e ∈ events → ev_type e = "PASS_TD" → receiverId e ≠ Some "") →
  totalPoints (foldl applyTable byId events)
  = totalPoints byId + sum_list (declaredPoints <$> events).
Proof.
  revert byId. induction events as [|e es IH]; intros byId Hne; csimpl; [lia|].
  rewrite IH, totalPoints_applyTable.
  - lia.
  - apply Hne. left.
  - intros e' He'. apply Hne. by right.
Qed.


(** *** One event *)

Lemma lookup_applyTable_primary_only byId e :
  creditedReceiver e = None →
  applyTable byId e = credit (playerId e) (primaryOf e) byId.
Proof. intros Hr. unfold applyTable. by rewrite Hr. Qed.

Lemma creditedReceiver_absent e :
  truthy (receiverId e) = None → creditedReceiver e = None.
Proof.
  intros Hr. unfold creditedReceiver. rewrite Hr.
  destruct (switchCase (ev_type e)) as [ty|]; simpl; [|done].
  by destruct (receiverDelta ty).
Qed.

Lemma creditedReceiver_present e ty rid d :
  switchCase (ev_type e) = Some ty → receiverDelta ty = Some d →
  receiverId e = Some rid → rid ≠ "" →
  creditedReceiver e = Some (rid, d).
Proof.
  intros Hty Hd Hr Hne. unfold creditedReceiver. rewrite Hty, Hr. simpl.
  rewrite Hd. simpl. by rewrite decide_False.
Qed.

Lemma creditedReceiver_no_column e ty :
  switchCase (ev_type e) = Some ty → receiverDelta ty = None →
  creditedReceiver e = None.
Proof. intros Hty Hd. unfold creditedReceiver. rewrite Hty. simpl. by rewrite Hd. Qed.

Lemma primaryOf_known e ty :
  switchCase (ev_type e) = Some ty → primaryOf e = primaryDelta ty.
Proof. intros Hty. unfold primaryOf. by rewrite Hty. Qed.

Lemma elem_of_referenced q e :
  q ∈ referenced e ↔ q = playerId e ∨ ∃ d, creditedReceiver e = Some (q, d).
Proof.
  unfold referenced. destruct (creditedReceiver e) as [[rid d]|].
  - rewrite elem_of_union, !elem_of_singleton. naive_solver.
  - rewrite elem_of_union, elem_of_singleton. set_solver.
Qed.

Lemma lookup_applyTable_fresh byId e q :
  byId !! q = None → q ∈ referenced e →
  applyTable byId e !! q = Some (deltaFor q e).
Proof.
  intros Hq Href.
  assert (is_Some (applyTable byId e !! q)) as [st Hst].
  { apply elem_of_dom. rewrite dom_applyTable. set_solver. }
  rewrite Hst. f_equal.
  assert (st = statsOf (applyTable byId e) q) as ->
    by (unfold statsOf; by rewrite Hst).
  rewrite statsOf_applyTable. unfold statsOf at 1. rewrite Hq. simpl.
  apply stats_add_empty_r.
Qed.

(** ** The engine *)

(** *** Writes through one reference *)

Lemma addField_stats_add f n b :
  addField f n b = stats_add (addField f n emptyStats) b.
Proof. destruct f, b; unfold stats_add; simpl; f_equal; lia. Qed.

Lemma deltaOf_cons f n ws :
  deltaOf ((f, n) :: ws) = addField f n (deltaOf ws).
Proof. done. Qed.

Lemma stats_add_deltaOf_cons f n ws b :
  stats_add (deltaOf ws) (addField f n b)
  = stats_add (deltaOf ((f, n) :: ws)) b.
Proof.
  rewrite deltaOf_cons. destruct f, b, (deltaOf ws);
    unfold stats_add; simpl; f_equal; lia.
Qed.

Lemma bumpAll_bucket ws k m p s :
  bumpAll ws (VBucket k) (mkById m p s)
  = Some (mkById (alter (stats_add (deltaOf ws)) k m) p s).
Proof.
  revert m. induction ws as [|[f n] ws IH]; intros m; simpl.
  - f_equal. f_equal. symmetry. apply alter_id.
    intros b _. apply stats_add_empty_l.
  - rewrite IH. f_equal. f_equal. rewrite alter_alter_eq.
    apply alter_ext. intros b _. apply stats_add_deltaOf_cons.
Qed.

Lemma bumpAll_installed ws m p s :
  bumpAll ws VInstalledPrototype (mkById m p s)
  = Some (mkById m (stats_add (deltaOf ws) <$> p) s).
Proof.
  revert p. induction ws as [|[f n] ws IH]; intros p; simpl.
  - destruct p as [b|]; simpl; [|done]. by rewrite stats_add_empty_l.
  - rewrite IH. destruct p as [b|]; simpl; [|done].
    by rewrite stats_add_deltaOf_cons.
Qed.

Lemma bumpAll_function ws k m p s :
  bumpAll ws (VFunction k) (mkById m p s)
  = Some (mkById m p (strayOf k ws ∪ s)).
Proof.
  revert s. induction ws as [|[f n] ws IH]; intros s; simpl.
  - f_equal. f_equal. unfold strayOf. set_solver.
  - rewrite IH. f_equal. f_equal. unfold strayOf. set_solver.
Qed.

Lemma bumpAll_object_prototype ws m p s :
  bumpAll ws VObjectPrototype (mkById m p s)
  = Some (mkById m p (strayOf "__proto__" ws ∪ s)).
Proof.
  revert s. induction ws as [|[f n] ws IH]; intros s; simpl.
  - f_equal. f_equal. unfold strayOf. set_solver.
  - rewrite IH. f_equal. f_equal. unfold strayOf. set_solver.
Qed.

(** A write through a primitive number throws; no write, no throw. *)
Lemma bumpAll_number ws n st :
  bumpAll ws (VNumber n) st = if ws is [] then Some st else None.
Proof. by destruct ws as [|[f m] ws]. Qed.

Lemma bumpAll_undefined ws st :
  bumpAll ws VUndefinedOrNaN st = if ws is [] then Some st else None.
Proof. by destruct ws as [|[f m] ws]. Qed.

(** *** [ensure] *)

Lemma get_own k st b : own st !! k = Some b → get k st = VBucket k.
Proof. intros H. unfold get. by rewrite H. Qed.

Lemma get_not_own k st :
  own st !! k = None → ∀ k', get k st ≠ VBucket k'.
Proof.
  intros H k'. unfold get. rewrite H.
  repeat case_match; done.
Qed.

(** The three ways of [ensure]: the key has an own bucket; the read finds
    an inherited truthy value, which is returned; the read finds nothing
    or a falsy value, and a fresh own bucket is made. *)
Lemma ensure_cases k st :
  (is_Some (own st !! k) ∧ ensure k st = (st, VBucket k))
  ∨ (own st !! k = None ∧ isTruthy (get k st) = true
     ∧ ensure k st = (st, get k st))
  ∨ (own st !! k = None ∧ k ≠ "__proto__" ∧ isTruthy (get k st) = false
     ∧ ensure k st
       = (mkById (<[k := emptyStats]> (own st)) (proto st) (stray st),
          VBucket k)).
Proof.
  destruct (own st !! k) as [b|] eqn:Hk.
  - left. split; [done|]. unfold ensure. by rewrite (get_own k st b).
  - right. unfold ensure. destruct (isTruthy (get k st)) eqn:Ht.
    + by left.
    + right. assert (k ≠ "__proto__") as Hp.
      { intros ->. unfold get in Ht. rewrite Hk in Ht. simpl in Ht.
        by destruct (proto st). }
      split_and!; try done.
      unfold setFresh. rewrite decide_False by done. simpl.
      unfold get. simpl. by rewrite lookup_insert_eq.
Qed.

(** *** One credit *)

Lemma credit_present k d (m : StatsById) :
  is_Some (m !! k) → credit k d m = alter (stats_add d) k m.
Proof. intros H. unfold credit. by rewrite withBucket_id. Qed.

Lemma credit_absent k d (m : StatsById) :
  m !! k = None →
  credit k d m = alter (stats_add d) k (<[k := emptyStats]> m).
Proof. intros H. unfold credit, withBucket. by rewrite H. Qed.

(** A credit either leaves the own buckets alone (the reference led
    elsewhere) or is the credit of the table on them. *)
Lemma creditKey_own k ws st st' :
  creditKey k ws st = Some st' →
  own st' = own st ∨ own st' = credit k (deltaOf ws) (own st).
Proof.
  unfold creditKey.
  destruct (ensure_cases k st) as [[Hk ->]|[(Hk & Ht & ->)|(Hk & Hp & Ht & ->)]].
  - destruct st as [m p s]. rewrite bumpAll_bucket. intros [= <-].
    right. simpl. by rewrite credit_present.
  - destruct st as [m p s]. simpl in *.
    destruct (get k (mkById m p s)) eqn:Hv; simpl in Ht; try done.
    + rewrite bumpAll_number. destruct ws; [|done]. intros [= <-]. by left.
    + by apply get_not_own in Hv.
    + rewrite bumpAll_installed. intros [= <-]. by left.
    + rewrite bumpAll_object_prototype. intros [= <-]. by left.
    + rewrite bumpAll_function. intros [= <-]. by left.
  - rewrite bumpAll_bucket. intros [= <-]. right. simpl.
    by rewrite credit_absent.
Qed.

Lemma creditKey_dom k ws st st' :
  creditKey k ws st = Some st' → dom (own st') ⊆ dom (own st) ∪ {[k]}.
Proof.
  intros H. destruct (creditKey_own _ _ _ _ H) as [->| ->].
  - set_solver.
  - rewrite dom_credit. set_solver.
Qed.

Lemma creditKey_grows k ws st st' :
  creditKey k ws st = Some st' → dom (own st) ⊆ dom (own st').
Proof.
  intros H. destruct (creditKey_own _ _ _ _ H) as [->| ->].
  - set_solver.
  - rewrite dom_credit. set_solver.
Qed.

Lemma map_Forall_credit (P : PlayerStats → Prop) k d (m : StatsById) :
  P emptyStats → (∀ b, P b → P (stats_add d b)) →
  map_Forall (λ _, P) m → map_Forall (λ _, P) (credit k d m).
Proof.
  intros H0 Hd Hm q b. rewrite lookup_credit.
  case_decide as Hq; [|apply Hm].
  intros [= <-]. apply Hd. unfold statsOf.
  destruct (m !! k) as [b'|] eqn:Hb; simpl; [|done]. by apply (Hm k).
Qed.

(** A property of buckets that the zero record has and that the writes
    keep holds of every own bucket after the credit. *)
Lemma creditKey_invariant (P : PlayerStats → Prop) k ws st st' :
  P emptyStats → (∀ b, P b → P (stats_add (deltaOf ws) b)) →
  map_Forall (λ _, P) (own st) →
  creditKey k ws st = Some st' → map_Forall (λ _, P) (own st').
Proof.
  intros H0 Hd Hm H. destruct (creditKey_own _ _ _ _ H) as [->| ->];
    [done|by apply map_Forall_credit].
Qed.

(** *** The loop body is its credits *)

Lemma applyEvent_credits st e : applyEvent st e = creditAll (creditsOf e) st.
Proof.
  unfold applyEvent, creditsOf, creditAll, creditKey.
  destruct (ensure (playerId e) st) as [st1 s].
  destruct (switchCase (ev_type e)) as [ty|]; simpl; [|done].
  destruct ty; simpl;
    repeat (destruct (bump _ _ s _) as [?|]; simpl; [|done]);
    try done;
    destruct (truthy (receiverId e)) as [rid|]; simpl; try done;
    destruct (ensure rid _) as [st2 r];
    repeat (destruct (bump _ _ r _) as [?|]; simpl; [|done]); done.
Qed.

Lemma creditAll_app cs1 cs2 st :
  creditAll (cs1 ++ cs2) st = creditAll cs1 st ≫= creditAll cs2.
Proof.
  revert st. induction cs1 as [|[k ws] cs1 IH]; intros st; simpl; [done|].
  destruct (creditKey k ws st) as [st1|]; simpl; [apply IH|done].
Qed.

Lemma forEvents_credits evs st :
  forEvents st evs = creditAll (evs ≫= creditsOf) st.
Proof.
  revert st. induction evs as [|e evs IH]; intros st; [done|].
  simpl forEvents. rewrite bind_cons, creditAll_app, <-applyEvent_credits.
  destruct (applyEvent st e) as [st1|]; simpl; [apply IH|done].
Qed.

Lemma forEvents_app evs1 evs2 st :
  forEvents st (evs1 ++ evs2) = forEvents st evs1 ≫= λ st, forEvents st evs2.
Proof.
  revert st. induction evs1 as [|e evs1 IH]; intros st; simpl; [done|].
  destruct (applyEvent st e) as [st1|]; simpl; [apply IH|done].
Qed.

Lemma forEvents_snoc evs e st :
  forEvents st (evs ++ [e]) = forEvents st evs ≫= λ st, applyEvent st e.
Proof.
  rewrite forEvents_app. destruct (forEvents st evs) as [st1|]; simpl; [|done].
  by destruct (applyEvent st1 e).
Qed.

Lemma computeStats_snoc roster events e :
  computeStats roster (events ++ [e])
  = computeStats roster events ≫= λ byId, applyEvent byId e.
Proof. apply forEvents_snoc. Qed.

(** *** Credits and the table *)

Lemma creditsOf_table e :
  creditsOf e
  = (playerId e, from_option primaryWrites [] (switchCase (ev_type e)))
    :: match switchCase (ev_type e) ≫= receiverWrites, creditedReceiver e with
       | Some ws, Some (rid, _) => [(rid, ws)]
       | _, _ => []
       end.
Proof.
  unfold creditsOf, creditedReceiver.
  destruct (switchCase (ev_type e)) as [ty|]; simpl; [|done].
  destruct ty; simpl; try done; by destruct (truthy (receiverId e)).
Qed.

Lemma deltaOf_primaryWrites e :
  deltaOf (from_option primaryWrites [] (switchCase (ev_type e)))
  = primaryOf e.
Proof.
  unfold primaryOf. by destruct (switchCase (ev_type e)) as [[]|].
Qed.

Lemma applyTable_credits m e :
  applyTable m e = creditsTable (creditsOf e) m.
Proof.
  unfold applyTable, creditsOf, creditsTable, creditedReceiver.
  cbn [foldl]. rewrite deltaOf_primaryWrites.
  destruct (switchCase (ev_type e)) as [ty|]; simpl; [|done].
  destruct ty; simpl; try done; by destruct (truthy (receiverId e)).
Qed.

Lemma creditsTable_app cs1 cs2 m :
  creditsTable (cs1 ++ cs2) m = creditsTable cs2 (creditsTable cs1 m).
Proof. apply foldl_app. Qed.

Lemma foldl_applyTable_credits evs m :
  foldl applyTable m evs = creditsTable (evs ≫= creditsOf) m.
Proof.
  revert m. induction evs as [|e evs IH]; intros m; [done|].
  cbn [foldl]. by rewrite bind_cons, creditsTable_app, IH, applyTable_credits.
Qed.

Lemma elem_of_creditsOf k e :
  k ∈ (creditsOf e).*1 ↔ k ∈ referenced e.
Proof.
  rewrite elem_of_referenced. unfold creditsOf, creditedReceiver.
  destruct (switchCase (ev_type e)) as [ty|]; simpl.
  - destruct ty; simpl;
      try (rewrite list_elem_of_singleton; naive_solver);
      destruct (truthy (receiverId e)) as [rid|]; simpl;
      rewrite ?elem_of_cons, ?list_elem_of_singleton, ?elem_of_nil;
      naive_solver.
  - rewrite list_elem_of_singleton. naive_solver.
Qed.

Lemma elem_of_credits_bind k evs :
  k ∈ (evs ≫= creditsOf).*1 ↔ ∃ e, e ∈ evs ∧ k ∈ referenced e.
Proof.
  rewrite list_elem_of_fmap. split.
  - intros ([k' ws] & -> & (e & Hin & He)%list_elem_of_bind).
    exists e. split; [done|]. apply elem_of_creditsOf.
    apply list_elem_of_fmap. by exists (k', ws).
  - intros (e & He & Hk). apply elem_of_creditsOf in Hk.
    apply list_elem_of_fmap in Hk as (c & -> & Hc).
    exists c. split; [done|]. apply list_elem_of_bind. by exists e.
Qed.

(** *** Runs whose prototype is [Object.prototype] *)

Lemma creditPlain_reserved k ws ms :
  reserved k ms.1 → creditPlain k ws ms = (ms.1, strayOf k ws ∪ ms.2).
Proof. intros H. unfold creditPlain. by rewrite decide_True. Qed.

Lemma creditPlain_ordinary k ws ms :
  ¬ reserved k ms.1 → creditPlain k ws ms = (credit k (deltaOf ws) ms.1, ms.2).
Proof. intros H. unfold creditPlain. by rewrite decide_False. Qed.

(** Whether a key is reserved does not change during a run. *)
Lemma reserved_creditPlain k k' ws ms :
  reserved k (creditPlain k' ws ms).1 ↔ reserved k ms.1.
Proof.
  unfold creditPlain. case_decide as Hr; simpl; [done|].
  unfold reserved in *. rewrite lookup_credit.
  case_decide as Hk; [subst k'|done]. naive_solver.
Qed.

Lemma reserved_creditsPlain k cs ms :
  reserved k (creditsPlain cs ms).1 ↔ reserved k ms.1.
Proof.
  revert ms. induction cs as [|[k' ws] cs IH]; intros ms; [done|].
  unfold creditsPlain in *. cbn [foldl]. by rewrite IH, reserved_creditPlain.
Qed.

Lemma creditPlain_comm k1 ws1 k2 ws2 ms :
  creditPlain k1 ws1 (creditPlain k2 ws2 ms)
  = creditPlain k2 ws2 (creditPlain k1 ws1 ms).
Proof.
  pose proof (reserved_creditPlain k1 k2 ws2 ms) as E1.
  pose proof (reserved_creditPlain k2 k1 ws1 ms) as E2.
  destruct (decide (reserved k1 ms.1)) as [H1|H1],
           (decide (reserved k2 ms.1)) as [H2|H2].
  - rewrite (creditPlain_reserved k1 ws1 (creditPlain _ _ _)) by tauto.
    rewrite (creditPlain_reserved k2 ws2 (creditPlain _ _ _)) by tauto.
    rewrite (creditPlain_reserved k2 ws2 ms), (creditPlain_reserved k1 ws1 ms)
      by done.
    simpl. f_equal. set_solver.
  - rewrite (creditPlain_reserved k1 ws1 (creditPlain _ _ _)) by tauto.
    rewrite (creditPlain_ordinary k2 ws2 (creditPlain _ _ _)) by tauto.
    by rewrite (creditPlain_ordinary k2 ws2 ms), (creditPlain_reserved k1 ws1 ms)
      by done.
  - rewrite (creditPlain_ordinary k1 ws1 (creditPlain _ _ _)) by tauto.
    rewrite (creditPlain_reserved k2 ws2 (creditPlain _ _ _)) by tauto.
    by rewrite (creditPlain_reserved k2 ws2 ms), (creditPlain_ordinary k1 ws1 ms)
      by done.
  - rewrite (creditPlain_ordinary k1 ws1 (creditPlain _ _ _)) by tauto.
    rewrite (creditPlain_ordinary k2 ws2 (creditPlain _ _ _)) by tauto.
    rewrite (creditPlain_ordinary k2 ws2 ms), (creditPlain_ordinary k1 ws1 ms)
      by done.
    simpl. f_equal. apply credit_comm.
Qed.

Lemma creditsPlain_perm cs1 cs2 :
  cs1 ≡ₚ cs2 → ∀ ms, creditsPlain cs1 ms = creditsPlain cs2 ms.
Proof.
  unfold creditsPlain.
  induction 1 as [|[k ws] l1 l2 _ IH|[k1 ws1] [k2 ws2] l|l1 l2 l3 _ IH1 _ IH2];
    intros ms; cbn [foldl].
  - done.
  - apply IH.
  - by rewrite creditPlain_comm.
  - by rewrite IH1.
Qed.

Lemma creditsPlain_app cs1 cs2 ms :
  creditsPlain (cs1 ++ cs2) ms = creditsPlain cs2 (creditsPlain cs1 ms).
Proof. apply foldl_app. Qed.

Lemma creditPlain_grows k ws ms : dom ms.1 ⊆ dom (creditPlain k ws ms).1.
Proof.
  unfold creditPlain. case_decide; simpl; [done|].
  rewrite dom_credit. set_solver.
Qed.

Lemma creditsPlain_grows cs ms : dom ms.1 ⊆ dom (creditsPlain cs ms).1.
Proof.
  revert ms. induction cs as [|[k ws] cs IH]; intros ms; [done|].
  unfold creditsPlain in *. cbn [foldl].
  etrans; [apply (creditPlain_grows k ws)|apply IH].
Qed.

(** On such a state a credit never throws. *)
Lemma creditKey_plain k ws m s :
  m !! "__proto__" = None →
  creditKey k ws (mkById m None s)
  = Some (mkById (creditPlain k ws (m, s)).1 None (creditPlain k ws (m, s)).2).
Proof.
  intros Hp. unfold creditKey.
  destruct (ensure_cases k (mkById m None s))
    as [[Hk ->]|[(Hk & Ht & ->)|(Hk & Hne & Ht & ->)]]; simpl in *.
  - rewrite bumpAll_bucket, creditPlain_ordinary.
    + simpl. by rewrite credit_present.
    + intros [_ ?]. simpl in *. destruct Hk; congruence.
  - unfold get in *. simpl in *. rewrite Hk in *.
    case_decide as Hproto.
    + subst k. rewrite bumpAll_object_prototype, creditPlain_reserved; [done|].
      split; [left|done].
    + case_decide as Hf; [|done].
      rewrite bumpAll_function, creditPlain_reserved; [done|].
      split; [by right|done].
  - unfold get in Ht. simpl in Ht. rewrite Hk in Ht.
    rewrite decide_False in Ht by done.
    case_decide as Hf; [done|].
    rewrite bumpAll_bucket, creditPlain_ordinary.
    + simpl. by rewrite credit_absent.
    + intros [[?|?]%elem_of_cons _]; done.
Qed.

Lemma creditAll_plain cs m s :
  m !! "__proto__" = None →
  creditAll cs (mkById m None s)
  = Some (mkById (creditsPlain cs (m, s)).1 None (creditsPlain cs (m, s)).2).
Proof.
  revert m s. induction cs as [|[k ws] cs IH]; intros m s Hp; [done|].
  cbn [creditAll]. rewrite creditKey_plain by done. simpl.
  rewrite IH.
  - unfold creditsPlain. cbn [foldl]. by destruct (creditPlain k ws (m, s)).
  - assert (reserved "__proto__" (creditPlain k ws (m, s)).1) as [_ Hr];
      [|done].
    apply reserved_creditPlain. split; [left|done].
Qed.

(** When no key is reserved the credits are those of the table. *)
Lemma creditsPlain_table cs m s :
  (∀ k, k ∈ cs.*1 → ¬ reserved k m) →
  creditsPlain cs (m, s) = (creditsTable cs m, s).
Proof.
  revert m. induction cs as [|[k ws] cs IH]; intros m Hs; [done|].
  unfold creditsPlain, creditsTable in *. cbn [foldl].
  rewrite creditPlain_ordinary by (apply Hs; left). simpl.
  apply IH. intros k' Hk' Hr. apply (Hs k'); [by right|].
  apply (reserved_creditPlain k' k ws (m, s)).
  by rewrite creditPlain_ordinary by (apply Hs; left).
Qed.

(** *** The seeded object *)

Lemma seed_from st0 roster :
  foldl (λ byId p, setFresh (pl_id p) byId) st0 roster
  = mkById (foldl (λ byId p, <[pl_id p := emptyStats]> byId) (own st0)
              (filter (λ p, pl_id p ≠ "__proto__") roster))
           (if decide ("__proto__" ∈ pl_id <$> roster)
            then Some emptyStats else proto st0)
           (stray st0).
Proof.
  revert st0. induction roster as [|p ps IH]; intros st0.
  - by destruct st0.
  - cbn [foldl]. rewrite IH, fmap_cons. unfold setFresh.
    destruct (decide (pl_id p = "__proto__")) as [Hp|Hp]; simpl.
    + rewrite filter_cons_False by (by intros ?).
      rewrite (decide_True (P := _ ∈ _ :: _)) by (rewrite Hp; left).
      f_equal. by case_decide.
    + rewrite filter_cons_True by done. cbn [foldl]. f_equal.
      destruct (decide ("__proto__" ∈ pl_id <$> ps)) as [Hin|Hnin].
      * rewrite decide_True; [done|]. by right.
      * rewrite decide_False; [done|].
        intros [?|?]%elem_of_cons; [congruence|done].
Qed.

(** The roster seeds a zero bucket for every id but ["__proto__"], which
    installs a zero bucket as the prototype instead. *)
Lemma seed_spec roster :
  seed roster
  = mkById (zeroBuckets (filter (λ p, pl_id p ≠ "__proto__") roster))
           (if decide ("__proto__" ∈ pl_id <$> roster)
            then Some emptyStats else None)
           ∅.
Proof. unfold seed. by rewrite seed_from. Qed.

Lemma lookup_own_seed roster q :
  own (seed roster) !! q
  = if decide (q ∈ pl_id <$> roster ∧ q ≠ "__proto__")
    then Some emptyStats else None.
Proof.
  rewrite seed_spec. simpl. rewrite lookup_zeroBuckets.
  assert (q ∈ pl_id <$> filter (λ p, pl_id p ≠ "__proto__") roster
          ↔ q ∈ pl_id <$> roster ∧ q ≠ "__proto__") as Hiff.
  { rewrite !list_elem_of_fmap. split.
    - intros (p & -> & [Hp Hin]%list_elem_of_filter). eauto.
    - intros [(p & -> & Hin) Hne]. exists p. split; [done|].
      by apply list_elem_of_filter. }
  repeat case_decide; tauto.
Qed.

Lemma filter_noProtoId roster :
  noProtoId roster → filter (λ p, pl_id p ≠ "__proto__") roster = roster.
Proof.
  unfold noProtoId. induction roster as [|p ps IH]; intros Hn; [done|].
  rewrite fmap_cons, not_elem_of_cons in Hn. destruct Hn as [Hp Hps].
  rewrite filter_cons_True by done. by rewrite IH.
Qed.

Lemma seed_noProtoId roster :
  noProtoId roster → seed roster = mkById (zeroBuckets roster) None ∅.
Proof.
  intros Hn. rewrite seed_spec, filter_noProtoId by done.
  by rewrite decide_False.
Qed.

Lemma seed_same_ids roster1 roster2 :
  (∀ q, q ∈ pl_id <$> roster1 ↔ q ∈ pl_id <$> roster2) →
  seed roster1 = seed roster2.
Proof.
  intros Hids.
  assert (own (seed roster1) = own (seed roster2)) as Hown.
  { apply map_eq. intros q. rewrite !lookup_own_seed.
    repeat case_decide; try done; exfalso; naive_solver. }
  rewrite !seed_spec in *. simpl in Hown. rewrite Hown. f_equal.
  repeat case_decide; try done; exfalso; naive_solver.
Qed.

Lemma seed_snoc roster p :
  seed (roster ++ [p]) = setFresh (pl_id p) (seed roster).
Proof. unfold seed. by rewrite foldl_app. Qed.

(** *** Rosters without the id ["__proto__"] *)

Lemma computeStats_plain_form roster events :
  noProtoId roster →
  computeStats roster events
  = Some (mkById
            (creditsPlain (events ≫= creditsOf) (zeroBuckets roster, ∅)).1
            None
            (creditsPlain (events ≫= creditsOf) (zeroBuckets roster, ∅)).2).
Proof.
  intros Hn. unfold computeStats.
  rewrite seed_noProtoId, forEvents_credits, creditAll_plain; [done| |done].
  rewrite lookup_zeroBuckets. by rewrite decide_False.
Qed.

Lemma plain_seed roster : noProtoId roster → plain roster (seed roster).
Proof.
  intros Hn. rewrite seed_noProtoId by done. split_and!; simpl.
  - done.
  - rewrite lookup_zeroBuckets. by rewrite decide_False.
  - intros k Hk. rewrite lookup_zeroBuckets. by rewrite decide_True.
Qed.

Lemma ordinary_not_reserved roster st k :
  plain roster st → ordinaryFor roster k → ¬ reserved k (own st).
Proof.
  intros (_ & _ & Hr) [Hk|Hk] [Hin Hnone]; [|done].
  destruct (Hr k Hk). congruence.
Qed.

(** On a plain state the loop body never throws, and the state stays
    plain. *)
Lemma applyEvent_plain roster st e :
  plain roster st →
  ∃ st', applyEvent st e = Some st' ∧ plain roster st'
         ∧ dom (own st) ⊆ dom (own st').
Proof.
  destruct st as [m p s]. intros (Hp & Hproto & Hr). simpl in *. subst p.
  rewrite applyEvent_credits, creditAll_plain by done.
  eexists. split; [done|]. split; [split_and!|]; simpl.
  - done.
  - assert (reserved "__proto__" (creditsPlain (creditsOf e) (m, s)).1)
      as [_ H]; [|done].
    apply reserved_creditsPlain. split; [left|done].
  - intros k Hk. apply elem_of_dom.
    apply (creditsPlain_grows (creditsOf e) (m, s)).
    apply elem_of_dom. by apply Hr.
  - apply (creditsPlain_grows (creditsOf e) (m, s)).
Qed.

Lemma forEvents_plain roster events st :
  plain roster st →
  ∃ st', forEvents st events = Some st' ∧ plain roster st'
         ∧ dom (own st) ⊆ dom (own st').
Proof.
  revert st. induction events as [|e es IH]; intros st Hst.
  - by exists st.
  - destruct (applyEvent_plain roster st e Hst) as (st1 & H1 & Hst1 & Hd1).
    destruct (IH st1 Hst1) as (st2 & H2 & Hst2 & Hd2).
    exists st2. simpl. rewrite H1. simpl. split_and!; try done.
    by etrans.
Qed.

Lemma computeStats_plain roster events :
  noProtoId roster →
  ∃ byId, computeStats roster events = Some byId ∧ plain roster byId.
Proof.
  intros Hn.
  destruct (forEvents_plain roster events (seed roster) (plain_seed _ Hn))
    as (st & H & Hst & _).
  by exists st.
Qed.

(** One event whose ids are ordinary: the loop body does what the table
    says. *)
Lemma applyEvent_plain_safe roster st e :
  plain roster st →
  (∀ k, k ∈ referenced e → ordinaryFor roster k) →
  applyEvent st e
  = Some (mkById (applyTable (own st) e) None (stray st)).
Proof.
  intros Hst Hs. pose proof Hst as (Hp & Hproto & Hr).
  destruct st as [m p s]. simpl in *. subst p.
  rewrite applyEvent_credits, creditAll_plain by done.
  rewrite creditsPlain_table.
  - simpl. by rewrite applyTable_credits.
  - intros k Hk%elem_of_creditsOf.
    apply (ordinary_not_reserved roster (mkById m None s)); auto.
Qed.

(** The engine refines the table: on a roster without ["__proto__"] and a
    log whose ids are ordinary, [computeStats] returns the finite map of
    the table, and nothing else is written. *)
Lemma computeStats_refines roster events :
  noProtoId roster → safeLog roster events →
  computeStats roster events = Some (mkById (aggregate roster events) None ∅).
Proof.
  intros Hn Hs. rewrite computeStats_plain_form by done.
  rewrite creditsPlain_table.
  - simpl. unfold aggregate. by rewrite foldl_applyTable_credits.
  - intros k (e & He & Hk)%elem_of_credits_bind [Hin Hnone].
    destruct (Hs e k He Hk) as [Hroster|Hord]; [|done].
    rewrite lookup_zeroBuckets, decide_True in Hnone by done. done.
Qed.

(** The order of the log does not matter on such a roster. *)
Lemma computeStats_perm roster events1 events2 :
  noProtoId roster → events1 ≡ₚ events2 →
  computeStats roster events1 = computeStats roster events2.
Proof.
  intros Hn Hperm. rewrite !computeStats_plain_form by done.
  by rewrite (creditsPlain_perm (events1 ≫= creditsOf) (events2 ≫= creditsOf))
    by by apply bind_Permutation.
Qed.

Lemma computeStats_cons roster e events :
  noProtoId roster →
  computeStats roster (e :: events)
  = computeStats roster events ≫= λ byId, applyEvent byId e.
Proof.
  intros Hn. rewrite <-computeStats_snoc.
  apply computeStats_perm; [done|]. apply Permutation_cons_append.
Qed.

Lemma computeStats_middle roster l1 e l2 :
  noProtoId roster →
  computeStats roster (l1 ++ e :: l2)
  = computeStats roster (l1 ++ l2) ≫= λ byId, applyEvent byId e.
Proof.
  intros Hn. rewrite <-computeStats_snoc.
  apply computeStats_perm; [done|].
  rewrite <-Permutation_middle. apply Permutation_cons_append.
Qed.

(** *** Every run, throwing or not *)

Lemma creditAll_dom cs st st' :
  creditAll cs st = Some st' →
  dom (own st') ⊆ dom (own st) ∪ list_to_set cs.*1.
Proof.
  revert st. induction cs as [|[k ws] cs IH]; intros st; simpl.
  - intros [= <-]. set_solver.
  - destruct (creditKey k ws st) as [st1|] eqn:H1; simpl; [|done].
    intros H2. apply IH in H2. apply creditKey_dom in H1. set_solver.
Qed.

Lemma dom_own_seed roster :
  dom (own (seed roster)) ⊆ list_to_set (pl_id <$> roster).
Proof.
  intros q [b Hq]%elem_of_dom. rewrite lookup_own_seed in Hq.
  case_decide as Hin; [|done]. apply elem_of_list_to_set. tauto.
Qed.

Lemma credits_bind_referenced evs :
  list_to_set (C := gset string) (evs ≫= creditsOf).*1
  = ⋃ (referenced <$> evs).
Proof.
  apply set_eq. intros k.
  rewrite elem_of_list_to_set, elem_of_credits_bind, elem_of_union_list.
  split.
  - intros (e & He & Hk). exists (referenced e). split; [|done].
    apply list_elem_of_fmap. eauto.
  - intros (X & (e & -> & He)%list_elem_of_fmap & Hk). eauto.
Qed.

(** The keys of the result are ids of the roster or ids that the log
    credits. *)
Lemma computeStats_dom roster events byId :
  computeStats roster events = Some byId →
  dom (own byId) ⊆ bucketIds roster events.
Proof.
  unfold computeStats, bucketIds. rewrite forEvents_credits.
  intros H%creditAll_dom. rewrite credits_bind_referenced in H.
  pose proof (dom_own_seed roster). set_solver.
Qed.

Lemma creditAll_invariant (P : PlayerStats → Prop) cs st st' :
  P emptyStats →
  (∀ k ws b, (k, ws) ∈ cs → P b → P (stats_add (deltaOf ws) b)) →
  map_Forall (λ _, P) (own st) →
  creditAll cs st = Some st' → map_Forall (λ _, P) (own st').
Proof.
  intros H0. revert st. induction cs as [|[k ws] cs IH]; intros st Hd Hm; simpl.
  - by intros [= <-].
  - destruct (creditKey k ws st) as [st1|] eqn:H1; simpl; [|done].
    apply IH.
    + intros k' ws' b Hin. apply (Hd k'). by right.
    + apply (creditKey_invariant P k ws st st1); try done.
      intros b. apply (Hd k). left.
Qed.

(** A property of buckets that the zero record has and that the writes of
    every event of the log keep holds of every bucket of the result. *)
Lemma computeStats_invariant (P : PlayerStats → Prop) roster events byId :
  P emptyStats →
  (∀ e k ws b, e ∈ events → (k, ws) ∈ creditsOf e →
               P b → P (stats_add (deltaOf ws) b)) →
  computeStats roster events = Some byId →
  map_Forall (λ _, P) (own byId).
Proof.
  intros H0 Hd. unfold computeStats. rewrite forEvents_credits.
  apply creditAll_invariant; [done| |].
  - intros k ws b (e & Hin & He)%list_elem_of_bind. by apply (Hd e k).
  - intros q b. rewrite lookup_own_seed. case_decide; [|done].
    by intros [= <-].
Qed.

(** The writes of a credit are a row of the table, or none. *)
Lemma creditsOf_writes e k ws :
  (k, ws) ∈ creditsOf e →
  ws = [] ∨ (∃ ty, switchCase (ev_type e) = Some ty ∧ k = playerId e
                   ∧ ws = primaryWrites ty)
  ∨ (∃ ty, switchCase (ev_type e) = Some ty ∧ receiverId e = Some k
           ∧ receiverWrites ty = Some ws).
Proof.
  unfold creditsOf.
  destruct (switchCase (ev_type e)) as [ty|] eqn:Hty; simpl.
  - intros [[= -> ->]|Hin]%elem_of_cons; [right; left; eauto|].
    destruct (receiverWrites ty) as [ws'|] eqn:Hw;
      [|by apply elem_of_nil in Hin].
    destruct (truthy (receiverId e)) as [rid|] eqn:Hr;
      [|by apply elem_of_nil in Hin].
    apply list_elem_of_singleton in Hin as [= -> ->].
    apply truthy_Some in Hr as [Hr _]. right; right. eauto.
  - intros [= -> ->]%list_elem_of_singleton. by left.
Qed.

(** *** Inert keys *)

Lemma fieldOfName_Some k f : fieldOfName k = Some f → fieldName f = k.
Proof.
  unfold fieldOfName.
  destruct (list_find _ all_fields) as [[i f']|] eqn:Hf; simpl; [|done].
  intros [= <-]. by apply list_find_Some in Hf as (_ & Hn & _).
Qed.

(** An id made by [uid("p")] is inert: its second character is an
    underscore. *)
Lemma uid_inert r t : inertId (uid "p" r t).
Proof.
  split.
  - unfold objectPrototypeNames, objectPrototypeFunctions, uid. simpl.
    intros H. repeat (apply elem_of_cons in H as [H|H]; [discriminate H|]).
    by apply elem_of_nil in H.
  - destruct (fieldOfName (uid "p" r t)) as [f|] eqn:Hf; [|done].
    apply fieldOfName_Some in Hf. by destruct f.
Qed.

Lemma get_inert k st :
  inertId k → own st !! k = None → get k st = VUndefinedOrNaN.
Proof.
  intros [Hn Hf] Hk. unfold get. rewrite Hk, Hf.
  apply not_elem_of_cons in Hn as [Hp Hfun].
  rewrite decide_False by done. rewrite decide_False by done.
  by destruct (proto st).
Qed.

Lemma withOwnBucket_present k st :
  is_Some (own st !! k) → withOwnBucket k st = st.
Proof.
  intros H. destruct st as [m p s]. unfold withOwnBucket. simpl in *.
  by rewrite withBucket_id.
Qed.

Lemma creditKey_present k ws st :
  is_Some (own st !! k) →
  creditKey k ws st
  = Some (mkById (alter (stats_add (deltaOf ws)) k (own st)) (proto st)
                 (stray st)).
Proof.
  intros [b Hk]. unfold creditKey, ensure.
  rewrite (get_own k st b Hk). simpl. destruct st. apply bumpAll_bucket.
Qed.

Lemma creditKey_inert_absent k ws st :
  inertId k → own st !! k = None →
  creditKey k ws st
  = Some (mkById (alter (stats_add (deltaOf ws)) k
                    (<[k := emptyStats]> (own st)))
                 (proto st) (stray st)).
Proof.
  intros Hi Hk. unfold creditKey, ensure.
  rewrite (get_inert k st Hi Hk). simpl. unfold setFresh.
  destruct Hi as [[Hp _]%not_elem_of_cons _]. rewrite decide_False by done.
  unfold get. simpl. rewrite lookup_insert_eq. apply bumpAll_bucket.
Qed.

Lemma get_withOwnBucket_ne k k' st :
  k ≠ k' → get k' (withOwnBucket k st) = get k' st.
Proof.
  intros Hne. unfold get, withOwnBucket. simpl.
  rewrite lookup_withBucket, decide_False by done. done.
Qed.

Lemma withBucket_alter_ne (f : PlayerStats → PlayerStats) k k'
    (m : StatsById) :
  k ≠ k' → withBucket k (alter f k' m) = alter f k' (withBucket k m).
Proof.
  intros Hne. unfold withBucket. rewrite lookup_alter_ne by done.
  destruct (m !! k); [done|]. apply map_eq. intros q.
  destruct (decide (q = k)) as [->|Hq].
  - by rewrite lookup_insert_eq, lookup_alter_ne, lookup_insert_eq.
  - rewrite lookup_insert_ne by done.
    destruct (decide (q = k')) as [->|Hq'].
    + by rewrite !lookup_alter_eq, lookup_insert_ne.
    + by rewrite !lookup_alter_ne, lookup_insert_ne.
Qed.

Lemma withBucket_insert_ne k k' b (m : StatsById) :
  k ≠ k' → withBucket k (<[k' := b]> m) = <[k' := b]> (withBucket k m).
Proof.
  intros Hne. unfold withBucket. rewrite lookup_insert_ne by done.
  destruct (m !! k); [done|]. by apply insert_insert_ne.
Qed.

Lemma bumpAll_withOwnBucket k ws v st :
  v ≠ VBucket k →
  bumpAll ws v (withOwnBucket k st) = withOwnBucket k <$> bumpAll ws v st.
Proof.
  intros Hv. destruct st as [m p s]. unfold withOwnBucket at 1. simpl.
  destruct v as [|n|k'| | |k'].
  - rewrite !bumpAll_undefined. by destruct ws.
  - rewrite !bumpAll_number. by destruct ws.
  - rewrite !bumpAll_bucket. simpl. unfold withOwnBucket. simpl.
    rewrite withBucket_alter_ne; [done|congruence].
  - by rewrite !bumpAll_installed.
  - by rewrite !bumpAll_object_prototype.
  - by rewrite !bumpAll_function.
Qed.

(** A zero bucket for an inert key commutes with every credit. *)
Lemma creditKey_withOwnBucket k k' ws st :
  inertId k →
  creditKey k' ws (withOwnBucket k st) = withOwnBucket k <$> creditKey k' ws st.
Proof.
  intros Hi. destruct (decide (k' = k)) as [->|Hne].
  - destruct (own st !! k) as [b|] eqn:Hk.
    + rewrite withOwnBucket_present by done.
      rewrite creditKey_present by done. simpl.
      rewrite withOwnBucket_present; [done|]. simpl.
      rewrite lookup_alter_eq, Hk. simpl. by eexists.
    + rewrite (creditKey_inert_absent k ws st) by done.
      rewrite (creditKey_present k ws (withOwnBucket k st)).
      2:{ simpl. unfold withBucket. rewrite Hk, lookup_insert_eq. by eexists. }
      simpl. f_equal. unfold withOwnBucket, withBucket. simpl.
      by rewrite Hk, lookup_alter_eq, lookup_insert_eq.
  - unfold creditKey at 1. unfold ensure.
    rewrite get_withOwnBucket_ne by done.
    unfold creditKey, ensure.
    destruct (isTruthy (get k' st)) eqn:Ht.
    + apply bumpAll_withOwnBucket. unfold get. repeat case_match; congruence.
    + assert (k' ≠ "__proto__") as Hp.
      { intros ->. unfold get in Ht. repeat case_match; done. }
      assert (setFresh k' (withOwnBucket k st)
              = withOwnBucket k (setFresh k' st)) as ->.
      { unfold setFresh. rewrite !decide_False by done.
        unfold withOwnBucket. simpl. by rewrite withBucket_insert_ne. }
      rewrite get_withOwnBucket_ne by done.
      apply bumpAll_withOwnBucket.
      unfold setFresh. rewrite decide_False by done.
      unfold get. simpl. rewrite lookup_insert_eq. congruence.
Qed.

Lemma creditAll_withOwnBucket k cs st :
  inertId k →
  creditAll cs (withOwnBucket k st) = withOwnBucket k <$> creditAll cs st.
Proof.
  intros Hi. revert st. induction cs as [|[k' ws] cs IH]; intros st; [done|].
  simpl. rewrite creditKey_withOwnBucket by done.
  destruct (creditKey k' ws st) as [st1|]; simpl; [apply IH|done].
Qed.

Lemma forEvents_withOwnBucket k evs st :
  inertId k →
  forEvents (withOwnBucket k st) evs = withOwnBucket k <$> forEvents st evs.
Proof. intros Hi. rewrite !forEvents_credits. by apply creditAll_withOwnBucket. Qed.

(** Seeding one more player with an inert id adds its zero bucket. *)
Lemma seed_snoc_inert roster p :
  inertId (pl_id p) →
  seed (roster ++ [p]) = withOwnBucket (pl_id p) (seed roster).
Proof.
  intros [[Hp _]%not_elem_of_cons _]. rewrite seed_snoc.
  unfold setFresh, withOwnBucket. rewrite decide_False by done.
  f_equal. unfold withBucket.
  destruct (own (seed roster) !! pl_id p) as [b|] eqn:Hb; [|done].
  pose proof Hb as Hb'. rewrite lookup_own_seed in Hb'.
  case_decide; [|done]. injection Hb' as <-. by apply insert_id.
Qed.

Lemma computeStats_snoc_player roster p events :
  inertId (pl_id p) →
  computeStats (roster ++ [p]) events
  = withOwnBucket (pl_id p) <$> computeStats roster events.
Proof.
  intros Hi. unfold computeStats.
  by rewrite seed_snoc_inert, forEvents_withOwnBucket.
Qed.

(** *** The result on a roster without ["__proto__"] *)

(** On the keys that are not reserved, the run and the table agree. *)
Lemma creditsPlain_agree cs m mt s :
  (∀ q, ¬ reserved q m → m !! q = mt !! q) →
  ∀ q, ¬ reserved q m → (creditsPlain cs (m, s)).1 !! q = creditsTable cs mt !! q.
Proof.
  revert m mt s. induction cs as [|[k ws] cs IH]; intros m mt s Hagree q Hq.
  { by apply Hagree. }
  unfold creditsPlain, creditsTable in *. cbn [foldl].
  destruct (creditPlain k ws (m, s)) as [m' s'] eqn:Hstep.
  assert (∀ q, reserved q m' ↔ reserved q m) as Hres.
  { intros q'. pose proof (reserved_creditPlain q' k ws (m, s)) as H.
    by rewrite Hstep in H. }
  apply IH; [|by rewrite Hres].
  intros q' Hq'. rewrite Hres in Hq'. rewrite lookup_credit.
  unfold creditPlain in Hstep. simpl in Hstep.
  case_decide as Hk; injection Hstep as <- <-.
  - rewrite decide_False by (by intros ->). by apply Hagree.
  - rewrite lookup_credit. case_decide as Hqk; [|by apply Hagree].
    subst q'. unfold statsOf. by rewrite (Hagree k).
Qed.

Lemma computeStats_plain_inv roster events byId :
  noProtoId roster → computeStats roster events = Some byId →
  plain roster byId.
Proof.
  intros Hn H. destruct (computeStats_plain roster events Hn) as (st & H' & Hst).
  congruence.
Qed.

Lemma ordinary_zeroBuckets roster q :
  reserved q (zeroBuckets roster) ↔ ¬ ordinaryFor roster q.
Proof.
  unfold reserved, ordinaryFor. rewrite lookup_zeroBuckets.
  case_decide as Hq; split; try tauto.
  - by intros [_ ?].
  - intros H. split; [|done].
    destruct (decide (q ∈ objectPrototypeNames)); tauto.
Qed.

(** The buckets of the result: an ordinary id has the bucket of the table,
    another id has none. *)
Lemma lookup_computeStats roster events byId q :
  noProtoId roster → computeStats roster events = Some byId →
  own byId !! q
  = if decide (ordinaryFor roster q) then aggregate roster events !! q
    else None.
Proof.
  intros Hn. rewrite computeStats_plain_form by done. intros [= <-]. simpl.
  case_decide as Hq.
  - unfold aggregate. rewrite foldl_applyTable_credits.
    apply creditsPlain_agree; [done|]. rewrite ordinary_zeroBuckets. tauto.
  - assert (reserved q
              (creditsPlain (events ≫= creditsOf) (zeroBuckets roster, ∅)).1)
      as [_ H]; [|done].
    apply reserved_creditsPlain. by apply ordinary_zeroBuckets.
Qed.

Lemma statsOf_computeStats roster events byId q :
  noProtoId roster → computeStats roster events = Some byId →
  ordinaryFor roster q →
  statsOf (own byId) q = sumStats (deltaFor q <$> events).
Proof.
  intros Hn H Hq. rewrite <-(statsOf_aggregate roster). unfold statsOf.
  by rewrite (lookup_computeStats roster events byId q), decide_True.
Qed.

Lemma computeStats_is_Some roster events :
  noProtoId roster → is_Some (computeStats roster events).
Proof.
  intros Hn. destruct (computeStats_plain roster events Hn) as (st & H & _).
  by exists st.
Qed.

(** One more event whose ids are ordinary. *)
Lemma computeStats_snoc_safe roster events e byId :
  noProtoId roster → computeStats roster events = Some byId →
  (∀ k, k ∈ referenced e → ordinaryFor roster k) →
  computeStats roster (events ++ [e])
  = Some (mkById (applyTable (own byId) e) None (stray byId)).
Proof.
  intros Hn H Hs. rewrite computeStats_snoc, H. simpl.
  apply (applyEvent_plain_safe roster); [|done].
  by apply (computeStats_plain_inv roster events).
Qed.

(** [ensure] on a key without bucket that is not reserved makes the zero
    bucket. *)
Lemma ensure_plain_fresh roster byId q :
  plain roster byId → ordinaryFor roster q → own byId !! q = None →
  ensure q byId
  = (mkById (<[q := emptyStats]> (own byId)) (proto byId) (stray byId),
     VBucket q).
Proof.
  intros Hst Hq Hnone.
  pose proof (ordinary_not_reserved roster byId q Hst Hq) as Hr.
  destruct Hst as (Hp & Hproto & _).
  destruct (ensure_cases q byId)
    as [[[b Hb] _]|[(_ & Ht & _)|(_ & _ & _ & ->)]]; [congruence| |done].
  exfalso. unfold get in Ht. rewrite Hnone, Hp in Ht.
  unfold reserved in Hr. rewrite not_and_l in Hr. destruct Hr as [Hr|Hr]; [|done].
  apply not_elem_of_cons in Hr as [Hne Hfun].
  by rewrite !decide_False in Ht by done.
Qed.

(** An event with an unknown tag on a plain state: a zero bucket for its
    player, unless the id is reserved. *)
Lemma applyEvent_unknown_tag roster byId e :
  plain roster byId → switchCase (ev_type e) = None →
  applyEvent byId e
  = Some (if decide (reserved (playerId e) (own byId)) then byId
          else withOwnBucket (playerId e) byId).
Proof.
  intros (Hp & Hproto & _) Hty. destruct byId as [m p s]. simpl in *. subst p.
  rewrite applyEvent_credits, creditAll_plain by done.
  unfold creditsOf. rewrite Hty. simpl.
  unfold creditsPlain, creditPlain. simpl.
  case_decide; simpl.
  - do 2 f_equal. unfold strayOf. simpl. set_solver.
  - unfold withOwnBucket. simpl. by rewrite credit_empty.
Qed.

Lemma safeLogCheck_safeLog roster events :
  safeLogCheck roster events → safeLog roster events.
Proof.
  intros Hc e k He Hk. unfold safeLogCheck in Hc.
  rewrite Forall_forall in Hc. specialize (Hc e He).
  rewrite Forall_forall in Hc. apply Hc. by apply elem_of_creditsOf.
Qed.

Ltac by_check := apply (bool_decide_unpack _); vm_compute; exact I.
Ltac safe_log := apply safeLogCheck_safeLog; by_check.

(** *** The installed prototype *)

Lemma creditKey_proto k ws st st' :
  creditKey k ws st = Some st' →
  proto st' = proto st ∨ proto st' = stats_add (deltaOf ws) <$> proto st.
Proof.
  unfold creditKey.
  destruct (ensure_cases k st) as [[Hk ->]|[(Hk & Ht & ->)|(Hk & Hp & Ht & ->)]].
  - destruct st as [m p s]. rewrite bumpAll_bucket. intros [= <-]. by left.
  - destruct st as [m p s]. simpl in *.
    destruct (get k (mkById m p s)) eqn:Hv; simpl in Ht; try done.
    + rewrite bumpAll_number. destruct ws; [|done]. intros [= <-]. by left.
    + by apply get_not_own in Hv.
    + rewrite bumpAll_installed. intros [= <-]. by right.
    + rewrite bumpAll_object_prototype. intros [= <-]. by left.
    + rewrite bumpAll_function. intros [= <-]. by left.
  - rewrite bumpAll_bucket. intros [= <-]. by left.
Qed.

Lemma creditAll_invariant_proto (P : PlayerStats → Prop) cs st st' :
  (∀ k ws b, (k, ws) ∈ cs → P b → P (stats_add (deltaOf ws) b)) →
  (∀ b, proto st = Some b → P b) →
  creditAll cs st = Some st' → ∀ b, proto st' = Some b → P b.
Proof.
  revert st. induction cs as [|[k ws] cs IH]; intros st Hd Hm; simpl.
  - by intros [= <-].
  - destruct (creditKey k ws st) as [st1|] eqn:H1; simpl; [|done].
    apply IH.
    + intros k' ws' b Hin. apply (Hd k'). by right.
    + intros b Hb. destruct (creditKey_proto _ _ _ _ H1) as [Hp|Hp].
      * apply Hm. by rewrite <-Hp.
      * rewrite Hp in Hb. destruct (proto st) as [b0|]; [|done].
        injection Hb as <-. apply (Hd k); [left|by apply Hm].
Qed.

Lemma computeStats_invariant_proto (P : PlayerStats → Prop)
    roster events byId :
  P emptyStats →
  (∀ e k ws b, e ∈ events → (k, ws) ∈ creditsOf e →
               P b → P (stats_add (deltaOf ws) b)) →
  computeStats roster events = Some byId →
  ∀ b, proto byId = Some b → P b.
Proof.
  intros H0 Hd. unfold computeStats. rewrite forEvents_credits.
  apply creditAll_invariant_proto.
  - intros k ws b (e & Hin & He)%list_elem_of_bind. by apply (Hd e k).
  - intros b. rewrite seed_spec. simpl. case_decide; [|done].
    by intros [= <-].
Qed.

(** ** Documents *)

Lemma arrayOrEmpty_array items : arrayOrEmpty (Some (JArr items)) = items.
Proof. done. Qed.

Lemma arrayOrEmpty_other v : isArray v = false → arrayOrEmpty v = [].
Proof. by destruct v as [[]|]. Qed.

Lemma js_or_falsy v d : js_truthy v = false → js_or v d = d.
Proof. unfold js_or. destruct v as [x|]; [|done]. by intros ->. Qed.

Lemma js_or_truthy x d : js_truthy (Some x) = true → js_or (Some x) d = x.
Proof. unfold js_or. by intros ->. Qed.

Lemma getProp_not_null k v : v ≠ JNull → getProp k v = Some (prop k v).
Proof. by destruct v. Qed.

Lemma normalize_null : normalize JNull = None.
Proof. done. Qed.

Lemma normalize_not_null parsed :
  parsed ≠ JNull →
  normalize parsed
  = Some {| ls_players := arrayOrEmpty (prop "players" parsed);
            ls_games := match prop "games" parsed with
                        | Some (JArr items) => normalizeGame <$> items
                        | _ => []
                        end;
            ls_ui := js_nullish (prop "ui" parsed) (JObj []) |}.
Proof. intros Hn. unfold normalize. by rewrite !getProp_not_null. Qed.

Lemma normalize_is_Some parsed : is_Some (normalize parsed) ↔ parsed ≠ JNull.
Proof.
  split.
  - intros [st Hst] ->. by rewrite normalize_null in Hst.
  - intros Hn. rewrite normalize_not_null by done. eauto.
Qed.

Lemma ruleSetOfTag_truthy v rs : ruleSetOfTag v = Some rs → js_truthy v = true.
Proof.
  destruct v as [[| | |s| |]|]; try done.
  destruct rs; intros H; destruct (decide (s = "")) as [->|Hne];
    try done; simpl; by destruct s.
Qed.

(** * Theorems *)

(** C1, as stated, fails.  An id that is a member name of
    [Object.prototype] and is not in the roster gets no bucket: the 6
    points of [RUSH_TD(player="constructor")] are in no bucket of the
    result.  On a roster with the id ["__proto__"] the counters of that
    player are read as keys, and a touchdown of a player whose id is
    ["points"] throws a [TypeError]: there is no result.  And a PASS_TD whose [receiverId] is the empty string credits no
    receiver, so only 6 of its 12 declared points are counted. *)
Lemma C1_counterexample :
  (∃ byId, computeStats [] [ev "RUSH_TD" "constructor" None] = Some byId
           ∧ own byId = ∅ ∧ proto byId = None
           ∧ totalPoints (own byId) = 0
           ∧ sum_list (declaredPoints <$> [ev "RUSH_TD" "constructor" None])
             = 6)
  ∧ computeStats [mkPlayer "__proto__" "P" None None]
                  [ev "RUSH_TD" "__proto__" None; ev "RUSH_TD" "points" None]
    = None
  ∧ (∃ byId, computeStats [] [ev "PASS_TD" "A" (Some "")] = Some byId
             ∧ totalPoints (own byId) = 6
             ∧ sum_list (declaredPoints <$> [ev "PASS_TD" "A" (Some "")])
               = 12
             ∧ sum_list (pointsCredited "" <$> [ev "PASS_TD" "A" (Some "")])
               = 6
             ∧ own byId !! "" = None).
Proof.
  split_and!; [|vm_compute; reflexivity|];
    eexists; (split; [vm_compute; reflexivity|]);
    split_and!; vm_compute; reflexivity.
Qed.

(** C1, amended.  For every roster without the id ["__proto__"] and every
    event list in which every credited id is an id of the roster or is no
    member name of [Object.prototype], and in which no PASS_TD has the
    empty string as [receiverId], [computeStats] returns a mapping in which
    the [points] of each bucket is the sum, over the log, of the points
    each event credits to that player (6 per PASS_TD as passer, 6 per
    PASS_TD as receiver, 6 per RUSH_TD, REC_TD and DEF_TD, 1 per XP_1, 2 per
    XP_2 and PAT_RET_2), and the total of [points] over all buckets is the
    sum of the declared point contributions of the events. *)
Theorem C1_points_are_sum_of_contributions roster events :
  noProtoId roster → safeLog roster events →
  (∀ e, e ∈ events → ev_type e = "PASS_TD" → receiverId e ≠ Some "") →
  ∃ byId, computeStats roster events = Some byId
    ∧ (∀ q st, own byId !! q = Some st →
               points st = sum_list (pointsCredited q <$> events))
    ∧ totalPoints (own byId) = sum_list (declaredPoints <$> events).
Proof.
  intros Hn Hs Hne. rewrite computeStats_refines by done.
  eexists. split; [done|]. simpl. split.
  - intros q st Hq.
    assert (st = statsOf (aggregate roster events) q) as ->
      by (unfold statsOf; by rewrite Hq).
    rewrite statsOf_aggregate, points_sumStats, <-list_fmap_compose.
    f_equal. apply list_fmap_ext. intros i e He. apply points_deltaFor.
    apply Hne. by apply list_elem_of_lookup_2 in He.
  - unfold aggregate. by rewrite totalPoints_foldl, totalPoints_zeroBuckets.
Qed.

Lemma C1_points_are_sum_of_contributions_witness :
  ∃ byId,
    computeStats [mkPlayer "A" "Ann" None None]
                 [ev "PASS_TD" "A" (Some "B"); ev "XP_2" "A" None] = Some byId
    ∧ (∀ q st, own byId !! q = Some st →
         points st
         = sum_list (pointsCredited q
                       <$> [ev "PASS_TD" "A" (Some "B"); ev "XP_2" "A" None]))
    ∧ totalPoints (own byId) = 14.
Proof.
  apply (C1_points_are_sum_of_contributions
           [mkPlayer "A" "Ann" None None]
           [ev "PASS_TD" "A" (Some "B"); ev "XP_2" "A" None]).
  - by_check.
  - safe_log.
  - intros e He _. apply (bool_decide_unpack _).
    revert e He. apply Forall_forall. by_check.
Defined.

(** C2, as stated, fails: after [PASS_TD(A, B); XP_2(A)] the bucket of A
    also has [xp2 = 1] (the conversion counter), so it is not the record
    with only [passAtt], [passComp], [passTD] and [points] set.  And the
    ids matter: a player whose id is a member name of [Object.prototype]
    gets no bucket, and on a roster with the id ["__proto__"] the scenario
    with that passer and the receiver ["passAtt"] throws a [TypeError]. *)
Lemma C2_counterexample :
  (∃ byId,
     computeStats [] [ev "PASS_TD" "A" (Some "B"); ev "XP_2" "A" None]
     = Some byId
     ∧ own byId !! "A" = Some (mkStats 1 1 1 0 0 0 0 0 0 0 0 0 0 1 0 8)
     ∧ own byId !! "A" ≠ Some (mkStats 1 1 1 0 0 0 0 0 0 0 0 0 0 0 0 8))
  ∧ (∃ byId,
     computeStats [] [ev "PASS_TD" "constructor" (Some "B");
                      ev "XP_2" "constructor" None] = Some byId
     ∧ own byId !! "constructor" = None)
  ∧ (∃ byId,
     computeStats [] [ev "PASS_TD" "A" (Some "toString");
                      ev "XP_2" "A" None] = Some byId
     ∧ own byId !! "toString" = None)
  ∧ computeStats [mkPlayer "__proto__" "P" None None]
      [ev "PASS_TD" "__proto__" (Some "passAtt"); ev "XP_2" "__proto__" None]
    = None.
Proof.
  split_and!; [..|vm_compute; reflexivity];
    eexists; (split; [vm_compute; reflexivity|]);
    split_and?; vm_compute; congruence.
Qed.

(** C2, amended.  On a roster without the id ["__proto__"], for distinct
    ids A and B, B non-empty, each an id of the roster or no member name of
    [Object.prototype], the log [PASS_TD(player=A, receiver=B); XP_2(A)]
    gives A exactly passAtt 1, passComp 1, passTD 1, xp2 1, points 8 and
    gives B exactly rec 1, recTD 1, points 6; and a PASS_COMP or PASS_TD
    event whose [receiverId] is absent (missing or empty), aggregated after
    any log, raises no error, changes the bucket of its primary actor (an
    id as above) by the primary delta, and changes no other bucket. *)
Theorem C2_pass_td_then_conversion :
  (∀ roster A B e1 e2,
     noProtoId roster → ordinaryFor roster A → ordinaryFor roster B →
     A ≠ B → B ≠ "" →
     ev_type e1 = "PASS_TD" → playerId e1 = A → receiverId e1 = Some B →
     ev_type e2 = "XP_2" → playerId e2 = A →
     ∃ byId, computeStats roster [e1; e2] = Some byId
       ∧ own byId !! A = Some (mkStats 1 1 1 0 0 0 0 0 0 0 0 0 0 1 0 8)
       ∧ own byId !! B = Some (mkStats 0 0 0 0 0 0 1 1 0 0 0 0 0 0 0 6))
  ∧ (∀ roster events byId e ty,
     noProtoId roster → computeStats roster events = Some byId →
     ordinaryFor roster (playerId e) →
     ev_type e = tagOf ty → ty = PASS_COMP ∨ ty = PASS_TD →
     receiverId e = None ∨ receiverId e = Some "" →
     ∃ byId', computeStats roster (events ++ [e]) = Some byId'
       ∧ own byId' !! playerId e
         = Some (stats_add (primaryDelta ty) (statsOf (own byId) (playerId e)))
       ∧ ∀ q, q ≠ playerId e → own byId' !! q = own byId !! q).
Proof.
  split.
  - intros roster A B e1 e2 Hn HA HB HAB HBne Ht1 Hp1 Hr1 Ht2 Hp2.
    assert (creditedReceiver e1
            = Some (B, mkStats 0 0 0 0 0 0 1 1 0 0 0 0 0 0 0 6)) as Hc1.
    { apply (creditedReceiver_present e1 PASS_TD); by rewrite ?Ht1. }
    assert (creditedReceiver e2 = None) as Hc2.
    { apply (creditedReceiver_no_column e2 XP_2); by rewrite ?Ht2. }
    assert (primaryOf e1 = primaryDelta PASS_TD) as Hd1
      by (apply primaryOf_known; by rewrite Ht1).
    assert (primaryOf e2 = primaryDelta XP_2) as Hd2
      by (apply primaryOf_known; by rewrite Ht2).
    destruct (computeStats_is_Some roster [e1; e2] Hn) as [byId Hby].
    exists byId. split; [done|].
    rewrite !(lookup_computeStats roster [e1; e2] byId) by done.
    rewrite !decide_True by done.
    rewrite !lookup_aggregate. unfold bucketIds.
    rewrite !decide_True.
    + unfold deltaFor. simpl. rewrite Hc1, Hc2, Hd1, Hd2, Hp1, Hp2.
      repeat case_decide; try congruence. done.
    + simpl. rewrite !elem_of_union, !elem_of_referenced. rewrite Hc1. eauto 8.
    + simpl. rewrite !elem_of_union, !elem_of_referenced. eauto.
  - intros roster events byId e ty Hn Hby Hord Hty _ Habs.
    apply truthy_None, creditedReceiver_absent in Habs.
    rewrite (computeStats_snoc_safe roster events e byId); try done.
    2:{ intros k [->|[d Hd]]%elem_of_referenced; [done|congruence]. }
    eexists. split; [done|]. simpl.
    rewrite lookup_applyTable_primary_only by done.
    rewrite (primaryOf_known e ty) by (rewrite Hty; apply switchCase_tagOf).
    split.
    + by rewrite lookup_credit, decide_True.
    + intros q Hq. by rewrite lookup_credit, decide_False.
Qed.

Lemma C2_pass_td_then_conversion_witness :
  (∃ byId,
     computeStats [] [ev "PASS_TD" "A" (Some "B"); ev "XP_2" "A" None]
     = Some byId
     ∧ own byId !! "A" = Some (mkStats 1 1 1 0 0 0 0 0 0 0 0 0 0 1 0 8)
     ∧ own byId !! "B" = Some (mkStats 0 0 0 0 0 0 1 1 0 0 0 0 0 0 0 6))
  ∧ (∃ byId',
     computeStats [] ([ev "RUSH_ATT" "A" None] ++ [ev "PASS_TD" "A" None])
     = Some byId'
     ∧ own byId' !! "A" = Some (mkStats 1 1 1 0 1 0 0 0 0 0 0 0 0 0 0 6)
     ∧ ∀ q, q ≠ "A" → own byId' !! q = None).
Proof.
  destruct C2_pass_td_then_conversion as [H1 H2]. split.
  - apply (H1 [] "A" "B"); try done; by_check.
  - destruct (H2 [] [ev "RUSH_ATT" "A" None]
              (mkById {["A" := mkStats 0 0 0 0 1 0 0 0 0 0 0 0 0 0 0 0]} None ∅)
              (ev "PASS_TD" "A" None) PASS_TD)
      as (byId' & Hc & HA & Hq);
      [by_check|vm_compute; reflexivity|by_check|done|by right|by left|].
    exists byId'. split; [exact Hc|]. split; [exact HA|].
    intros q Hne. rewrite (Hq q Hne). simpl. by apply lookup_singleton_ne.
Defined.

(** C3 fails on the code.  On a roster with the id ["__proto__"] the
    bucket of that player is installed as the prototype of the result, so
    its counters are read as keys: after [RUSH_ATT(player="__proto__")] the
    read [byId["rushAtt"]] is the number 1, and the write through it in
    [RUSH_ATT(player="rushAtt")] throws a [TypeError]; in the other order
    the read is 0, which is falsy, a bucket is made and nothing throws.
    Two logs that are permutations of each other give a failure and a
    mapping. *)
Theorem C3_order_dependent_with_proto_id :
  [ev "RUSH_ATT" "__proto__" None; ev "RUSH_ATT" "rushAtt" None]
  ≡ₚ [ev "RUSH_ATT" "rushAtt" None; ev "RUSH_ATT" "__proto__" None]
  ∧ computeStats [mkPlayer "__proto__" "P" None None]
      [ev "RUSH_ATT" "__proto__" None; ev "RUSH_ATT" "rushAtt" None]
    = None
  ∧ computeStats [mkPlayer "__proto__" "P" None None]
      [ev "RUSH_ATT" "rushAtt" None; ev "RUSH_ATT" "__proto__" None]
    = Some (mkById {["rushAtt" := mkStats 0 0 0 0 1 0 0 0 0 0 0 0 0 0 0 0]}
                   (Some (mkStats 0 0 0 0 1 0 0 0 0 0 0 0 0 0 0 0)) ∅).
Proof.
  split_and!; [apply perm_swap|vm_compute; reflexivity..].
Qed.

(** C4, as stated, fails.  A dangling id that is a member name of
    [Object.prototype] gets no bucket: [ensure] finds the inherited member
    and returns it.  On a roster with the id ["__proto__"] a dangling id
    that is the name of a counter makes [computeStats] throw.  And a
    [receiverId] gets a bucket only when the event is a PASS_COMP or a
    PASS_TD and the id is not the empty string. *)
Lemma C4_counterexample :
  (∃ byId, computeStats [] [ev "RUSH_ATT" "constructor" None] = Some byId
           ∧ own byId !! "constructor" = None)
  ∧ computeStats [mkPlayer "__proto__" "P" None None]
      [ev "RUSH_ATT" "__proto__" None; ev "RUSH_ATT" "rushAtt" None]
    = None
  ∧ (∃ byId, computeStats [] [ev "RUSH_ATT" "A" (Some "B")] = Some byId
             ∧ own byId !! "B" = None)
  ∧ (∃ byId, computeStats [] [ev "PASS_COMP" "A" (Some "")] = Some byId
             ∧ own byId !! "" = None).
Proof.
  split_and!; try (vm_compute; reflexivity);
    eexists; (split; vm_compute; reflexivity).
Qed.

(** C4, amended.  On a roster without the id ["__proto__"], [computeStats]
    never fails: it returns for every log.  Every id it credits that is an
    id of the roster or no member name of [Object.prototype] has a bucket
    in the result: the [playerId] of every event, and the [receiverId] of
    every PASS_COMP or PASS_TD event where it is a non-empty string.  When
    such an id has no bucket after a log, [ensure] makes the zero bucket
    for it, and an event that credits it, aggregated next, leaves it the
    bucket holding the delta of that event.  In particular the log
    [RUSH_ATT(player="ghost")] gives "ghost" the bucket with [rushAtt = 1]
    and every other counter zero. *)
Theorem C4_dangling_references :
  (∀ roster events, noProtoId roster → is_Some (computeStats roster events))
  ∧ (∀ roster events byId e,
     noProtoId roster → computeStats roster events = Some byId →
     e ∈ events → ordinaryFor roster (playerId e) →
     is_Some (own byId !! playerId e))
  ∧ (∀ roster events byId e ty rid,
     noProtoId roster → computeStats roster events = Some byId →
     e ∈ events → ev_type e = tagOf ty → ty = PASS_COMP ∨ ty = PASS_TD →
     receiverId e = Some rid → rid ≠ "" → ordinaryFor roster rid →
     is_Some (own byId !! rid))
  ∧ (∀ roster events byId e q,
     noProtoId roster → computeStats roster events = Some byId →
     own byId !! q = None → q ∈ referenced e → ordinaryFor roster q →
     own (ensure q byId).1 !! q = Some emptyStats
     ∧ ∃ byId', computeStats roster (events ++ [e]) = Some byId'
                ∧ own byId' !! q = Some (stats_add (deltaFor q e) emptyStats))
  ∧ (∀ roster e,
     noProtoId roster → ev_type e = "RUSH_ATT" → playerId e = "ghost" →
     ∃ byId, computeStats roster [e] = Some byId
             ∧ own byId !! "ghost"
               = Some (mkStats 0 0 0 0 1 0 0 0 0 0 0 0 0 0 0 0)).
Proof.
  assert (∀ roster events byId e q,
            noProtoId roster → computeStats roster events = Some byId →
            e ∈ events → q ∈ referenced e → ordinaryFor roster q →
            is_Some (own byId !! q)) as Hbucket.
  { intros roster events byId e q Hn Hby He Hq Hord.
    rewrite (lookup_computeStats roster events byId q), decide_True by done.
    apply elem_of_dom. rewrite dom_aggregate. unfold bucketIds.
    apply elem_of_union_r, elem_of_union_list.
    exists (referenced e). split; [|done]. by apply list_elem_of_fmap_2. }
  split_and!.
  - apply computeStats_is_Some.
  - intros roster events byId e Hn Hby He Hord.
    apply (Hbucket roster events byId e); try done.
    apply elem_of_referenced. by left.
  - intros roster events byId e ty rid Hn Hby He Hty Hfam Hr Hne Hord.
    apply (Hbucket roster events byId e); try done.
    apply elem_of_referenced. right.
    assert (switchCase (ev_type e) = Some ty)
      by (rewrite Hty; apply switchCase_tagOf).
    destruct Hfam as [-> | ->]; eexists;
      by eapply creditedReceiver_present.
  - intros roster events byId e q Hn Hby Hq Href Hord. split.
    + rewrite (ensure_plain_fresh roster); try done.
      * simpl. apply lookup_insert_eq.
      * by apply (computeStats_plain_inv roster events).
    + destruct (computeStats_is_Some roster (events ++ [e]) Hn) as [byId' Hby'].
      exists byId'. split; [done|].
      rewrite (lookup_computeStats roster (events ++ [e]) byId' q) by done.
      rewrite decide_True by done.
      unfold aggregate. rewrite foldl_app. cbn [foldl].
      rewrite stats_add_empty_r. apply lookup_applyTable_fresh; [|done].
      fold (aggregate roster events).
      rewrite (lookup_computeStats roster events byId q) in Hq by done.
      by rewrite decide_True in Hq.
  - intros roster e Hn Hty Hp.
    assert (creditedReceiver e = None) as Hc.
    { apply (creditedReceiver_no_column e RUSH_ATT); by rewrite ?Hty. }
    destruct (computeStats_is_Some roster [e] Hn) as [byId Hby].
    exists byId. split; [done|].
    rewrite (lookup_computeStats roster [e] byId "ghost") by done.
    rewrite decide_True by (right; by_check).
    rewrite lookup_aggregate, decide_True.
    + unfold deltaFor. simpl. rewrite Hc, Hp.
      rewrite (primaryOf_known e RUSH_ATT) by (by rewrite Hty).
      by rewrite decide_True.
    + unfold bucketIds. simpl. rewrite !elem_of_union, elem_of_referenced.
      eauto.
Qed.

Lemma C4_dangling_references_witness :
  is_Some (computeStats [] [ev "PASS_COMP" "qb" (Some "wr")])
  ∧ is_Some (own (mkById {["qb" := mkStats 1 1 0 0 0 0 0 0 0 0 0 0 0 0 0 0;
                           "wr" := mkStats 0 0 0 0 0 0 1 0 0 0 0 0 0 0 0 0]}
                         None ∅) !! "wr")
  ∧ (own (ensure "wr" (mkById ∅ None ∅)).1 !! "wr" = Some emptyStats
     ∧ ∃ byId',
         computeStats [] ([] ++ [ev "PASS_COMP" "qb" (Some "wr")]) = Some byId'
         ∧ own byId' !! "wr"
           = Some (stats_add
                     (deltaFor "wr" (ev "PASS_COMP" "qb" (Some "wr")))
                     emptyStats))
  ∧ ∃ byId, computeStats [] [ev "RUSH_ATT" "ghost" None] = Some byId
            ∧ own byId !! "ghost"
              = Some (mkStats 0 0 0 0 1 0 0 0 0 0 0 0 0 0 0 0).
Proof.
  destruct C4_dangling_references as (H1 & _ & H3 & H4 & H5).
  split; [|split; [|split]].
  - apply H1. by_check.
  - apply (H3 [] [ev "PASS_COMP" "qb" (Some "wr")] _
              (ev "PASS_COMP" "qb" (Some "wr")) PASS_COMP "wr");
      [by_check|vm_compute; reflexivity|apply list_elem_of_here|reflexivity
      |by left|reflexivity|done|by_check].
  - apply (H4 [] [] (mkById ∅ None ∅) (ev "PASS_COMP" "qb" (Some "wr")) "wr");
      [by_check|reflexivity|reflexivity|vm_compute; reflexivity|by_check].
  - apply (H5 [] (ev "RUSH_ATT" "ghost" None)); [by_check|reflexivity..].
Defined.

(** C5.  After [deletePlayer X] no player of the roster has id X, no event
    of any game names X as [playerId] or as [receiverId], every other
    player and event is kept, and aggregating any of the remaining events
    of a game against the new roster gives no bucket keyed by X: the
    result has no key X, and the read [byId[X]] does not find a bucket
    installed as prototype either. *)
Theorem C5_delete_player_cascades X s :
  (∀ p, p ∈ players (deletePlayer X s) ↔ p ∈ players s ∧ pl_id p ≠ X)
  ∧ (∀ g e, g ∈ games (deletePlayer X s) → e ∈ events g →
       playerId e ≠ X ∧ receiverId e ≠ Some X)
  ∧ (∀ g, g ∈ games s →
       ∃ g', g' ∈ games (deletePlayer X s) ∧ g_id g' = g_id g
             ∧ ∀ e, e ∈ events g' ↔
                    e ∈ events g ∧ playerId e ≠ X ∧ receiverId e ≠ Some X)
  ∧ (∀ g evs byId, g ∈ games (deletePlayer X s) → evs ⊆ events g →
       computeStats (players (deletePlayer X s)) evs = Some byId →
       own byId !! X = None ∧ get X byId ≠ VInstalledPrototype).
Proof.
  assert (∀ g e, g ∈ games (deletePlayer X s) → e ∈ events g →
            playerId e ≠ X ∧ receiverId e ≠ Some X) as Hev.
  { intros g e Hg He. simpl in Hg.
    apply list_elem_of_fmap in Hg as (g0 & -> & _). simpl in He.
    by apply list_elem_of_filter in He as [? _]. }
  assert (X ∉ pl_id <$> players (deletePlayer X s)) as Hroster.
  { intros (p & HpX & Hp)%list_elem_of_fmap. simpl in Hp.
    apply list_elem_of_filter in Hp as [Hne _]. by destruct Hne. }
  split; [|split; [done|split]].
  - intros p. simpl. rewrite list_elem_of_filter. naive_solver.
  - intros g Hg. eexists. split; [|split].
    + simpl. apply list_elem_of_fmap_2. exact Hg.
    + done.
    + intros e. simpl. rewrite list_elem_of_filter. naive_solver.
  - intros g evs byId Hg Hsub Hby.
    assert (own byId !! X = None) as Hown.
    { apply not_elem_of_dom. intros HX.
      apply (computeStats_dom _ _ _ Hby) in HX. revert HX. unfold bucketIds.
      rewrite elem_of_union, elem_of_list_to_set, elem_of_union_list.
      intros [Hin | (R & HR & HX)]; [done|].
      apply list_elem_of_fmap in HR as (e & -> & He).
      destruct (Hev g e Hg (Hsub e He)) as [Hp Hr].
      apply elem_of_referenced in HX as [HX | [d HX]]; [by destruct Hp|].
      unfold creditedReceiver in HX.
      destruct (switchCase (ev_type e)) as [ty|]; simpl in HX; [|done].
      destruct (receiverDelta ty); simpl in HX; [|done].
      destruct (truthy (receiverId e)) as [rid|] eqn:Ht; simplify_eq/=.
      apply truthy_Some in Ht as [Ht _]. by destruct Hr. }
    split; [done|]. unfold get. rewrite Hown.
    case_decide as HX; [|repeat case_match; done].
    subst X.
    apply (computeStats_plain_inv _ evs byId) in Hroster as (-> & _); done.
Qed.

Lemma C5_delete_player_cascades_witness :
  own (mkById {["Y" := mkStats 0 0 0 0 0 0 0 0 0 0 0 0 1 0 0 1]} None ∅) !! "X"
  = None
  ∧ get "X" (mkById {["Y" := mkStats 0 0 0 0 0 0 0 0 0 0 0 0 1 0 0 1]} None ∅)
    ≠ VInstalledPrototype.
Proof.
  destruct (C5_delete_player_cascades "X" sampleStore) as (_ & _ & _ & H).
  apply (H (mkGame "g1" "Owls" "2024-05-01" NFL_FLAG None [ev "XP_1" "Y" None])
           [ev "XP_1" "Y" None]).
  - vm_compute. apply list_elem_of_here.
  - intros e He. exact He.
  - vm_compute. reflexivity.
Defined.

(** C6, as stated, fails.  A [ruleSet] that is present but is none of the
    three tags is kept ([||] only replaces a falsy value); and [importJSON]
    has no [try]: a text that does not parse, or that parses to [null],
    makes it fail instead of producing the empty store. *)
Lemma C6_counterexample :
  ruleSetOfTag (Some (JStr "BOGUS")) = None
  ∧ lg_ruleSet (normalizeGame (JObj [("ruleSet", JStr "BOGUS")]))
    ≠ JStr "NFL_FLAG"
  ∧ ¬ is_Some (importJSON (λ _, None) "{")
  ∧ ¬ is_Some (importJSON (λ _, Some JNull) "null").
Proof.
  split; [done|]. split; [by vm_compute|].
  split; by intros [st Hst].
Qed.

(** C6, amended.  [loadStore] accepts every stored document without
    failing: when the storage cannot be read, holds no item, holds the empty
    text, a text that does not parse or the document [null], the result is
    the empty store [{players: [], games: [], ui: {}}].  For a document that
    parses to a value other than [null], [loadStore] and [importJSON] build
    the same store: [players], [games] and the [events] of a game are kept
    when they are lists and replaced by the empty list otherwise; the
    [ruleSet] of a game is replaced by NFL_FLAG when it is missing or falsy
    ([null], [false], 0, the empty string) and kept as it is otherwise, so
    a valid tag is always kept; a document with none of [players], [games]
    and [ui] gives the empty store. *)
Theorem C6_documents_are_normalised (JSON_parse : string → option json) :
  (∀ raw,
     raw = ReadThrows ∨ raw = NoItem ∨ raw = Item ""
     ∨ (∃ text, raw = Item text
                ∧ (JSON_parse text = None ∨ JSON_parse text = Some JNull)) →
     loadStore JSON_parse raw = emptyStore)
  ∧ (∀ text parsed,
     text ≠ "" → JSON_parse text = Some parsed → parsed ≠ JNull →
     ∃ st, normalize parsed = Some st
           ∧ loadStore JSON_parse (Item text) = st
           ∧ importJSON JSON_parse text = Some st)
  ∧ (∀ parsed st,
     normalize parsed = Some st →
     (∀ ps, prop "players" parsed = Some (JArr ps) → ls_players st = ps)
     ∧ (isArray (prop "players" parsed) = false → ls_players st = [])
     ∧ (∀ gs, prop "games" parsed = Some (JArr gs) →
              ls_games st = normalizeGame <$> gs)
     ∧ (isArray (prop "games" parsed) = false → ls_games st = []))
  ∧ (∀ g,
     (∀ evs, optProp "events" g = Some (JArr evs) →
             lg_events (normalizeGame g) = evs)
     ∧ (isArray (optProp "events" g) = false → lg_events (normalizeGame g) = [])
     ∧ (js_truthy (optProp "ruleSet" g) = false →
        lg_ruleSet (normalizeGame g) = JStr "NFL_FLAG")
     ∧ (∀ v, optProp "ruleSet" g = Some v → js_truthy (Some v) = true →
             lg_ruleSet (normalizeGame g) = v)
     ∧ (∀ rs, ruleSetOfTag (optProp "ruleSet" g) = Some rs →
              ruleSetOfTag (Some (lg_ruleSet (normalizeGame g))) = Some rs))
  ∧ (∀ parsed,
     parsed ≠ JNull → prop "players" parsed = None →
     prop "games" parsed = None → prop "ui" parsed = None →
     normalize parsed = Some emptyStore).
Proof.
  split; [|split; [|split; [|split]]].
  - intros raw [-> | [-> | [-> | (text & -> & Hparse)]]]; try done.
    unfold loadStore. case_decide; [done|].
    by destruct Hparse as [-> | ->].
  - intros text parsed Hne Hparse Hnull.
    eexists. split; [by apply normalize_not_null|]. split.
    + unfold loadStore. rewrite decide_False, Hparse by done.
      by rewrite normalize_not_null.
    + unfold importJSON. rewrite Hparse. simpl.
      by rewrite normalize_not_null.
  - intros parsed st Hst.
    assert (parsed ≠ JNull) as Hnull
      by (apply normalize_is_Some; by rewrite Hst).
    rewrite normalize_not_null in Hst by done. simplify_eq/=.
    split; [|split; [|split]].
    + by intros ps ->.
    + apply arrayOrEmpty_other.
    + by intros gs ->.
    + by destruct (prop "games" parsed) as [[]|].
  - intros g. unfold normalizeGame. simpl. split; [|split; [|split; [|split]]].
    + by intros evs ->.
    + apply arrayOrEmpty_other.
    + apply js_or_falsy.
    + intros v ->. apply js_or_truthy.
    + intros rs Hrs. pose proof (ruleSetOfTag_truthy _ _ Hrs) as Ht.
      destruct (optProp "ruleSet" g) as [v|] eqn:Hv; [|done].
      by rewrite js_or_truthy.
  - intros parsed Hnull Hp Hg Hu.
    rewrite normalize_not_null by done. by rewrite Hp, Hg, Hu.
Qed.

(** A stand-in for [JSON.parse] that knows two texts. *)
Lemma C6_documents_are_normalised_witness :
  loadStore (λ text, if decide (text = "null") then Some JNull else None)
            (Item "null") = emptyStore
  ∧ lg_ruleSet (normalizeGame (JObj [("opponent", JStr "Owls")]))
    = JStr "NFL_FLAG"
  ∧ normalize (JObj [("version", JNum 3)]) = Some emptyStore.
Proof.
  destruct (C6_documents_are_normalised
              (λ text, if decide (text = "null") then Some JNull else None))
    as (H1 & _ & _ & H4 & H5).
  split; [|split].
  - apply H1. right. right. right. exists "null". split; [reflexivity|].
    right. reflexivity.
  - destruct (H4 (JObj [("opponent", JStr "Owls")])) as (_ & _ & H & _).
    apply H. reflexivity.
  - apply H5; [discriminate|reflexivity..].
Defined.

(** C7, as stated, fails: the configuration of NEXT_LEVEL (and of NFL_FLAG)
    has [patReturnPoints = 0], while aggregating a PAT_RET_2 event adds 2
    points whatever the rule set.  And the id matters: the points of a
    player whose id is a member name of [Object.prototype] go to no
    bucket, and on a roster with the id ["__proto__"] a PAT return of a
    player whose id is ["points"] can throw a [TypeError]. *)
Lemma C7_counterexample :
  allowPatReturn (RULESET_CONFIG NEXT_LEVEL) = false
  ∧ patReturnPoints (RULESET_CONFIG NEXT_LEVEL) = 0
  ∧ (∃ byId, computeStats [] [ev "PAT_RET_2" "C" None] = Some byId
             ∧ points (statsOf (own byId) "C") = 2)
  ∧ (∃ byId, computeStats [] [ev "PAT_RET_2" "valueOf" None] = Some byId
             ∧ own byId = ∅
             ∧ patReturnPoints (RULESET_CONFIG FARM_LEAGUE) = 2)
  ∧ computeStats [mkPlayer "__proto__" "P" None None]
      ([ev "PAT_RET_2" "__proto__" None] ++ [ev "PAT_RET_2" "points" None])
    = None.
Proof.
  split; [done|]. split; [done|]. split; [|split].
  - eexists. split; vm_compute; reflexivity.
  - eexists. split; [vm_compute; reflexivity|]. split; vm_compute; reflexivity.
  - vm_compute. reflexivity.
Qed.

(** C7, amended.  For every rule-set variant that allows the PAT return
    ([allowPatReturn] is true, which is FARM_LEAGUE), [patReturnPoints] is
    the number of points that aggregating a PAT_RET_2 event adds to the
    points of its player, on a roster without the id ["__proto__"] and for
    a player whose id is an id of the roster or no member name of
    [Object.prototype].  That number is 2 under every variant; the
    variants that do not allow the PAT return carry
    [patReturnPoints = 0]. *)
Theorem C7_pat_return_points :
  (∀ rs roster events byId e,
     allowPatReturn (RULESET_CONFIG rs) = true →
     noProtoId roster → computeStats roster events = Some byId →
     ordinaryFor roster (playerId e) → ev_type e = "PAT_RET_2" →
     ∃ byId', computeStats roster (events ++ [e]) = Some byId'
       ∧ points (statsOf (own byId') (playerId e))
         = points (statsOf (own byId) (playerId e))
           + patReturnPoints (RULESET_CONFIG rs))
  ∧ (∀ roster events byId e,
     noProtoId roster → computeStats roster events = Some byId →
     ordinaryFor roster (playerId e) → ev_type e = "PAT_RET_2" →
     ∃ byId', computeStats roster (events ++ [e]) = Some byId'
       ∧ points (statsOf (own byId') (playerId e))
         = points (statsOf (own byId) (playerId e)) + 2)
  ∧ (∀ rs, allowPatReturn (RULESET_CONFIG rs) = false →
           patReturnPoints (RULESET_CONFIG rs) = 0).
Proof.
  assert (∀ roster events byId e,
     noProtoId roster → computeStats roster events = Some byId →
     ordinaryFor roster (playerId e) → ev_type e = "PAT_RET_2" →
     ∃ byId', computeStats roster (events ++ [e]) = Some byId'
       ∧ points (statsOf (own byId') (playerId e))
         = points (statsOf (own byId) (playerId e)) + 2) as Hadd.
  { intros roster events byId e Hn Hby Hord Hty.
    assert (creditedReceiver e = None) as Hc.
    { apply (creditedReceiver_no_column e PAT_RET_2); by rewrite ?Hty. }
    rewrite (computeStats_snoc_safe roster events e byId); try done.
    2:{ intros k [->|[d Hd]]%elem_of_referenced; [done|congruence]. }
    eexists. split; [done|]. simpl.
    rewrite statsOf_applyTable, points_stats_add.
    rewrite points_deltaFor by (by rewrite Hty).
    unfold pointsCredited. rewrite Hty.
    change (switchCase "PAT_RET_2") with (Some PAT_RET_2).
    simpl. repeat case_decide; try done; lia. }
  split; [|split; [done|]].
  - intros rs roster events byId e Hallow Hn Hby Hord Hty.
    destruct (Hadd roster events byId e) as (byId' & H1 & H2); try done.
    exists byId'. split; [done|]. rewrite H2.
    destruct rs; simpl in *; done.
  - intros []; simpl; done.
Qed.

Lemma C7_pat_return_points_witness :
  ∃ byId',
    computeStats [] ([ev "XP_1" "C" None] ++ [ev "PAT_RET_2" "C" None])
    = Some byId'
    ∧ points (statsOf (own byId') "C")
      = 1 + patReturnPoints (RULESET_CONFIG FARM_LEAGUE).
Proof.
  destruct C7_pat_return_points as (H & _ & _).
  destruct (H FARM_LEAGUE [] [ev "XP_1" "C" None]
              (mkById {["C" := mkStats 0 0 0 0 0 0 0 0 0 0 0 0 1 0 0 1]} None ∅)
              (ev "PAT_RET_2" "C" None))
    as (byId' & Hc & Hp);
    [reflexivity|by_check|vm_compute; reflexivity|by_check|reflexivity|].
  exists byId'. split; [exact Hc|exact Hp].
Defined.

(** C8 fails on the code for an id that is a member name of
    [Object.prototype]: [ensure] finds the inherited member, makes no
    bucket, and the writes of the PAT_RET_2 case land on that member.  The
    log [PAT_RET_2(player="constructor")] gives that player no statistics,
    under a rule set that allows the PAT return as under one that does
    not. *)
Theorem C8_prototype_name_gets_no_statistics :
  ∀ rs,
    computeStats []
      (events (mkGame "g" "Owls" "2024-05-01" rs None
                 [ev "PAT_RET_2" "constructor" None]))
    = Some (mkById ∅ None
              {[("constructor", "patRet2"); ("constructor", "points")]}).
Proof. intros rs. vm_compute. reflexivity. Qed.

(** C9, as stated, fails: [ensure(e.playerId)] runs before the [switch], so
    an event with an unknown tag still creates the bucket of its player; the
    result is not the mapping obtained without the event.  On a roster with
    the id ["__proto__"] such an event can even decide whether the run
    throws: the bucket it makes for the key ["rushAtt"] hides the counter
    of the prototype. *)
Lemma C9_counterexample :
  (∀ ty, ev_type (ev "FUMBLE" "A" None) ≠ tagOf ty)
  ∧ computeStats [] ([] ++ ev "FUMBLE" "A" None :: [])
    = Some (mkById {["A" := emptyStats]} None ∅)
  ∧ computeStats [] ([] ++ []) = Some (mkById ∅ None ∅)
  ∧ computeStats [mkPlayer "__proto__" "P" None None]
      ([] ++ [ev "RUSH_ATT" "__proto__" None; ev "RUSH_ATT" "rushAtt" None])
    = None
  ∧ is_Some
      (computeStats [mkPlayer "__proto__" "P" None None]
         ([] ++ ev "FUMBLE" "rushAtt" None
             :: [ev "RUSH_ATT" "__proto__" None;
                 ev "RUSH_ATT" "rushAtt" None])).
Proof.
  split_and!; try (vm_compute; reflexivity).
  - by intros [].
  - vm_compute. eauto.
Qed.

(** C9, amended.  On a roster without the id ["__proto__"], an event whose
    tag is none of the enumerated ones changes no counter: with such an
    event anywhere in the log, [computeStats] returns the result of the
    log without it, plus an all-zero bucket for the [playerId] of the
    event when that player has no bucket otherwise and the id is no member
    name of [Object.prototype].  Every player reads the same statistics in
    both (an absent bucket reads as zero), and the two results are equal
    when the player is in the roster or is credited by another event.  The
    log itself is only read by the aggregation, and loading or importing a
    game keeps its list of events as it is, whatever their tags. *)
Theorem C9_unknown_tag_changes_no_counter roster l1 l2 e :
  noProtoId roster →
  (∀ ty, ev_type e ≠ tagOf ty) →
  ∃ byId, computeStats roster (l1 ++ l2) = Some byId
    ∧ computeStats roster (l1 ++ e :: l2)
      = Some (if decide (reserved (playerId e) (own byId)) then byId
              else withOwnBucket (playerId e) byId)
    ∧ (∀ byId', computeStats roster (l1 ++ e :: l2) = Some byId' →
         ∀ q, statsOf (own byId') q = statsOf (own byId) q)
    ∧ (playerId e ∈ bucketIds roster (l1 ++ l2) →
       computeStats roster (l1 ++ e :: l2) = computeStats roster (l1 ++ l2))
    ∧ (∀ g evs, optProp "events" g = Some (JArr evs) →
                lg_events (normalizeGame g) = evs).
Proof.
  intros Hn Hty. apply switchCase_None in Hty.
  destruct (computeStats_plain roster (l1 ++ l2) Hn) as (byId & Hby & Hplain).
  assert (computeStats roster (l1 ++ e :: l2)
          = Some (if decide (reserved (playerId e) (own byId)) then byId
                  else withOwnBucket (playerId e) byId)) as Heq.
  { rewrite computeStats_middle, Hby by done. simpl.
    by apply (applyEvent_unknown_tag roster). }
  exists byId. split_and!; try done.
  - intros byId' Hby' q. rewrite Heq in Hby'. injection Hby' as <-.
    case_decide; [done|]. unfold withOwnBucket, statsOf. simpl.
    rewrite lookup_withBucket. case_decide; by simplify_eq/=.
  - intros Hin. rewrite Heq, Hby. f_equal. case_decide as Hr; [done|].
    apply withOwnBucket_present.
    destruct (decide (ordinaryFor roster (playerId e))) as [Hord|Hord].
    + pose proof (lookup_computeStats roster (l1 ++ l2) byId (playerId e)
                    Hn Hby) as Hl.
      rewrite decide_True in Hl by done. rewrite Hl.
      apply elem_of_dom. by rewrite dom_aggregate.
    + exfalso. apply Hr.
      pose proof (lookup_computeStats roster (l1 ++ l2) byId (playerId e)
                    Hn Hby) as Hl.
      rewrite decide_False in Hl by done. split; [|done].
      unfold ordinaryFor in Hord.
      destruct (decide (playerId e ∈ objectPrototypeNames)); tauto.
  - intros g evs Hevs. unfold normalizeGame. simpl. by rewrite Hevs.
Qed.

Lemma C9_unknown_tag_changes_no_counter_witness :
  ∃ byId,
    computeStats [] ([ev "XP_1" "A" None] ++ []) = Some byId
    ∧ computeStats [] ([ev "XP_1" "A" None] ++ ev "FUMBLE" "B" None :: [])
      = Some (if decide (reserved "B" (own byId)) then byId
              else withOwnBucket "B" byId)
    ∧ (∀ byId',
         computeStats [] ([ev "XP_1" "A" None] ++ ev "FUMBLE" "B" None :: [])
         = Some byId' →
         ∀ q, statsOf (own byId') q = statsOf (own byId) q)
    ∧ ("B" ∈ bucketIds [] ([ev "XP_1" "A" None] ++ []) →
       computeStats [] ([ev "XP_1" "A" None] ++ ev "FUMBLE" "B" None :: [])
       = computeStats [] ([ev "XP_1" "A" None] ++ []))
    ∧ (∀ g evs, optProp "events" g = Some (JArr evs) →
                lg_events (normalizeGame g) = evs).
Proof.
  apply (C9_unknown_tag_changes_no_counter
           [] [ev "XP_1" "A" None] [] (ev "FUMBLE" "B" None)).
  - by_check.
  - by intros [].
Defined.

(** C10, as stated, fails for the empty id: [if (e.receiverId)] treats the
    empty string as absent, so a PASS_TD whose [playerId] and [receiverId]
    are both the empty string credits the passer only (6 points, no
    reception).  It fails too for an id that is a member name of
    [Object.prototype], which gets no bucket at all, and on a roster with
    the id ["__proto__"], where a self-targeted pass of a player whose id
    is ["passAtt"] can throw a [TypeError]. *)
Lemma C10_counterexample :
  receiverId (ev "PASS_TD" "" (Some ""))
  = Some (playerId (ev "PASS_TD" "" (Some "")))
  ∧ (∃ byId, computeStats [] [ev "PASS_TD" "" (Some "")] = Some byId
       ∧ own byId !! "" = Some (mkStats 1 1 1 0 0 0 0 0 0 0 0 0 0 0 0 6)
       ∧ own byId !! "" ≠ Some (mkStats 1 1 1 0 0 0 1 1 0 0 0 0 0 0 0 12))
  ∧ (∃ byId,
       computeStats [] [ev "PASS_TD" "hasOwnProperty" (Some "hasOwnProperty")]
       = Some byId
       ∧ own byId !! "hasOwnProperty" = None)
  ∧ computeStats [mkPlayer "__proto__" "P" None None]
      ([ev "PASS_TD" "__proto__" None]
         ++ [ev "PASS_TD" "passAtt" (Some "passAtt")])
    = None.
Proof.
  split_and!; [done|..|vm_compute; reflexivity];
    eexists; (split; [vm_compute; reflexivity|]);
    split_and?; vm_compute; congruence.
Qed.

(** C10, amended.  On a roster without the id ["__proto__"], when a
    PASS_COMP or PASS_TD event has a non-empty [receiverId] equal to its
    [playerId], an id of the roster or no member name of
    [Object.prototype], the primary and the secondary effect both land in
    the one bucket of that player and no other bucket changes: a
    self-targeted PASS_COMP adds passAtt 1, passComp 1 and rec 1; a
    self-targeted PASS_TD adds passAtt 1, passComp 1, passTD 1, rec 1,
    recTD 1 and 12 points. *)
Theorem C10_self_targeted_pass roster events byId e :
  noProtoId roster → computeStats roster events = Some byId →
  ordinaryFor roster (playerId e) →
  receiverId e = Some (playerId e) → playerId e ≠ "" →
  ev_type e = "PASS_COMP" ∨ ev_type e = "PASS_TD" →
  ∃ byId', computeStats roster (events ++ [e]) = Some byId'
    ∧ (ev_type e = "PASS_COMP" →
       own byId' !! playerId e
       = Some (stats_add (mkStats 1 1 0 0 0 0 1 0 0 0 0 0 0 0 0 0)
                         (statsOf (own byId) (playerId e))))
    ∧ (ev_type e = "PASS_TD" →
       own byId' !! playerId e
       = Some (stats_add (mkStats 1 1 1 0 0 0 1 1 0 0 0 0 0 0 0 12)
                         (statsOf (own byId) (playerId e))))
    ∧ (∀ q, q ≠ playerId e → own byId' !! q = own byId !! q).
Proof.
  intros Hn Hby Hord Hr Hne Hfam.
  assert (∀ ty d, ev_type e = tagOf ty → receiverDelta ty = Some d →
            computeStats roster (events ++ [e])
            = Some (mkById
                      (credit (playerId e) d
                         (credit (playerId e) (primaryDelta ty) (own byId)))
                      None (stray byId)))
    as Hstep.
  { intros ty d Hty Hd.
    assert (switchCase (ev_type e) = Some ty) as Hsw
      by (rewrite Hty; apply switchCase_tagOf).
    pose proof (creditedReceiver_present e ty (playerId e) d Hsw Hd Hr Hne)
      as Hc.
    rewrite (computeStats_snoc_safe roster events e byId); try done.
    - unfold applyTable. by rewrite Hc, (primaryOf_known e ty).
    - intros k [->|[d' Hd']]%elem_of_referenced; [done|].
      rewrite Hc in Hd'. by injection Hd' as <- _. }
  destruct Hfam as [Hty|Hty].
  - rewrite (Hstep PASS_COMP _ Hty eq_refl). eexists. split; [done|].
    simpl. split_and!.
    + intros _.
      rewrite lookup_credit, decide_True, statsOf_credit, decide_True by done.
      f_equal. destruct (statsOf (own byId) (playerId e)).
      unfold stats_add; simpl; f_equal; lia.
    + intros Hty'. congruence.
    + intros q Hq. by rewrite !lookup_credit, !decide_False.
  - rewrite (Hstep PASS_TD _ Hty eq_refl). eexists. split; [done|].
    simpl. split_and!.
    + intros Hty'. congruence.
    + intros _.
      rewrite lookup_credit, decide_True, statsOf_credit, decide_True by done.
      f_equal. destruct (statsOf (own byId) (playerId e)).
      unfold stats_add; simpl; f_equal; lia.
    + intros q Hq. by rewrite !lookup_credit, !decide_False.
Qed.

Lemma C10_self_targeted_pass_witness :
  ∃ byId',
    computeStats [] ([] ++ [ev "PASS_TD" "A" (Some "A")]) = Some byId'
    ∧ own byId' !! "A"
      = Some (stats_add (mkStats 1 1 1 0 0 0 1 1 0 0 0 0 0 0 0 12)
                        (statsOf ∅ "A")).
Proof.
  destruct (C10_self_targeted_pass [] [] (mkById ∅ None ∅)
              (ev "PASS_TD" "A" (Some "A")))
    as (byId' & Hc & _ & H & _);
    [by_check|reflexivity|by_check|reflexivity|done|by right|].
  exists byId'. split; [exact Hc|]. apply H. reflexivity.
Defined.

(** * Further properties of the store transitions *)

(** ** Lists *)

Lemma filter_all_keep {A} (P : A → Prop) `{!∀ x, Decision (P x)} (l : list A) :
  (∀ x, x ∈ l → P x) → filter P l = l.
Proof.
  induction l as [|x l IH]; intros HP; [done|].
  rewrite filter_cons_True by (apply HP; apply list_elem_of_here).
  f_equal. apply IH. intros y Hy. apply HP. by apply list_elem_of_further.
Qed.

Lemma fmap_id_on {A} (f : A → A) (l : list A) :
  (∀ x, x ∈ l → f x = x) → f <$> l = l.
Proof.
  induction l as [|x l IH]; intros Hf; [done|].
  rewrite fmap_cons, Hf by apply list_elem_of_here.
  f_equal. apply IH. intros y Hy. apply Hf. by apply list_elem_of_further.
Qed.

Lemma list_find_filter_snd {A} (P Q : A → Prop)
    `{!∀ x, Decision (P x), !∀ x, Decision (Q x)} (l : list A) :
  (∀ x, P x → Q x) →
  snd <$> list_find P (filter Q l) = snd <$> list_find P l.
Proof.
  intros HPQ. induction l as [|x l IH]; [done|].
  destruct (decide (Q x)) as [HQ|HQ].
  - rewrite filter_cons_True by done. cbn [list_find].
    case_decide; [done|].
    destruct (list_find P (filter Q l)) as [[i y]|],
             (list_find P l) as [[j z]|]; simpl in *; congruence.
  - rewrite filter_cons_False by done. cbn [list_find].
    rewrite decide_False by naive_solver.
    destruct (list_find P (filter Q l)) as [[i y]|],
             (list_find P l) as [[j z]|]; simpl in *; congruence.
Qed.

(** ** Games and selection *)

Lemma withEvents_same g : withEvents g (events g) = g.
Proof. by destruct g. Qed.

Lemma selectedGame_Some s g :
  selectedGame s = Some g →
  g ∈ games s ∧ selectedGameId (ui s) = Some (g_id g).
Proof.
  unfold selectedGame. destruct (selectedGameId (ui s)) as [sel|]; [|done].
  simpl. destruct (list_find _ _) as [[i g']|] eqn:Hf; [|done].
  intros [= <-]. apply list_find_Some in Hf as (Hi & <- & _).
  split; [|done]. by eapply list_elem_of_lookup_2.
Qed.

(** Mapping the games by a function that keeps their ids maps the selected
    game. *)
Lemma selectedGame_fmap (f : Game → Game) ps s :
  (∀ g, g_id (f g) = g_id g) →
  selectedGame (mkStore ps (f <$> games s) (ui s)) = f <$> selectedGame s.
Proof.
  intros Hf. unfold selectedGame. simpl.
  destruct (selectedGameId (ui s)) as [sel|]; [|done]. simpl.
  rewrite list_find_fmap.
  rewrite (list_find_ext _ (λ g, g_id g = sel)).
  - by destruct (list_find _ (games s)) as [[i g]|].
  - intros g. simpl. by rewrite Hf.
Qed.

Lemma selectedGame_onSelected upd sel s :
  selectedGame s = Some sel →
  selectedGame (onSelected upd sel s) = Some (withEvents sel (upd (events sel))).
Proof.
  intros Hsel. unfold onSelected.
  rewrite (selectedGame_fmap _ (players s) s).
  - rewrite Hsel. simpl. by rewrite decide_True.
  - intros g. by case_decide.
Qed.

Lemma statsByPlayer_onSelected upd sel s :
  selectedGame s = Some sel →
  statsByPlayer (onSelected upd sel s)
  = computeStats (players s) (upd (events sel)).
Proof.
  intros Hsel. unfold statsByPlayer.
  by rewrite (selectedGame_onSelected _ _ _ Hsel).
Qed.

Lemma statsByPlayer_selected s sel :
  selectedGame s = Some sel →
  statsByPlayer s = computeStats (players s) (events sel).
Proof. intros Hsel. unfold statsByPlayer. by rewrite Hsel. Qed.

(** ** Extra properties *)

(** X1.  [computeStats] reads the roster only through the set of player
    ids: two rosters with the same ids (in any order, with any names,
    jerseys or repetitions) give the same result for every log, the same
    mapping or the same failure. *)
Theorem X1_roster_only_through_ids roster1 roster2 events :
  (∀ q, q ∈ pl_id <$> roster1 ↔ q ∈ pl_id <$> roster2) →
  computeStats roster1 events = computeStats roster2 events.
Proof.
  intros Hids. unfold computeStats. by rewrite (seed_same_ids roster1 roster2).
Qed.

Lemma X1_roster_only_through_ids_witness :
  computeStats [mkPlayer "a" "Ann" None None; mkPlayer "b" "Bo" (Some "7") None]
               [ev "REC" "a" None]
  = computeStats [mkPlayer "b" "Bob" None None; mkPlayer "a" "Ann" None None;
                  mkPlayer "b" "Bo" None (Some "WR")]
                 [ev "REC" "a" None].
Proof.
  apply X1_roster_only_through_ids. intros q.
  rewrite !fmap_cons, fmap_nil, !elem_of_cons, !elem_of_nil. simpl. tauto.
Defined.

(** X2.  On a roster without the id ["__proto__"], the box score of a
    selected game is computed without failure and has a bucket for every
    player of the roster, holding the sum of the deltas the log gives that
    player, whatever the other ids of the log are: the fallback
    [?? emptyStats()] of the statistics table is never taken. *)
Theorem X2_every_roster_player_has_a_bucket s sel p :
  selectedGame s = Some sel → noProtoId (players s) → p ∈ players s →
  ∃ byId, statsByPlayer s = Some byId
    ∧ own byId !! pl_id p
      = Some (sumStats (deltaFor (pl_id p) <$> events sel)).
Proof.
  intros Hsel Hn Hp. rewrite (statsByPlayer_selected _ _ Hsel).
  destruct (computeStats_is_Some (players s) (events sel) Hn) as [byId Hby].
  exists byId. split; [done|].
  assert (pl_id p ∈ pl_id <$> players s) as Hin by by apply list_elem_of_fmap_2.
  rewrite (lookup_computeStats (players s) (events sel) byId) by done.
  rewrite decide_True by by left.
  rewrite lookup_aggregate, decide_True; [done|].
  unfold bucketIds. by apply elem_of_union_l, elem_of_list_to_set.
Qed.

Lemma X2_every_roster_player_has_a_bucket_witness :
  ∃ byId, statsByPlayer sampleStore = Some byId
    ∧ own byId !! "X" = Some (mkStats 0 0 0 0 1 1 1 1 0 0 0 0 0 0 0 12).
Proof.
  destruct (X2_every_roster_player_has_a_bucket sampleStore
              (mkGame "g1" "Owls" "2024-05-01" NFL_FLAG None
                 [ev "PASS_TD" "Y" (Some "X"); ev "RUSH_TD" "X" None;
                  ev "XP_1" "Y" None])
              (mkPlayer "X" "Xavier" None None))
    as (byId & Hby & HX); [reflexivity|by_check|apply list_elem_of_here|].
  exists byId. split; [exact Hby|exact HX].
Defined.

(** X3.  [addPlayer] with a name that is not blank changes nobody's
    statistics.  The id of the new player is made by [uid("p")]; the box
    score of the selected game gains an all-zero bucket for it when that id
    had none, and is otherwise the same (it fails exactly when it failed
    before); with a blank name the store is unchanged. *)
Theorem X3_add_player_box_score (trim : string → string)
    r t name jerseyText s :
  (trim name = "" → addPlayer trim (uid "p" r t) name jerseyText s = s)
  ∧ (trim name ≠ "" →
     selectedGame (addPlayer trim (uid "p" r t) name jerseyText s)
     = selectedGame s
     ∧ statsByPlayer (addPlayer trim (uid "p" r t) name jerseyText s)
       = (if selectedGame s is Some _
          then withOwnBucket (uid "p" r t) <$> statsByPlayer s
          else Some emptyObject)
     ∧ ∀ byId byId',
         statsByPlayer s = Some byId →
         statsByPlayer (addPlayer trim (uid "p" r t) name jerseyText s)
         = Some byId' →
         proto byId' = proto byId
         ∧ ∀ q, statsOf (own byId') q = statsOf (own byId) q).
Proof.
  split.
  - intros Hn. unfold addPlayer. by rewrite decide_True.
  - intros Hn. unfold addPlayer. rewrite decide_False by done.
    assert (∀ ps, selectedGame (mkStore ps (games s) (ui s)) = selectedGame s)
      as Hsel by done.
    split; [apply Hsel|].
    assert (statsByPlayer
              {| players := players s ++
                   [mkPlayer (uid "p" r t) (trim name)
                      (truthy (Some (trim jerseyText))) None];
                 games := games s; ui := ui s |}
            = if selectedGame s is Some _
              then withOwnBucket (uid "p" r t) <$> statsByPlayer s
              else Some emptyObject) as Heq.
    { unfold statsByPlayer. rewrite Hsel.
      destruct (selectedGame s) as [sel|]; [|done]. simpl.
      apply (computeStats_snoc_player (players s)
               (mkPlayer (uid "p" r t) (trim name)
                  (truthy (Some (trim jerseyText))) None)).
      apply uid_inert. }
    split; [exact Heq|].
    intros byId byId' Hby. rewrite Heq, Hby.
    destruct (selectedGame s) eqn:Hs.
    + simpl. intros [= <-]. split; [done|]. intros q.
      unfold withOwnBucket, statsOf. simpl. rewrite lookup_withBucket.
      case_decide; by simplify_eq/=.
    + intros [= <-]. unfold statsByPlayer in Hby. rewrite Hs in Hby.
      by injection Hby as <-.
Qed.

Lemma X3_add_player_box_score_witness :
  statsByPlayer (addPlayer (λ x, x) (uid "p" "9f3a" "18c2") "Zoe" "12"
                           sampleStore)
  = withOwnBucket (uid "p" "9f3a" "18c2") <$> statsByPlayer sampleStore.
Proof.
  destruct (X3_add_player_box_score (λ x, x) "9f3a" "18c2" "Zoe" "12"
              sampleStore) as [_ H].
  destruct H as (_ & H & _); [done|]. exact H.
Defined.

(** ** Editing the log of the selected game *)

Lemma onlySelectedLogChanges_refl s : onlySelectedLogChanges s s.
Proof. by repeat split. Qed.

Lemma onlySelectedLogChanges_onSelected upd sel s :
  selectedGame s = Some sel →
  onlySelectedLogChanges s (onSelected upd sel s).
Proof.
  intros Hsel. apply selectedGame_Some in Hsel as [_ Hid].
  unfold onlySelectedLogChanges, onSelected. simpl.
  split; [done|]. split; [done|]. split.
  - rewrite <-list_fmap_compose. apply list_fmap_ext.
    intros i g _. simpl. by case_decide.
  - intros i g Hi Hne. rewrite list_lookup_fmap, Hi. simpl.
    rewrite decide_False; [done|]. intros Heq. apply Hne. by rewrite Hid, Heq.
Qed.

Lemma pushEvent_onSelected (trim : string → string)
    newId now pid text ty opts s sel :
  selectedGame s = Some sel → pid ≠ "" →
  pushEvent trim newId now pid text ty opts s
  = onSelected (cons (newEvent trim newId now pid text ty opts)) sel s.
Proof.
  intros Hsel Hpid. unfold pushEvent. by rewrite Hsel, decide_False.
Qed.

Lemma removeEvent_onSelected eventId s sel :
  selectedGame s = Some sel →
  removeEvent eventId s
  = onSelected (filter (λ e, ev_id e ≠ eventId)) sel s.
Proof. intros Hsel. unfold removeEvent. by rewrite Hsel. Qed.

Lemma clearGameEvents_onSelected s sel :
  selectedGame s = Some sel →
  clearGameEvents s = onSelected (λ _, []) sel s.
Proof. intros Hsel. unfold clearGameEvents. by rewrite Hsel. Qed.

(** X4.  When a game is selected and a primary player is chosen,
    [pushEvent] puts the new event in front of the log of the selected
    game.  On a roster without the id ["__proto__"] the box score before
    and after are computed without failure, and the box score after is
    what one pass of the loop body for the new event makes of the box
    score before. *)
Theorem X4_push_event_box_score (trim : string → string)
    newId now pid text ty opts s sel :
  selectedGame s = Some sel → pid ≠ "" → noProtoId (players s) →
  selectedGame (pushEvent trim newId now pid text ty opts s)
  = Some (withEvents sel
            (newEvent trim newId now pid text ty opts :: events sel))
  ∧ ∃ byId byId',
      statsByPlayer s = Some byId
      ∧ statsByPlayer (pushEvent trim newId now pid text ty opts s)
        = Some byId'
      ∧ applyEvent byId (newEvent trim newId now pid text ty opts)
        = Some byId'.
Proof.
  intros Hsel Hpid Hn.
  rewrite (pushEvent_onSelected _ _ _ _ _ _ _ _ _ Hsel Hpid).
  split.
  - by apply selectedGame_onSelected.
  - rewrite (statsByPlayer_onSelected _ _ _ Hsel).
    rewrite (statsByPlayer_selected _ _ Hsel).
    destruct (computeStats_is_Some (players s) (events sel) Hn) as [byId Hby].
    destruct (computeStats_is_Some (players s)
                (newEvent trim newId now pid text ty opts :: events sel) Hn)
      as [byId' Hby'].
    exists byId, byId'. split_and!; try done.
    rewrite computeStats_cons, Hby in Hby' by done. done.
Qed.

Lemma X4_push_event_box_score_witness :
  ∃ byId byId',
    statsByPlayer sampleStore = Some byId
    ∧ statsByPlayer
        (pushEvent (λ x, x) "e9" 5 "Y" "" RUSH_TD noOpts sampleStore)
      = Some byId'
    ∧ applyEvent byId (newEvent (λ x, x) "e9" 5 "Y" "" RUSH_TD noOpts)
      = Some byId'.
Proof.
  eapply X4_push_event_box_score; [reflexivity|done|by_check].
Defined.

(** X5.  The three log edits [pushEvent], [removeEvent] and
    [clearGameEvents] change nothing but the logs of the games that have
    the selected id: roster, selection, the list of games with their ids,
    opponents, dates, rule sets and notes, and the logs of all other games
    stay as they are.  Without a selected game, and for [pushEvent] without
    a primary player, the store is unchanged. *)
Theorem X5_log_edits_touch_only_the_selected_game (trim : string → string)
    newId now pid text ty opts eventId s :
  onlySelectedLogChanges s (pushEvent trim newId now pid text ty opts s)
  ∧ onlySelectedLogChanges s (removeEvent eventId s)
  ∧ onlySelectedLogChanges s (clearGameEvents s)
  ∧ (selectedGame s = None ∨ pid = "" →
     pushEvent trim newId now pid text ty opts s = s)
  ∧ (selectedGame s = None →
     removeEvent eventId s = s ∧ clearGameEvents s = s).
Proof.
  destruct (selectedGame s) as [sel|] eqn:Hsel.
  - split; [|split; [|split; [|split]]].
    + destruct (decide (pid = "")) as [->|Hpid].
      * unfold pushEvent. rewrite Hsel. simpl.
        apply onlySelectedLogChanges_refl.
      * rewrite (pushEvent_onSelected _ _ _ _ _ _ _ _ _ Hsel Hpid).
        by apply onlySelectedLogChanges_onSelected.
    + rewrite (removeEvent_onSelected _ _ _ Hsel).
      by apply onlySelectedLogChanges_onSelected.
    + rewrite (clearGameEvents_onSelected _ _ Hsel).
      by apply onlySelectedLogChanges_onSelected.
    + intros [?| ->]; [done|]. unfold pushEvent. by rewrite Hsel.
    + done.
  - unfold pushEvent, removeEvent, clearGameEvents. rewrite Hsel.
    repeat split; apply onlySelectedLogChanges_refl || done.
Qed.

Lemma X5_log_edits_touch_only_the_selected_game_witness :
  pushEvent (λ x, x) "e9" 5 "" "" RUSH_TD noOpts sampleStore = sampleStore.
Proof.
  destruct (X5_log_edits_touch_only_the_selected_game
              (λ x, x) "e9" 5 "" "" RUSH_TD noOpts "e" sampleStore)
    as (_ & _ & _ & H & _).
  apply H. by right.
Defined.

(** X6.  [removeEvent] undoes [pushEvent]: when no event of the store has
    the id given to the new event, removing that id after the push gives
    back the store as it was. *)
Theorem X6_remove_undoes_push (trim : string → string)
    newId now pid text ty opts s :
  (∀ g e, g ∈ games s → e ∈ events g → ev_id e ≠ newId) →
  removeEvent newId (pushEvent trim newId now pid text ty opts s) = s.
Proof.
  intros Hfresh.
  assert (∀ sel, selectedGame s = Some sel →
            onSelected (filter (λ e, ev_id e ≠ newId)) sel s = s) as Hnoop.
  { intros sel Hsel. unfold onSelected. destruct s as [ps gs u]. simpl in *.
    f_equal. apply fmap_id_on. intros g Hg. case_decide; [|done].
    rewrite filter_all_keep by (intros e He; by apply (Hfresh g)).
    apply withEvents_same. }
  destruct (selectedGame s) as [sel|] eqn:Hsel.
  2: { unfold pushEvent. rewrite Hsel. unfold removeEvent. by rewrite Hsel. }
  destruct (decide (pid = "")) as [->|Hpid].
  { unfold pushEvent. rewrite Hsel. simpl.
    rewrite (removeEvent_onSelected _ _ _ Hsel). by apply Hnoop. }
  rewrite (pushEvent_onSelected _ _ _ _ _ _ _ _ _ Hsel Hpid).
  rewrite (removeEvent_onSelected _ _
             (withEvents sel
                (newEvent trim newId now pid text ty opts :: events sel)))
    by by apply selectedGame_onSelected.
  unfold onSelected. destruct s as [ps gs u]. simpl in *. f_equal.
  rewrite <-list_fmap_compose. apply fmap_id_on. intros g Hg. simpl.
  destruct (decide (g_id g = g_id sel)) as [Heq|Hne].
  - simpl. rewrite decide_True by done. simpl.
    rewrite filter_cons_False by (simpl; naive_solver).
    rewrite filter_all_keep by (intros e He; by apply (Hfresh g)).
    by destruct g.
  - by rewrite decide_False.
Qed.

Lemma X6_remove_undoes_push_witness :
  removeEvent "e9"
    (pushEvent (λ x, x) "e9" 5 "Y" "" PASS_COMP (mkOpts (Some "X") None None)
               sampleStore)
  = sampleStore.
Proof.
  apply X6_remove_undoes_push. intros g e Hg He.
  apply list_elem_of_singleton in Hg as ->.
  simpl in He. rewrite !elem_of_cons, elem_of_nil in He.
  destruct He as [-> | [-> | [-> | []]]]; discriminate.
Defined.

(** X7.  Removing an event takes its delta out of the box score: when the
    log of the selected game holds exactly one event with the given id and
    the roster has no id ["__proto__"], the box score before [removeEvent]
    is what one pass of the loop body for that event makes of the box score
    after it, and neither fails. *)
Theorem X7_remove_event_box_score eventId s sel
    (l1 : list StatEvent) e (l2 : list StatEvent) :
  selectedGame s = Some sel →
  events sel = (l1 ++ e :: l2)%list → ev_id e = eventId →
  (∀ e', e' ∈ (l1 ++ l2)%list → ev_id e' ≠ eventId) →
  noProtoId (players s) →
  statsByPlayer (removeEvent eventId s)
  = computeStats (players s) (l1 ++ l2)
  ∧ ∃ byId byId',
      statsByPlayer (removeEvent eventId s) = Some byId
      ∧ statsByPlayer s = Some byId'
      ∧ applyEvent byId e = Some byId'.
Proof.
  intros Hsel Hev Hid Huniq Hn.
  assert (statsByPlayer (removeEvent eventId s)
          = computeStats (players s) (l1 ++ l2)) as Hafter.
  { rewrite (removeEvent_onSelected _ _ _ Hsel).
    rewrite (statsByPlayer_onSelected _ _ _ Hsel). f_equal.
    rewrite Hev, filter_app, filter_cons_False by naive_solver.
    rewrite <-filter_app. by apply filter_all_keep. }
  split; [done|].
  rewrite Hafter, (statsByPlayer_selected _ _ Hsel), Hev.
  destruct (computeStats_is_Some (players s) (l1 ++ l2) Hn) as [byId Hby].
  destruct (computeStats_is_Some (players s) (l1 ++ e :: l2) Hn)
    as [byId' Hby'].
  exists byId, byId'. split_and!; try done.
  rewrite computeStats_middle, Hby in Hby' by done. done.
Qed.

Lemma X7_remove_event_box_score_witness :
  ∃ byId byId',
    statsByPlayer
      (removeEvent "e2"
         (mkStore [] [mkGame "g" "Owls" "2024-05-01" NFL_FLAG None
                        [mkEvent "e1" 1 "XP_1" "Y" None None None;
                         mkEvent "e2" 2 "RUSH_TD" "Y" None None None]]
                  (mkUI (Some "g")))) = Some byId
    ∧ statsByPlayer
        (mkStore [] [mkGame "g" "Owls" "2024-05-01" NFL_FLAG None
                       [mkEvent "e1" 1 "XP_1" "Y" None None None;
                        mkEvent "e2" 2 "RUSH_TD" "Y" None None None]]
                 (mkUI (Some "g"))) = Some byId'
    ∧ applyEvent byId (mkEvent "e2" 2 "RUSH_TD" "Y" None None None)
      = Some byId'.
Proof.
  eapply (X7_remove_event_box_score "e2" _ _
            [mkEvent "e1" 1 "XP_1" "Y" None None None] _ []).
  - reflexivity.
  - reflexivity.
  - reflexivity.
  - intros e' He'. apply list_elem_of_singleton in He' as ->. discriminate.
  - by_check.
Defined.

(** The box score of an empty log: the seeded object. *)
Lemma computeStats_nil roster byId :
  computeStats roster [] = Some byId ↔ byId = seed roster.
Proof. unfold computeStats. simpl. naive_solver. Qed.

Lemma seeded_buckets roster :
  (∀ q, own (seed roster) !! q
        = if decide (q ∈ pl_id <$> roster ∧ q ≠ "__proto__")
          then Some emptyStats else None)
  ∧ proto (seed roster)
    = (if decide ("__proto__" ∈ pl_id <$> roster) then Some emptyStats
       else None)
  ∧ stray (seed roster) = ∅.
Proof.
  split; [apply lookup_own_seed|]. by rewrite seed_spec.
Qed.

(** X8.  [clearGameEvents] resets the box score of the selected game: it
    is computed without failure, every player of the roster has the
    all-zero bucket (under the id as key, or as the prototype of the
    result when the id is ["__proto__"]), and no other bucket exists. *)
Theorem X8_clear_resets_box_score s sel :
  selectedGame s = Some sel →
  selectedGame (clearGameEvents s) = Some (withEvents sel [])
  ∧ ∃ byId, statsByPlayer (clearGameEvents s) = Some byId
      ∧ (∀ q, own byId !! q
              = if decide (q ∈ pl_id <$> players s ∧ q ≠ "__proto__")
                then Some emptyStats else None)
      ∧ proto byId
        = (if decide ("__proto__" ∈ pl_id <$> players s)
           then Some emptyStats else None)
      ∧ stray byId = ∅.
Proof.
  intros Hsel. rewrite (clearGameEvents_onSelected _ _ Hsel). split.
  - by apply selectedGame_onSelected.
  - rewrite (statsByPlayer_onSelected _ _ _ Hsel).
    exists (seed (players s)). split; [done|]. apply seeded_buckets.
Qed.

Lemma X8_clear_resets_box_score_witness :
  ∃ byId, statsByPlayer (clearGameEvents sampleStore) = Some byId
    ∧ (∀ q, own byId !! q
            = if decide (q ∈ pl_id <$> players sampleStore ∧ q ≠ "__proto__")
              then Some emptyStats else None)
    ∧ proto byId
      = (if decide ("__proto__" ∈ pl_id <$> players sampleStore)
         then Some emptyStats else None)
    ∧ stray byId = ∅.
Proof.
  destruct (X8_clear_resets_box_score sampleStore
              (mkGame "g1" "Owls" "2024-05-01" NFL_FLAG None
                 [ev "PASS_TD" "Y" (Some "X"); ev "RUSH_TD" "X" None;
                  ev "XP_1" "Y" None]) eq_refl) as [_ H].
  exact H.
Defined.

(** ** Games *)

(** X9.  [addGame] with an opponent that is not blank puts the new game in
    front of the others and selects it: it is the selected game even when
    an older game carries the same id, its log is empty, and its box score
    is computed without failure and holds the all-zero bucket for every
    player of the roster (under the id as key, or as the prototype of the
    result when the id is ["__proto__"]) and nothing else.  With a blank
    opponent the store is unchanged. *)
Theorem X9_add_game_is_selected_and_empty (trim : string → string)
    newId opp date rs s :
  (trim opp = "" → addGame trim newId opp date rs s = s)
  ∧ (trim opp ≠ "" →
     games (addGame trim newId opp date rs s)
     = mkGame newId (trim opp) date rs None [] :: games s
     ∧ selectedGame (addGame trim newId opp date rs s)
       = Some (mkGame newId (trim opp) date rs None [])
     ∧ ∃ byId, statsByPlayer (addGame trim newId opp date rs s) = Some byId
         ∧ (∀ q, own byId !! q
                 = if decide (q ∈ pl_id <$> players s ∧ q ≠ "__proto__")
                   then Some emptyStats else None)
         ∧ proto byId
           = (if decide ("__proto__" ∈ pl_id <$> players s)
              then Some emptyStats else None)
         ∧ stray byId = ∅).
Proof.
  unfold addGame. split; intros Hopp.
  - by rewrite decide_True.
  - rewrite decide_False by done.
    assert (selectedGame
              {| players := players s;
                 games := mkGame newId (trim opp) date rs None [] :: games s;
                 ui := {| selectedGameId := Some newId |} |}
            = Some (mkGame newId (trim opp) date rs None [])) as Hsel.
    { unfold selectedGame. simpl. by rewrite decide_True. }
    split; [done|]. split; [done|].
    unfold statsByPlayer. rewrite Hsel. simpl.
    exists (seed (players s)). split; [done|]. apply seeded_buckets.
Qed.

Lemma X9_add_game_is_selected_and_empty_witness :
  selectedGame (addGame (λ x, x) "g1" "Hawks" "2024-06-01" FARM_LEAGUE
                        sampleStore)
  = Some (mkGame "g1" "Hawks" "2024-06-01" FARM_LEAGUE None []).
Proof.
  destruct (X9_add_game_is_selected_and_empty
              (λ x, x) "g1" "Hawks" "2024-06-01" FARM_LEAGUE sampleStore)
    as [_ H].
  destruct H as (_ & H & _); [done|]. exact H.
Defined.

(** X10.  [deleteGame] removes every game with the given id and no other.
    When the selection pointed to that id it is cleared and the box score
    becomes the empty object; otherwise the selected game and the box
    score are the same as before. *)
Theorem X10_delete_game id s :
  (∀ g, g ∈ games (deleteGame id s) ↔ g ∈ games s ∧ g_id g ≠ id)
  ∧ selectedGame (deleteGame id s)
    = (if decide (selectedGameId (ui s) = Some id) then None
       else selectedGame s)
  ∧ statsByPlayer (deleteGame id s)
    = (if decide (selectedGameId (ui s) = Some id) then Some emptyObject
       else statsByPlayer s).
Proof.
  assert (selectedGame (deleteGame id s)
          = if decide (selectedGameId (ui s) = Some id) then None
            else selectedGame s) as Hsel.
  { unfold selectedGame, deleteGame. simpl.
    case_decide as Hid; [done|].
    destruct (selectedGameId (ui s)) as [sel|]; [|done]. simpl.
    apply (list_find_filter_snd (λ g, g_id g = sel) (λ g, g_id g ≠ id)).
    intros g -> ->. by apply Hid. }
  split; [|split; [done|]].
  - intros g. simpl. rewrite list_elem_of_filter. naive_solver.
  - unfold statsByPlayer. rewrite Hsel. by case_decide.
Qed.

(** X11.  Deleting a game that was just added gives back the games and the
    roster as they were, when no older game has the id of the new one; only
    the selection is lost. *)
Theorem X11_delete_undoes_add_game (trim : string → string)
    newId opp date rs s :
  (∀ g, g ∈ games s → g_id g ≠ newId) → trim opp ≠ "" →
  deleteGame newId (addGame trim newId opp date rs s)
  = mkStore (players s) (games s) (mkUI None).
Proof.
  intros Hfresh Hopp. unfold addGame. rewrite decide_False by done.
  unfold deleteGame. simpl. f_equal.
  - rewrite filter_cons_False by (simpl; naive_solver).
    by apply filter_all_keep.
  - by rewrite decide_True.
Qed.

Lemma X11_delete_undoes_add_game_witness :
  deleteGame "g2" (addGame (λ x, x) "g2" "Hawks" "2024-06-01" FARM_LEAGUE
                           sampleStore)
  = mkStore (players sampleStore) (games sampleStore) (mkUI None).
Proof.
  apply X11_delete_undoes_add_game; [|done].
  intros g Hg. apply list_elem_of_singleton in Hg as ->. discriminate.
Defined.

(** ** Players *)

Lemma deletePlayer_twice a b s :
  deletePlayer a (deletePlayer b s)
  = {| players := filter (λ p, pl_id p ≠ a ∧ pl_id p ≠ b) (players s);
       games := (λ g, withEvents g
                   (filter (λ e, (playerId e ≠ a ∧ receiverId e ≠ Some a)
                                 ∧ playerId e ≠ b ∧ receiverId e ≠ Some b)
                           (events g))) <$> games s;
       ui := ui s |}.
Proof.
  unfold deletePlayer. simpl. f_equal.
  - apply list_filter_filter.
  - rewrite <-list_fmap_compose. apply list_fmap_ext. intros i g _. simpl.
    unfold withEvents. simpl. f_equal. apply list_filter_filter.
Qed.

Lemma deletePlayer_unused a s :
  (∀ p, p ∈ players s → pl_id p ≠ a) →
  (∀ g e, g ∈ games s → e ∈ events g →
          playerId e ≠ a ∧ receiverId e ≠ Some a) →
  deletePlayer a s = s.
Proof.
  intros Hp He. unfold deletePlayer. destruct s as [ps gs u]. simpl in *.
  f_equal.
  - by apply filter_all_keep.
  - apply fmap_id_on. intros g Hg.
    rewrite filter_all_keep by (intros e Hin; by apply (He g)).
    apply withEvents_same.
Qed.

(** X12.  [deletePlayer] is idempotent and two deletions commute; deleting
    an id that no player has and no event names changes nothing. *)
Theorem X12_delete_player_algebra a b s :
  deletePlayer a (deletePlayer a s) = deletePlayer a s
  ∧ deletePlayer a (deletePlayer b s) = deletePlayer b (deletePlayer a s)
  ∧ ((∀ p, p ∈ players s → pl_id p ≠ a) →
     (∀ g e, g ∈ games s → e ∈ events g →
             playerId e ≠ a ∧ receiverId e ≠ Some a) →
     deletePlayer a s = s).
Proof.
  split; [|split].
  - rewrite deletePlayer_twice. unfold deletePlayer. f_equal.
    + apply list_filter_iff. naive_solver.
    + apply list_fmap_ext. intros i g _. f_equal.
      apply list_filter_iff. naive_solver.
  - rewrite !deletePlayer_twice. f_equal.
    + apply list_filter_iff. naive_solver.
    + apply list_fmap_ext. intros i g _. f_equal.
      apply list_filter_iff. naive_solver.
  - apply deletePlayer_unused.
Qed.

Lemma X12_delete_player_algebra_witness :
  deletePlayer "nobody" sampleStore = sampleStore.
Proof.
  destruct (X12_delete_player_algebra "nobody" "X" sampleStore)
    as (_ & _ & H).
  apply H.
  - intros p Hp. simpl in Hp. rewrite !elem_of_cons, elem_of_nil in Hp.
    destruct Hp as [-> | [-> | []]]; discriminate.
  - intros g e Hg He. apply list_elem_of_singleton in Hg as ->.
    simpl in He. rewrite !elem_of_cons, elem_of_nil in He.
    destruct He as [-> | [-> | [-> | []]]]; split; discriminate.
Defined.

(** X13.  [deletePlayer] undoes [addPlayer]: when the id given to the new
    player is used by no player and named by no event, deleting it right
    after the addition gives back the store as it was. *)
Theorem X13_delete_undoes_add_player (trim : string → string)
    newId name jerseyText s :
  (∀ p, p ∈ players s → pl_id p ≠ newId) →
  (∀ g e, g ∈ games s → e ∈ events g →
          playerId e ≠ newId ∧ receiverId e ≠ Some newId) →
  deletePlayer newId (addPlayer trim newId name jerseyText s) = s.
Proof.
  intros Hp He.
  pose proof (deletePlayer_unused newId s Hp He) as Hnoop.
  unfold addPlayer. cbv zeta. case_decide; [exact Hnoop|].
  unfold deletePlayer in *. destruct s as [ps gs u]. simpl in *.
  injection Hnoop as Hps Hgs. f_equal; [|done].
  rewrite filter_app, filter_cons_False by (simpl; naive_solver).
  by rewrite filter_nil, app_nil_r.
Qed.

Lemma X13_delete_undoes_add_player_witness :
  deletePlayer "Z" (addPlayer (λ x, x) "Z" "Zoe" "12" sampleStore)
  = sampleStore.
Proof.
  apply X13_delete_undoes_add_player.
  - intros p Hp. simpl in Hp. rewrite !elem_of_cons, elem_of_nil in Hp.
    destruct Hp as [-> | [-> | []]]; discriminate.
  - intros g e Hg He. apply list_elem_of_singleton in Hg as ->.
    simpl in He. rewrite !elem_of_cons, elem_of_nil in He.
    destruct He as [-> | [-> | [-> | []]]]; split; discriminate.
Defined.

(** ** What no transition changes *)

Lemma gameBindings_onSelected upd sel s :
  gameBindings (onSelected upd sel s) = gameBindings s.
Proof.
  unfold gameBindings, onSelected. simpl. rewrite <-list_fmap_compose.
  apply list_fmap_ext. intros i g _. simpl. by case_decide.
Qed.

Lemma pushEvent_cases (trim : string → string) newId now pid text ty opts s :
  pushEvent trim newId now pid text ty opts s = s
  ∨ ∃ sel, selectedGame s = Some sel ∧ pid ≠ ""
           ∧ pushEvent trim newId now pid text ty opts s
             = onSelected (cons (newEvent trim newId now pid text ty opts))
                          sel s.
Proof.
  destruct (selectedGame s) as [sel|] eqn:Hsel.
  - destruct (decide (pid = "")) as [->|Hpid].
    + left. unfold pushEvent. by rewrite Hsel.
    + right. exists sel. split; [done|]. split; [done|].
      by apply pushEvent_onSelected.
  - left. unfold pushEvent. by rewrite Hsel.
Qed.

Lemma quickLog_cases (trim : string → string) newId now pid rcv text ty s :
  quickLog trim newId now pid rcv text ty s = s
  ∨ ∃ sel opts, selectedGame s = Some sel ∧ pid ≠ ""
      ∧ (ty = PAT_RET_2 → allowPatReturn (RULESET_CONFIG (ruleSet sel)) = true)
      ∧ quickLog trim newId now pid rcv text ty s
        = onSelected (cons (newEvent trim newId now pid text ty opts)) sel s.
Proof.
  unfold quickLog. destruct (selectedGame s) as [sel|] eqn:Hsel; [|by left].
  destruct (players s) as [|p ps]; [by left|].
  assert (∀ opts, (ty = PAT_RET_2 →
                   allowPatReturn (RULESET_CONFIG (ruleSet sel)) = true) →
            pushEvent trim newId now pid text ty opts s = s
            ∨ ∃ sel0 opts0, Some sel = Some sel0 ∧ pid ≠ ""
                ∧ (ty = PAT_RET_2 →
                   allowPatReturn (RULESET_CONFIG (ruleSet sel0)) = true)
                ∧ pushEvent trim newId now pid text ty opts s
                  = onSelected
                      (cons (newEvent trim newId now pid text ty opts0))
                      sel0 s) as Hpush.
  { intros opts Hpat.
    destruct (pushEvent_cases trim newId now pid text ty opts s)
      as [Heq | (sel' & Hsel' & Hpid & Heq)]; [by left|].
    right. exists sel, opts. rewrite Hsel in Hsel'. simplify_eq. done. }
  destruct ty; try (apply Hpush; discriminate).
  destruct (allowPatReturn (RULESET_CONFIG (ruleSet sel))) eqn:Hallow;
    [|by left].
  by apply Hpush.
Qed.

(** X14.  No transition rebinds a game: the list of games with their ids
    and rule sets is the same after [deletePlayer], [addPlayer],
    [openGame], [pushEvent], [quickLog], [removeEvent] and
    [clearGameEvents]; [deleteGame] only drops the entries of the given id
    and [addGame] only puts one new entry in front. *)
Theorem X14_rule_set_is_fixed (trim : string → string)
    a newId name jerseyText id now pid rcv text ty opts eventId opp date rs s :
  gameBindings (deletePlayer a s) = gameBindings s
  ∧ gameBindings (addPlayer trim newId name jerseyText s) = gameBindings s
  ∧ gameBindings (openGame id s) = gameBindings s
  ∧ gameBindings (pushEvent trim newId now pid text ty opts s)
    = gameBindings s
  ∧ gameBindings (quickLog trim newId now pid rcv text ty s) = gameBindings s
  ∧ gameBindings (removeEvent eventId s) = gameBindings s
  ∧ gameBindings (clearGameEvents s) = gameBindings s
  ∧ gameBindings (deleteGame id s)
    = filter (λ b, b.1 ≠ id) (gameBindings s)
  ∧ (gameBindings (addGame trim newId opp date rs s) = gameBindings s
     ∨ gameBindings (addGame trim newId opp date rs s)
       = (newId, rs) :: gameBindings s).
Proof.
  repeat split.
  - unfold gameBindings, deletePlayer. simpl. by rewrite <-list_fmap_compose.
  - unfold addPlayer. cbv zeta. by case_decide.
  - destruct (pushEvent_cases trim newId now pid text ty opts s)
      as [-> | (sel & _ & _ & ->)]; [done|]. apply gameBindings_onSelected.
  - destruct (quickLog_cases trim newId now pid rcv text ty s)
      as [-> | (sel & o & _ & _ & _ & ->)]; [done|].
    apply gameBindings_onSelected.
  - unfold removeEvent. destruct (selectedGame s) as [sel|]; [|done].
    apply (gameBindings_onSelected _ sel).
  - unfold clearGameEvents. destruct (selectedGame s) as [sel|]; [|done].
    apply (gameBindings_onSelected (λ _, []) sel).
  - unfold gameBindings, deleteGame. simpl.
    induction (games s) as [|g gs IH]; [done|].
    rewrite fmap_cons. destruct (decide (g_id g = id)) as [Heq|Hne].
    + rewrite !filter_cons_False by (simpl; naive_solver). done.
    + rewrite !filter_cons_True by done. rewrite fmap_cons. by f_equal.
  - unfold addGame. cbv zeta. case_decide; [by left|by right].
Qed.

(** ** Invariants of the logs made through the quick logger *)

Lemma elem_of_games_onSelected upd sel s g' :
  g' ∈ games (onSelected upd sel s) →
  ∃ g, g ∈ games s
       ∧ ((g_id g = g_id sel ∧ g' = withEvents g (upd (events g)))
          ∨ (g_id g ≠ g_id sel ∧ g' = g)).
Proof.
  unfold onSelected. simpl. intros Hg'.
  apply list_elem_of_fmap in Hg' as (g & -> & Hg). exists g. split; [done|].
  case_decide; [left|right]; done.
Qed.

Lemma NoDup_game_ids_eq s g1 g2 :
  NoDup (g_id <$> games s) → g1 ∈ games s → g2 ∈ games s →
  g_id g1 = g_id g2 → g1 = g2.
Proof.
  intros Hnd H1 H2 Heq.
  apply list_elem_of_lookup in H1 as [i Hi], H2 as [j Hj].
  assert (i = j) as ->.
  { eapply NoDup_lookup; [exact Hnd| |];
      rewrite list_lookup_fmap; [by rewrite Hi|by rewrite Hj, Heq]. }
  congruence.
Qed.

Lemma patLegal_onSelected_sub upd sel s :
  (∀ l e, e ∈ upd l → e ∈ l) →
  patLegal s → patLegal (onSelected upd sel s).
Proof.
  intros Hsub Hlegal g' e Hg' He Hty.
  apply elem_of_games_onSelected in Hg' as (g & Hg & [[_ ->] | [_ ->]]).
  - apply (Hlegal g e); [done| |done]. by apply Hsub.
  - by apply (Hlegal g e).
Qed.

(** X15.  A click in the quick logger keeps PAT returns legal: when the
    games have distinct ids and every PAT-return event of the store sits
    in a game whose rule set allows it, the same holds after [quickLog],
    whatever button is clicked.  The transitions [removeEvent],
    [clearGameEvents], [deletePlayer], [deleteGame], [openGame],
    [addPlayer] and [addGame] keep it too. *)
Theorem X15_pat_returns_stay_legal (trim : string → string)
    a newId name jerseyText id now pid rcv text ty eventId opp date rs s :
  patLegal s →
  (NoDup (g_id <$> games s) →
   patLegal (quickLog trim newId now pid rcv text ty s))
  ∧ patLegal (removeEvent eventId s)
  ∧ patLegal (clearGameEvents s)
  ∧ patLegal (deletePlayer a s)
  ∧ patLegal (deleteGame id s)
  ∧ patLegal (openGame id s)
  ∧ patLegal (addPlayer trim newId name jerseyText s)
  ∧ patLegal (addGame trim newId opp date rs s).
Proof.
  intros Hlegal. split_and!.
  - intros Hnd.
    destruct (quickLog_cases trim newId now pid rcv text ty s)
      as [-> | (sel & o & Hsel & _ & Hpat & ->)]; [done|].
    intros g' e Hg' He Hty.
    apply elem_of_games_onSelected in Hg' as (g & Hg & [[Hid ->] | [_ ->]]).
    + simpl in *. apply elem_of_cons in He as [-> | He].
      * assert (g = sel) as ->.
        { apply (NoDup_game_ids_eq s); try done.
          by apply selectedGame_Some in Hsel as [? _]. }
        apply Hpat. simpl in Hty. by destruct ty.
      * by apply (Hlegal g e).
    + by apply (Hlegal g e).
  - unfold removeEvent. destruct (selectedGame s) as [sel|]; [|done].
    apply (patLegal_onSelected_sub _ sel); [|done].
    intros l e He. by apply list_elem_of_filter in He as [_ ?].
  - unfold clearGameEvents. destruct (selectedGame s) as [sel|]; [|done].
    apply (patLegal_onSelected_sub (λ _, []) sel); [|done].
    intros l e He. by apply elem_of_nil in He.
  - intros g' e Hg' He Hty. simpl in Hg'.
    apply list_elem_of_fmap in Hg' as (g & -> & Hg). simpl in *.
    apply list_elem_of_filter in He as [_ He]. by apply (Hlegal g e).
  - intros g e Hg He Hty. simpl in Hg.
    apply list_elem_of_filter in Hg as [_ Hg]. by apply (Hlegal g e).
  - done.
  - unfold addPlayer. cbv zeta. by case_decide.
  - unfold addGame. cbv zeta. case_decide; [done|].
    intros g e Hg He Hty. simpl in Hg. apply elem_of_cons in Hg as [-> | Hg].
    + by apply elem_of_nil in He.
    + by apply (Hlegal g e).
Qed.

Lemma X15_pat_returns_stay_legal_witness :
  patLegal farmStore
  ∧ patLegal (quickLog (λ x, x) "e9" 5 "Y" "X" "" PAT_RET_2 farmStore)
  ∧ selectedGame (quickLog (λ x, x) "e9" 5 "Y" "X" "" PAT_RET_2 farmStore)
    = Some (mkGame "g2" "Hawks" "2024-06-01" FARM_LEAGUE None
              [mkEvent "e9" 5 "PAT_RET_2" "Y" None None None;
               ev "PAT_RET_2" "X" None; ev "RUSH_TD" "Y" None]).
Proof.
  assert (patLegal farmStore) as Hlegal.
  { intros g e Hg He Hty. simpl in Hg.
    rewrite !elem_of_cons, elem_of_nil in Hg. destruct Hg as [-> | [-> | []]].
    - reflexivity.
    - simpl in He. apply list_elem_of_singleton in He as ->. discriminate. }
  split; [exact Hlegal|]. split; [|reflexivity].
  destruct (X15_pat_returns_stay_legal (λ x, x) "a" "e9" "n" "j" "g" 5
              "Y" "X" "" PAT_RET_2 "e" "o" "d" NFL_FLAG farmStore Hlegal)
    as [H _].
  apply H. apply (bool_decide_unpack _). vm_compute. exact I.
Defined.

(** ** Points and the rule configuration *)

Lemma consistent_empty : consistent emptyStats.
Proof. unfold consistent. simpl. lia. Qed.

(** Each row of writes keeps a bucket consistent. *)
Lemma consistent_writes e k ws b :
  (k, ws) ∈ creditsOf e → consistent b →
  consistent (stats_add (deltaOf ws) b).
Proof.
  intros [->|[(ty & _ & _ & ->)|(ty & _ & _ & Hw)]]%creditsOf_writes Hb.
  - by rewrite stats_add_empty_l.
  - destruct ty, b; unfold consistent in *; simpl in *; lia.
  - destruct ty; simplify_eq/=; destruct b; unfold consistent in *;
      simpl in *; lia.
Qed.

(** Only a PAT_RET_2 event counts a PAT return. *)
Lemma patRet2_writes e k ws b :
  ev_type e ≠ "PAT_RET_2" → (k, ws) ∈ creditsOf e →
  patRet2 (stats_add (deltaOf ws) b) = patRet2 b.
Proof.
  intros Hty [->|[(ty & Hsw & _ & ->)|(ty & _ & _ & Hw)]]%creditsOf_writes.
  - by rewrite stats_add_empty_l.
  - assert (ty ≠ PAT_RET_2) as Hne.
    { intros ->. apply switchCase_Some in Hsw. by apply Hty. }
    destruct ty, b; simpl; try lia. done.
  - destruct ty; simplify_eq/=; destruct b; simpl; lia.
Qed.

(** X16.  On a store where PAT returns are legal, the engine and the rule
    configuration agree on the points: in every game, the [points] of
    every bucket that the aggregation returns are 6 for each touchdown of
    any kind, 1 and 2 for each conversion, and [patReturnPoints] of the
    rule set of the game for each PAT return counted in [patRet2]; under a
    rule set that does not allow the PAT return nobody has one. *)
Theorem X16_legal_pat_points_match_config s g byId q st :
  patLegal s → g ∈ games s →
  computeStats (players s) (events g) = Some byId →
  own byId !! q = Some st →
  points st
  = (6 * (passTD st + rushTD st + recTD st + defTD st)
     + xp1 st + 2 * xp2 st
     + patReturnPoints (RULESET_CONFIG (ruleSet g)) * patRet2 st)%nat
  ∧ (allowPatReturn (RULESET_CONFIG (ruleSet g)) = false → patRet2 st = 0).
Proof.
  intros Hlegal Hg Hby Hq.
  assert (consistent st) as (_ & _ & _ & _ & Hpoints).
  { apply (computeStats_invariant consistent _ _ _ consistent_empty) in Hby.
    - by apply (Hby q).
    - intros e k ws b _. apply consistent_writes. }
  assert (allowPatReturn (RULESET_CONFIG (ruleSet g)) = false →
          patRet2 st = 0) as Hzero.
  { intros Hallow.
    apply (computeStats_invariant (λ b, patRet2 b = 0)) in Hby;
      [by apply (Hby q)|done|].
    intros e k ws b He Hin Hb.
    rewrite (patRet2_writes e k ws b); [done| |done].
    intros Hty. rewrite (Hlegal g e Hg He Hty) in Hallow. discriminate. }
  split; [|done]. rewrite Hpoints.
  destruct (ruleSet g) eqn:Hrs; simpl in *; try (rewrite Hzero by done; lia).
  lia.
Qed.

Lemma X16_legal_pat_points_match_config_witness :
  patLegal farmStore
  ∧ computeStats (players farmStore)
      [ev "PAT_RET_2" "X" None; ev "RUSH_TD" "Y" None]
    = Some (mkById {["X" := mkStats 0 0 0 0 0 0 0 0 0 0 0 0 0 0 1 2;
                     "Y" := mkStats 0 0 0 0 1 1 0 0 0 0 0 0 0 0 0 6]} None ∅)
  ∧ (2 = 6 * (0 + 0 + 0 + 0) + 0 + 2 * 0
         + patReturnPoints (RULESET_CONFIG FARM_LEAGUE) * 1)%nat.
Proof.
  assert (patLegal farmStore) as Hlegal.
  { intros g e Hg He Hty. simpl in Hg.
    rewrite !elem_of_cons, elem_of_nil in Hg. destruct Hg as [-> | [-> | []]].
    - reflexivity.
    - simpl in He. apply list_elem_of_singleton in He as ->. discriminate. }
  split; [exact Hlegal|]. split; [vm_compute; reflexivity|].
  destruct (X16_legal_pat_points_match_config farmStore
              (mkGame "g2" "Hawks" "2024-06-01" FARM_LEAGUE None
                 [ev "PAT_RET_2" "X" None; ev "RUSH_TD" "Y" None])
              (mkById {["X" := mkStats 0 0 0 0 0 0 0 0 0 0 0 0 0 0 1 2;
                        "Y" := mkStats 0 0 0 0 1 1 0 0 0 0 0 0 0 0 0 6]}
                      None ∅)
              "X" (mkStats 0 0 0 0 0 0 0 0 0 0 0 0 0 0 1 2) Hlegal)
    as [H _]; [apply list_elem_of_here|vm_compute; reflexivity
              |vm_compute; reflexivity|].
  exact H.
Defined.

Lemma wellTagged_onSelected_sub upd sel s :
  (∀ l e, e ∈ upd l → e ∈ l) →
  wellTagged s → wellTagged (onSelected upd sel s).
Proof.
  intros Hsub Hwt g' e Hg' He.
  apply elem_of_games_onSelected in Hg' as (g & Hg & [[_ ->] | [_ ->]]).
  - apply (Hwt g e); [done|]. by apply Hsub.
  - by apply (Hwt g e).
Qed.

(** X17.  The application never logs a malformed event: when every event
    of the store carries one of the fifteen tags and a non-empty
    [playerId], the same holds after [pushEvent] and [quickLog], and after
    [removeEvent], [clearGameEvents], [deletePlayer], [deleteGame],
    [openGame], [addPlayer] and [addGame]. *)
Theorem X17_events_stay_well_tagged (trim : string → string)
    a newId name jerseyText id now pid rcv text ty opts eventId opp date rs s :
  wellTagged s →
  wellTagged (pushEvent trim newId now pid text ty opts s)
  ∧ wellTagged (quickLog trim newId now pid rcv text ty s)
  ∧ wellTagged (removeEvent eventId s)
  ∧ wellTagged (clearGameEvents s)
  ∧ wellTagged (deletePlayer a s)
  ∧ wellTagged (deleteGame id s)
  ∧ wellTagged (openGame id s)
  ∧ wellTagged (addPlayer trim newId name jerseyText s)
  ∧ wellTagged (addGame trim newId opp date rs s).
Proof.
  intros Hwt.
  assert (∀ sel o, pid ≠ "" →
            wellTagged
              (onSelected (cons (newEvent trim newId now pid text ty o)) sel s))
    as Hpush.
  { intros sel o Hpid g' e Hg' He.
    apply elem_of_games_onSelected in Hg' as (g & Hg & [[_ ->] | [_ ->]]).
    - simpl in He. apply elem_of_cons in He as [-> | He].
      + split; [by exists ty|done].
      + by apply (Hwt g e).
    - by apply (Hwt g e). }
  split_and!.
  - destruct (pushEvent_cases trim newId now pid text ty opts s)
      as [-> | (sel & _ & Hpid & ->)]; [done|]. by apply Hpush.
  - destruct (quickLog_cases trim newId now pid rcv text ty s)
      as [-> | (sel & o & _ & Hpid & _ & ->)]; [done|]. by apply Hpush.
  - unfold removeEvent. destruct (selectedGame s) as [sel|]; [|done].
    apply (wellTagged_onSelected_sub _ sel); [|done].
    intros l e He. by apply list_elem_of_filter in He as [_ ?].
  - unfold clearGameEvents. destruct (selectedGame s) as [sel|]; [|done].
    apply (wellTagged_onSelected_sub (λ _, []) sel); [|done].
    intros l e He. by apply elem_of_nil in He.
  - intros g' e Hg' He. simpl in Hg'.
    apply list_elem_of_fmap in Hg' as (g & -> & Hg). simpl in *.
    apply list_elem_of_filter in He as [_ He]. by apply (Hwt g e).
  - intros g e Hg He. simpl in Hg.
    apply list_elem_of_filter in Hg as [_ Hg]. by apply (Hwt g e).
  - done.
  - unfold addPlayer. cbv zeta. by case_decide.
  - unfold addGame. cbv zeta. case_decide; [done|].
    intros g e Hg He. simpl in Hg. apply elem_of_cons in Hg as [-> | Hg].
    + by apply elem_of_nil in He.
    + by apply (Hwt g e).
Qed.

Lemma X17_events_stay_well_tagged_witness :
  wellTagged (pushEvent (λ x, x) "e9" 5 "Y" "" SACK noOpts sampleStore).
Proof.
  assert (wellTagged sampleStore) as Hwt.
  { intros g e Hg He. apply list_elem_of_singleton in Hg as ->.
    simpl in He. rewrite !elem_of_cons, elem_of_nil in He.
    destruct He as [-> | [-> | [-> | []]]]; (split; [|done]).
    - by exists PASS_TD.
    - by exists RUSH_TD.
    - by exists XP_1. }
  destruct (X17_events_stay_well_tagged (λ x, x) "a" "e9" "n" "j" "g" 5
              "Y" "X" "" SACK noOpts "e" "o" "d" NFL_FLAG sampleStore Hwt)
    as [H _].
  exact H.
Defined.

(** ** Class names *)

Lemma string_app_assoc (a b c : string) : (a +:+ b) +:+ c = a +:+ b +:+ c.
Proof.
  induction a as [|ch a IH]; [done|].
  change (String ch ((a +:+ b) +:+ c) = String ch (a +:+ b +:+ c)).
  by rewrite IH.
Qed.

Lemma string_app_empty_inv (a b : string) : a +:+ b = "" → a = "".
Proof. by destruct a. Qed.

Lemma join_cons sep x (xs : list string) :
  xs ≠ [] → join sep (x :: xs) = x +:+ sep +:+ join sep xs.
Proof. by destruct xs. Qed.

Lemma join_app sep (xs ys : list string) :
  xs ≠ [] → ys ≠ [] →
  join sep (xs ++ ys) = join sep xs +:+ sep +:+ join sep ys.
Proof.
  intros Hxs Hys. induction xs as [|x xs IH]; [done|].
  destruct xs as [|x' xs].
  - simpl app. by rewrite join_cons.
  - rewrite <-app_comm_cons. rewrite !join_cons by done.
    rewrite IH by done. by rewrite !string_app_assoc.
Qed.

Lemma join_nonempty sep (xs : list string) :
  xs ≠ [] → (∀ x, x ∈ xs → x ≠ "") → join sep xs ≠ "".
Proof.
  intros Hne Hall. destruct xs as [|x xs]; [done|].
  assert (x ≠ "") as Hx by apply Hall, list_elem_of_here.
  destruct xs as [|x' xs]; [done|].
  rewrite join_cons by done. intros Hj. by apply string_app_empty_inv in Hj.
Qed.

Lemma omap_truthy_cons (o : option string) (xs : list (option string)) :
  omap (λ o, truthy o) (o :: xs)
  = match truthy o with
    | Some x => x :: omap (λ o, truthy o) xs
    | None => omap (λ o, truthy o) xs
    end.
Proof. done. Qed.

Lemma elem_of_truthy_args (xs : list (option string)) x :
  x ∈ omap (λ o, truthy o) xs → x ≠ "".
Proof.
  intros Hx. apply list_elem_of_omap in Hx as (o & _ & Ho).
  by apply truthy_Some in Ho as [_ ?].
Qed.

Lemma cls_empty_iff xs : cls xs = "" ↔ omap (λ o, truthy o) xs = [].
Proof.
  unfold cls. split; [|by intros ->].
  intros Hj. destruct (omap _ xs) as [|x l] eqn:Hl; [done|]. exfalso.
  revert Hj. apply join_nonempty; [done|].
  intros y Hy. apply (elem_of_truthy_args xs). by rewrite Hl.
Qed.

(** X19.  [cls] joins its truthy arguments with single spaces, ignores the
    falsy ones ([false], [null], [undefined], the empty string), and nests:
    passing the result of [cls] as an argument of another [cls] gives the
    same class string as passing its arguments directly. *)
Theorem X19_cls_flattens xs ys zs :
  cls (xs ++ Some (cls ys) :: zs) = cls (xs ++ ys ++ zs)
  ∧ cls (xs ++ None :: zs) = cls (xs ++ zs)
  ∧ cls (xs ++ Some "" :: zs) = cls (xs ++ zs).
Proof.
  split; [|split].
  - unfold cls at 1 3. rewrite !omap_app, omap_truthy_cons.
    destruct (truthy (Some (cls ys))) as [c|] eqn:Hc.
    + apply truthy_Some in Hc as [[= <-] Hne].
      set (X := omap (λ o, truthy o) xs). set (Z := omap (λ o, truthy o) zs).
      assert (omap (λ o, truthy o) ys ≠ []) as Hys
        by (intros H; by apply Hne, cls_empty_iff).
      unfold cls. set (Y := omap (λ o, truthy o) ys) in *.
      destruct X as [|x X]; destruct Z as [|z Z]; simpl app.
      * by rewrite app_nil_r.
      * by rewrite join_cons, join_app by done.
      * rewrite app_nil_r.
        rewrite (join_app _ (x :: X) [join " " Y]) by done.
        by rewrite (join_app _ (x :: X) Y) by done.
      * rewrite (join_app _ (x :: X) (join " " Y :: z :: Z)) by done.
        rewrite (join_app _ (x :: X) (Y ++ z :: Z))
          by (try done; by destruct Y).
        rewrite (join_cons _ (join " " Y) (z :: Z)) by done.
        by rewrite (join_app _ Y (z :: Z)) by done.
    + apply truthy_None in Hc as [Hc|[= Hc]]; [done|].
      apply cls_empty_iff in Hc. by rewrite Hc.
  - unfold cls. by rewrite !omap_app, omap_truthy_cons.
  - unfold cls. by rewrite !omap_app, omap_truthy_cons.
Qed.

(** ** Writing and reading back *)

Lemma normalizeGame_gameJson g :
  normalizeGame (gameJson g)
  = {| spread := gameJson g;
       lg_ruleSet := JStr (ruleSetTag (ruleSet g));
       lg_events := eventJson <$> events g |}
  ∧ prop "ruleSet" (gameJson g) = Some (JStr (ruleSetTag (ruleSet g)))
  ∧ prop "events" (gameJson g) = Some (JArr (eventJson <$> events g)).
Proof.
  unfold normalizeGame, gameJson.
  destruct (notes g), (ruleSet g); simpl; done.
Qed.

Lemma normalize_storeJson s : normalize (storeJson s) = Some (loadedOf s).
Proof.
  rewrite normalize_not_null by done. unfold loadedOf. f_equal.
  assert (prop "players" (storeJson s)
          = Some (JArr (playerJson <$> players s))) as -> by done.
  assert (prop "games" (storeJson s)
          = Some (JArr (gameJson <$> games s))) as -> by done.
  assert (prop "ui" (storeJson s) = Some (uiJson (ui s))) as -> by done.
  simpl. f_equal. rewrite <-list_fmap_compose. apply list_fmap_ext.
  intros i g _. simpl. apply normalizeGame_gameJson.
Qed.

(** X20.  Export then import, and save then load, give back the store:
    when [JSON.parse] reads the text written for a store back as the
    document of that store, [importJSON] of the exported text and
    [loadStore] of the saved text (which is not empty) both produce the
    same players, the same selection and the same games, and for every game
    the normalisation changes nothing: the rule set and the events it sets
    are the ones the game already had. *)
Theorem X20_write_then_read (JSON_parse : string → option json)
    (pretty compact : json → string) s :
  (JSON_parse (exportJSON pretty s) = Some (storeJson s) →
   importJSON JSON_parse (exportJSON pretty s) = Some (loadedOf s))
  ∧ (JSON_parse (saveStore compact s) = Some (storeJson s) →
     saveStore compact s ≠ "" →
     loadStore JSON_parse (Item (saveStore compact s)) = loadedOf s)
  ∧ (∀ g, g ∈ games s →
     prop "ruleSet" (gameJson g) = Some (JStr (ruleSetTag (ruleSet g)))
     ∧ ruleSetOfTag (Some (JStr (ruleSetTag (ruleSet g)))) = Some (ruleSet g)
     ∧ prop "events" (gameJson g) = Some (JArr (eventJson <$> events g))).
Proof.
  split; [|split].
  - intros Hparse. unfold importJSON. rewrite Hparse. simpl.
    apply normalize_storeJson.
  - intros Hparse Hne. unfold loadStore.
    rewrite decide_False, Hparse by done. by rewrite normalize_storeJson.
  - intros g _. destruct (normalizeGame_gameJson g) as (_ & Hr & He).
    split; [done|]. split; [|done]. by destruct (ruleSet g).
Qed.

Lemma X20_write_then_read_witness :
  importJSON (λ _, Some (storeJson sampleStore))
             (exportJSON (λ _, "{}") sampleStore)
  = Some (loadedOf sampleStore).
Proof.
  destruct (X20_write_then_read (λ _, Some (storeJson sampleStore))
              (λ _, "{}") (λ _, "{}") sampleStore) as (H & _ & _).
  apply H. reflexivity.
Defined.

(** ** Consistency of the derived statistics *)

(** X21.  Every bucket that [computeStats] returns, under a key or as the
    installed prototype, is consistent, for every roster and every log:
    completions plus thrown interceptions never exceed passing attempts,
    passing touchdowns never exceed completions, rushing touchdowns never
    exceed rushes, receiving touchdowns never exceed receptions, and
    [points] is 6 per touchdown of any kind plus 1 per one-point conversion
    plus 2 per two-point conversion and per PAT return. *)
Theorem X21_buckets_are_consistent roster events byId :
  computeStats roster events = Some byId →
  (∀ q st, own byId !! q = Some st → consistent st)
  ∧ (∀ st, proto byId = Some st → consistent st).
Proof.
  intros Hby. split.
  - intros q st Hq.
    apply (computeStats_invariant consistent _ _ _ consistent_empty) in Hby.
    + by apply (Hby q).
    + intros e k ws b _. apply consistent_writes.
  - apply (computeStats_invariant_proto consistent roster events);
      [apply consistent_empty| |done].
    intros e k ws b _. apply consistent_writes.
Qed.

Lemma X21_buckets_are_consistent_witness :
  consistent (mkStats 1 1 1 0 0 0 0 0 0 0 0 0 0 1 0 8)
  ∧ consistent (mkStats 0 0 0 0 1 1 0 0 0 0 0 0 0 0 0 6).
Proof.
  destruct (X21_buckets_are_consistent
              [mkPlayer "__proto__" "P" None None]
              [ev "PASS_TD" "A" (Some "B"); ev "XP_2" "A" None;
               ev "RUSH_TD" "__proto__" None]
              (mkById {["A" := mkStats 1 1 1 0 0 0 0 0 0 0 0 0 0 1 0 8;
                        "B" := mkStats 0 0 0 0 0 0 1 1 0 0 0 0 0 0 0 6]}
                      (Some (mkStats 0 0 0 0 1 1 0 0 0 0 0 0 0 0 0 6)) ∅))
    as [Hown Hproto]; [vm_compute; reflexivity|].
  split.
  - apply (Hown "A"). vm_compute. reflexivity.
  - apply Hproto. reflexivity.
Defined.

(** ** Deleting a player and the other players *)







(** ** Order and rule sets *)

(** X23.  For every roster without the id ["__proto__"],
    [computeStats] does not depend on the order of the log: it returns for
    every log, and two event lists that are permutations of each other
    give the same result.  The statistics of a player whose id is an id of
    the roster or no member name of [Object.prototype] are the point-wise
    sum of the deltas of the events, a sum that does not depend on the
    order either. *)
Theorem X23_order_independent roster events1 events2 :
  noProtoId roster → events1 ≡ₚ events2 →
  ∃ byId, computeStats roster events1 = Some byId
    ∧ computeStats roster events2 = Some byId
    ∧ ∀ q, ordinaryFor roster q →
           statsOf (own byId) q = sumStats (deltaFor q <$> events1)
           ∧ statsOf (own byId) q = sumStats (deltaFor q <$> events2).
Proof.
  intros Hn Hp.
  destruct (computeStats_is_Some roster events1 Hn) as [byId H1].
  assert (computeStats roster events2 = Some byId) as H2
    by by rewrite <-(computeStats_perm roster events1 events2).
  exists byId. split_and!; try done.
  intros q Hq. split; by eapply statsOf_computeStats.
Qed.

Lemma X23_order_independent_witness :
  ∃ byId,
    computeStats [] [ev "PASS_TD" "A" (Some "B"); ev "RUSH_TD" "toString" None]
    = Some byId
    ∧ computeStats [] [ev "RUSH_TD" "toString" None; ev "PASS_TD" "A" (Some "B")]
      = Some byId
    ∧ ∀ q, ordinaryFor [] q →
           statsOf (own byId) q
           = sumStats (deltaFor q <$> [ev "PASS_TD" "A" (Some "B");
                                       ev "RUSH_TD" "toString" None])
           ∧ statsOf (own byId) q
             = sumStats (deltaFor q <$> [ev "RUSH_TD" "toString" None;
                                         ev "PASS_TD" "A" (Some "B")]).
Proof.
  apply X23_order_independent; [by_check|apply perm_swap].
Defined.

(** X24.  The aggregation does not read the rule set of the game:
    the box score of the selected game is [computeStats] of the roster and
    of the events of that game, so two stores that differ only in the rule
    sets bound to their games have the same box score, and rebinding a game
    to any rule set leaves its statistics unchanged.  In particular, on a
    roster without the id ["__proto__"] and for an id C that is an id of
    the roster or no member name of [Object.prototype], the log
    [PAT_RET_2(player=C)] gives C exactly patRet2 1 and points 2 under
    every rule-set variant, allowing or not. *)
Theorem X24_rule_set_independent :
  (∀ roster g rs,
     computeStats roster (events (withRuleSet g rs))
     = computeStats roster (events g))
  ∧ (∀ roster g1 g2,
     events g1 = events g2 →
     computeStats roster (events g1) = computeStats roster (events g2))
  ∧ (∀ roster gs sel rs,
     statsByPlayer (mkStore roster ((λ g, withRuleSet g rs) <$> gs) sel)
     = statsByPlayer (mkStore roster gs sel))
  ∧ (∀ roster g rs e C,
     noProtoId roster → ordinaryFor roster C →
     ruleSet g = rs → events g = [e] →
     ev_type e = "PAT_RET_2" → playerId e = C →
     ∃ byId, computeStats roster (events g) = Some byId
       ∧ own byId !! C = Some (mkStats 0 0 0 0 0 0 0 0 0 0 0 0 0 0 1 2)).
Proof.
  split; [done|]. split; [by intros roster g1 g2 ->|]. split.
  - intros roster gs sel rs. unfold statsByPlayer, selectedGame. simpl.
    destruct (selectedGameId sel) as [id|]; simpl; [|done].
    induction gs as [|g gs IH]; [done|].
    rewrite fmap_cons. cbn [list_find]. simpl g_id at 1.
    destruct (decide (g_id g = id)); simpl; [done|].
    destruct (list_find _ (_ <$> gs)) as [[i g1]|],
             (list_find _ gs) as [[j g2]|]; simpl in *; done.
  - intros roster g rs e C Hn Hord _ -> Hty Hp.
    assert (creditedReceiver e = None) as Hc.
    { apply (creditedReceiver_no_column e PAT_RET_2); by rewrite ?Hty. }
    destruct (computeStats_is_Some roster [e] Hn) as [byId Hby].
    exists byId. split; [done|].
    rewrite (lookup_computeStats roster [e] byId C), decide_True by done.
    rewrite lookup_aggregate, decide_True.
    + unfold deltaFor. simpl. rewrite Hc, Hp.
      rewrite (primaryOf_known e PAT_RET_2) by (by rewrite Hty).
      by rewrite decide_True.
    + unfold bucketIds. simpl. rewrite !elem_of_union, elem_of_referenced.
      eauto.
Qed.

Lemma X24_rule_set_independent_witness :
  computeStats [] (events (mkGame "g" "Owls" "2024-05-01" NEXT_LEVEL None
                             [ev "PAT_RET_2" "C" None]))
  = computeStats [] (events (mkGame "h" "Owls" "2024-05-01" FARM_LEAGUE None
                               [ev "PAT_RET_2" "C" None]))
  ∧ ∃ byId,
      computeStats [] (events (mkGame "g" "Owls" "2024-05-01" NEXT_LEVEL None
                                 [ev "PAT_RET_2" "C" None])) = Some byId
      ∧ own byId !! "C" = Some (mkStats 0 0 0 0 0 0 0 0 0 0 0 0 0 0 1 2).
Proof.
  destruct X24_rule_set_independent as (_ & H2 & _ & H4). split.
  - apply H2. reflexivity.
  - apply (H4 [] _ NEXT_LEVEL (ev "PAT_RET_2" "C" None) "C");
      [by_check|by_check|reflexivity..].
Defined.
